(** * deco-stl-cli: the STL loader and the character-grid renderer

    A shallow embedding of [stl_to_ascii.js].

    - [Loader] embeds [STLParser] (format detection, the binary reader and
      the line-oriented text reader) over byte lists and strings, with
      thrown exceptions as an explicit [result].
    - [Render] embeds [Vector3], [Triangle], [TerminalRenderer] and
      [createRotationMatrix] over the real numbers.
    - [Main] embeds what [main] does around them: vertex-normal
      smoothing, centring and scaling of the mesh, the key listener and
      the frame loop.

    Numbers.  A JavaScript number is an IEEE binary64 value.  The loader
    keeps the three classes that matter for its control flow ([NaN], the
    infinities, finite values) and represents a finite value by the exact
    rational it denotes before rounding.  The renderer is modelled over
    [R]: rounding, [NaN] and signed zeros are outside this model; the one
    infinity the renderer uses on purpose (the cleared depth buffer) is
    kept as a constructor of its own.  [Nan] embeds the renderer once more
    for triangles whose normals may hold NaN, which the text reader
    returns for a malformed token; on normals without NaN it is the
    renderer of [Render].  [Binary64] repeats the two pieces
    of arithmetic the frame buffer depends on, the temporal blend and the
    depth test, in binary64 itself, so that the real-number model can be
    compared with what the machine computes. *)

From Stdlib Require Import ZArith List String Ascii Bool Lia QArith.
From Stdlib.Strings Require Import Byte.
From Stdlib Require Import Reals Lra Psatz.
From Stdlib Require Floats.
From Stdlib Require DecimalString.
Import ListNotations.

Set Implicit Arguments.

(** ** Exceptions as results *)

Inductive exn : Type :=
| TypeError
| RangeError.

Inductive result (A : Type) : Type :=
| Ok (a : A)
| Throw (e : exn).

Arguments Ok {A} a.
Arguments Throw {A} e.

Definition bind {A B : Type} (r : result A) (k : A -> result B) : result B :=
  match r with
  | Ok a => k a
  | Throw e => Throw e
  end.

Notation "x <- e ;; k" := (bind e (fun x => k))
  (at level 61, e at next level, right associativity).

(** ** Vectors and triangles, generic in the coordinate type *)

Record Vector3 (A : Type) : Type := mkVector3 { x : A; y : A; z : A }.

Record Triangle (A : Type) : Type := mkTriangle {
  v1 : Vector3 A;
  v2 : Vector3 A;
  v3 : Vector3 A;
  normal : Vector3 A;
  vn1 : option (Vector3 A);
  vn2 : option (Vector3 A);
  vn3 : option (Vector3 A)
}.

Unset Implicit Arguments.

(** [new Triangle(v1, v2, v3, normal)] with a normal supplied: an object is
    truthy, so [normal || this.calculateNormal()] keeps it; the per-vertex
    normals start as [null]. *)
Definition newTriangle {A : Type} (a b c n : Vector3 A) : Triangle A :=
  mkTriangle a b c n None None None.

Module Loader.

Open Scope Z_scope.

(** *** Numbers read from a file *)

Inductive number : Type :=
| NaN
| Infinity (negative : bool)
| Finite (q : Q).

Definition Buffer : Type := list byte.

Definition byte_at (data : Buffer) (i : Z) : option Z :=
  if i <? 0 then None
  else option_map (fun b => Z.of_N (Byte.to_N b)) (nth_error data (Z.to_nat i)).

Definition buf_length (data : Buffer) : Z := Z.of_nat (List.length data).

(** [buf.readUInt32LE(offset)]: a [RangeError] unless the four bytes exist. *)
Definition readUInt32LE (data : Buffer) (offset : Z) : result Z :=
  match byte_at data offset, byte_at data (offset + 1),
        byte_at data (offset + 2), byte_at data (offset + 3) with
  | Some first, Some b1, Some b2, Some last =>
      Ok (first + b1 * 2 ^ 8 + b2 * 2 ^ 16 + last * 2 ^ 24)
  | _, _, _, _ => Throw RangeError
  end.

(** [m * 2^e] as an exact rational. *)
Definition scale2 (m e : Z) : Q :=
  if 0 <=? e then Qred (inject_Z (m * 2 ^ e))
  else Qred (Qmake m (Z.to_pos (2 ^ (- e)))).

(** The value of an IEEE binary32 bit pattern (the sign of a zero is not
    kept). *)
Definition decode_f32 (w : Z) : number :=
  let sign := Z.testbit w 31 in
  let e := Z.land (Z.shiftr w 23) 255 in
  let m := Z.land w (2 ^ 23 - 1) in
  let sgn (v : Z) := if sign then - v else v in
  if e =? 255 then (if m =? 0 then Infinity sign else NaN)
  else if e =? 0 then Finite (scale2 (sgn m) (-149))
  else Finite (scale2 (sgn (2 ^ 23 + m)) (e - 150)).

(** [buf.readFloatLE(offset)]. *)
Definition readFloatLE (data : Buffer) (offset : Z) : result number :=
  w <- readUInt32LE data offset ;;
  Ok (decode_f32 w).

(** *** Strings *)

(** ASCII members of the JavaScript white space and line terminator
    classes: TAB, LF, VT, FF, CR and SPACE. *)
Definition is_ws (c : ascii) : bool :=
  let n := nat_of_ascii c in
  ((9 <=? n) && (n <=? 13))%nat || (n =? 32)%nat.

Definition newline : ascii := ascii_of_nat 10.

(** [s.split('\n')]: never empty. *)
Fixpoint split_lines (s : string) : list string :=
  match s with
  | EmptyString => [EmptyString]
  | String c r =>
      if Ascii.eqb c newline then EmptyString :: split_lines r
      else match split_lines r with
           | h :: t => String c h :: t
           | [] => [String c EmptyString]
           end
  end.

Fixpoint trimStart (s : string) : string :=
  match s with
  | EmptyString => EmptyString
  | String c r => if is_ws c then trimStart r else s
  end.

(** Remove trailing white space: a character is dropped when it is white
    space and everything after it has been dropped. *)
Fixpoint trimEnd (s : string) : string :=
  match s with
  | EmptyString => EmptyString
  | String c r =>
      match trimEnd r with
      | EmptyString => if is_ws c then EmptyString else String c EmptyString
      | r' => String c r'
      end
  end.

Definition trim (s : string) : string := trimEnd (trimStart s).

Definition startsWith (s p : string) : bool := String.prefix p s.

(** [s.split(/\s+/)]: the pieces between maximal runs of white space; a run
    at either end leaves an empty piece there.  [prev_ws] tells that the
    previous character belonged to a run. *)
Fixpoint split_ws_from (prev_ws : bool) (s : string) : list string :=
  match s with
  | EmptyString => [EmptyString]
  | String c r =>
      if is_ws c then
        (if prev_ws then split_ws_from true r
         else EmptyString :: split_ws_from true r)
      else match split_ws_from false r with
           | h :: t => String c h :: t
           | [] => [String c EmptyString]
           end
  end.

Definition split_ws (s : string) : list string := split_ws_from false s.

(** [buf.toString()]: UTF-8 decoding.  One character per byte, which is
    what the decoder does on ASCII data. *)
Definition toString (data : Buffer) : string := string_of_list_byte data.

(** *** [parseFloat] *)

Definition is_digit (c : ascii) : bool :=
  let n := nat_of_ascii c in ((48 <=? n) && (n <=? 57))%nat.

Definition digit_val (c : ascii) : Z := Z.of_nat (nat_of_ascii c) - 48.

(** The longest run of decimal digits at the head of [s]: its value, its
    length, and the rest. *)
Fixpoint take_digits (acc : Z) (len : nat) (s : string) : Z * nat * string :=
  match s with
  | String c r =>
      if is_digit c then take_digits (10 * acc + digit_val c) (S len) r
      else (acc, len, s)
  | EmptyString => (acc, len, s)
  end.

Definition take_sign (s : string) : bool * string :=
  match s with
  | String "-" r => (true, r)
  | String "+" r => (false, r)
  | _ => (false, s)
  end.

(** An exponent part [e[+-]digits], or 0 when the text does not continue
    with a complete one. *)
Definition take_exponent (s : string) : Z :=
  match s with
  | String c r =>
      if Ascii.eqb c "e" || Ascii.eqb c "E" then
        let '(neg, r1) := take_sign r in
        let '(v, len, _) := take_digits 0 0 r1 in
        match len with
        | O => 0
        | S _ => if neg then - v else v
        end
      else 0
  | EmptyString => 0
  end.

(** [m * 10^e] as an exact rational. *)
Definition scale10 (m e : Z) : Q :=
  if 0 <=? e then Qred (inject_Z (m * 10 ^ e))
  else Qred (Qmake m (Z.to_pos (10 ^ (- e)))).

(** [parseFloat(s)]: skip leading white space, then read the longest prefix
    that is a decimal literal; [NaN] when there is none. *)
Definition parseFloat (s : string) : number :=
  let '(neg, r0) := take_sign (trimStart s) in
  let sgn (v : Z) := if neg then - v else v in
  if String.prefix "Infinity" r0 then Infinity neg
  else
    let '(ip, ilen, r1) := take_digits 0 0 r0 in
    match r1 with
    | String "." r2 =>
        let '(fp, flen, r3) := take_digits 0 0 r2 in
        match ilen, flen with
        | O, O => NaN
        | _, _ =>
            let m := ip * 10 ^ Z.of_nat flen + fp in
            Finite (scale10 (sgn m) (take_exponent r3 - Z.of_nat flen))
        end
    | _ =>
        match ilen with
        | O => NaN
        | S _ => Finite (scale10 (sgn ip) (take_exponent r1))
        end
    end.

(** [parseFloat(parts[k])]: a missing element is [undefined], whose string
    form is not a number. *)
Definition parseFloat_at (parts : list string) (k : nat) : number :=
  match nth_error parts k with
  | Some s => parseFloat s
  | None => NaN
  end.

(** *** [STLParser.parseBinarySTL] *)

Definition read_vec (data : Buffer) (offset : Z) : result (Vector3 number) :=
  a <- readFloatLE data offset ;;
  b <- readFloatLE data (offset + 4) ;;
  c <- readFloatLE data (offset + 8) ;;
  Ok (mkVector3 a b c).

(** The [for] loop: [count] records left, the next one at [offset]. *)
Fixpoint binary_loop (data : Buffer) (count : nat) (offset : Z)
  : result (list (Triangle number)) :=
  match count with
  | O => Ok []
  | S count' =>
      n <- read_vec data offset ;;
      a <- read_vec data (offset + 12) ;;
      b <- read_vec data (offset + 24) ;;
      c <- read_vec data (offset + 36) ;;
      rest <- binary_loop data count' (offset + 50) ;;
      Ok (newTriangle a b c n :: rest)
  end.

Definition parseBinarySTL (data : Buffer) : result (list (Triangle number)) :=
  triangleCount <- readUInt32LE data 80 ;;
  binary_loop data (Z.to_nat triangleCount) 84.

(** *** [STLParser.parseAsciiSTL] *)

(** A vertex line: [lines[i].split(/\s+/)] throws a [TypeError] when
    [lines[i]] is [undefined]. *)
Definition read_vertex (lines : list string) (i : nat) : result (Vector3 number) :=
  match nth_error lines i with
  | None => Throw TypeError
  | Some vertexLine =>
      let vertexParts := split_ws vertexLine in
      Ok (mkVector3 (parseFloat_at vertexParts 1)
                    (parseFloat_at vertexParts 2)
                    (parseFloat_at vertexParts 3))
  end.

(** One iteration of the [while] loop, entered with [i < lines.length]. *)
Definition ascii_step (lines : list string) (line : string) (i : nat)
    (triangles : list (Triangle number))
  : result (nat * list (Triangle number)) :=
  if startsWith line "facet normal" then
    let normalParts := split_ws line in
    let n := mkVector3 (parseFloat_at normalParts 2)
                       (parseFloat_at normalParts 3)
                       (parseFloat_at normalParts 4) in
    let i := (i + 2)%nat in
    a <- read_vertex lines i ;;
    b <- read_vertex lines (i + 1)%nat ;;
    c <- read_vertex lines (i + 2)%nat ;;
    Ok ((i + 3 + 2)%nat, triangles ++ [newTriangle a b c n])
  else Ok ((i + 1)%nat, triangles).

(** The [while (i < lines.length)] loop; [None] only when [fuel] runs out
    before the loop ends. *)
Fixpoint ascii_loop (fuel : nat) (lines : list string) (i : nat)
    (triangles : list (Triangle number))
  : option (result (list (Triangle number))) :=
  match nth_error lines i with
  | None => Some (Ok triangles)
  | Some line =>
      match fuel with
      | O => None
      | S fuel' =>
          match ascii_step lines line i triangles with
          | Throw e => Some (Throw e)
          | Ok (i', triangles') => ascii_loop fuel' lines i' triangles'
          end
      end
  end.

Definition text_lines (text : string) : list string :=
  map trim (split_lines text).

Definition parseAsciiSTL_fuel (text : string)
  : option (result (list (Triangle number))) :=
  let lines := text_lines text in
  ascii_loop (List.length lines) lines 0 [].

(** Every iteration advances [i], so one unit of fuel per line is enough
    ([ascii_loop_fuel] below); the second branch is never taken. *)
Definition parseAsciiSTL (text : string) : result (list (Triangle number)) :=
  match parseAsciiSTL_fuel text with
  | Some r => r
  | None => Ok []
  end.

(** *** [STLParser.parseSTL], on the bytes [fs.readFileSync] returned *)

Section Dispatch.

Variable A : Type.
Variable binary : Buffer -> result A.
Variable text : string -> result A.

Definition parseSTL_with (data : Buffer) : result A :=
  if 84 <? buf_length data then
    triangleCount <- readUInt32LE data 80 ;;
    let expectedSize := 80 + 4 + triangleCount * 50 in
    if buf_length data =? expectedSize then binary data
    else text (toString data)
  else text (toString data).

End Dispatch.

Arguments parseSTL_with {A} binary text data.

Definition parseSTL : Buffer -> result (list (Triangle number)) :=
  parseSTL_with parseBinarySTL parseAsciiSTL.

(** Which of the two readers [parseSTL] hands the file to. *)
Inductive encoding : Type := Binary | Text.

Definition detect : Buffer -> result encoding :=
  parseSTL_with (fun _ => Ok Binary) (fun _ => Ok Text).

End Loader.

(** * The renderer, over the real numbers *)

Module Render.

Open Scope R_scope.

(** ** [class Vector3] *)

Module Vec.

Definition t : Type := Vector3 R.

Definition zero : t := mkVector3 0 0 0.

Definition add (a v : t) : t :=
  mkVector3 (x a + x v) (y a + y v) (z a + z v).

Definition subtract (a v : t) : t :=
  mkVector3 (x a - x v) (y a - y v) (z a - z v).

Definition multiply (a : t) (scalar : R) : t :=
  mkVector3 (x a * scalar) (y a * scalar) (z a * scalar).

Definition dot (a v : t) : R := x a * x v + y a * y v + z a * z v.

Definition cross (a v : t) : t :=
  mkVector3 (y a * z v - z a * y v)
            (z a * x v - x a * z v)
            (x a * y v - y a * x v).

Definition length (a : t) : R :=
  sqrt (x a * x a + y a * y a + z a * z a).

Definition normalize (a : t) : t :=
  let length := sqrt (x a * x a + y a * y a + z a * z a) in
  if Req_dec_T length 0 then zero
  else mkVector3 (x a / length) (y a / length) (z a / length).

End Vec.

(** ** [class Triangle] *)

Definition calculateNormal (a b c : Vec.t) : Vec.t :=
  let edge1 := Vec.subtract b a in
  let edge2 := Vec.subtract c a in
  Vec.normalize (Vec.cross edge1 edge2).

(** The constructor: [normal || this.calculateNormal()]. *)
Definition Triangle_new (a b c : Vec.t) (n : option Vec.t) : Triangle R :=
  mkTriangle a b c
    (match n with Some n' => n' | None => calculateNormal a b c end)
    None None None.

(** ** [Math] *)

Definition R_lt (a b : R) : bool := if Rlt_dec a b then true else false.
Definition R_le (a b : R) : bool := if Rle_dec a b then true else false.
Definition R_ge (a b : R) : bool := if Rge_dec a b then true else false.

Definition Math_floor (a : R) : Z := Zfloor a.

(** [Math.round]: the nearest integer, a half rounding up. *)
Definition Math_round (a : R) : Z := Zfloor (a + 0.5).

(** [Math.pow(base, e)] for [base >= 0] and [e > 0], the way the lighting
    code calls it: 0 at base 0, [exp (e * ln base)] above. *)
Definition Math_pow (base e : R) : R :=
  if Rle_dec base 0 then 0 else Rpower base e.

(** [a % b]: the remainder of the division truncated toward zero. *)
Definition Ztrunc (a : R) : Z :=
  if Rlt_dec a 0 then (- Zfloor (- a))%Z else Zfloor a.

Definition js_rem (a b : R) : R := a - b * IZR (Ztrunc (a / b)).

(** ** Grids: arrays of rows *)

Section Grid.

Variable A : Type.

Definition grid : Type := list (list A).

Fixpoint list_set (l : list A) (n : nat) (v : A) : list A :=
  match l, n with
  | [], _ => []
  | _ :: t, O => v :: t
  | h :: t, S n' => h :: list_set t n' v
  end.

Fixpoint rows_set (g : grid) (n : nat) (col : nat) (v : A) : grid :=
  match g, n with
  | [], _ => []
  | row :: t, O => list_set row col v :: t
  | row :: t, S n' => row :: rows_set t n' col v
  end.

(** [g[row][col]]; [None] stands for [undefined]. *)
Definition grid_get (g : grid) (row col : Z) : option A :=
  if ((row <? 0) || (col <? 0))%Z then None
  else match nth_error g (Z.to_nat row) with
       | Some r => nth_error r (Z.to_nat col)
       | None => None
       end.

(** [g[row][col] = v] for a cell that exists.  The loops below stay inside
    the grid ([FrameFacts.raster_box_in_grid]) and the grids keep the size
    of the terminal ([FrameFacts.box_cells_exist]), so the assignment
    never meets a missing row or column. *)
Definition grid_set (g : grid) (row col : Z) (v : A) : grid :=
  if ((row <? 0) || (col <? 0))%Z then g
  else rows_set g (Z.to_nat row) (Z.to_nat col) v.

(** [Array(h).fill().map(() => Array(w).fill(v))]. *)
Definition grid_fill (h w : Z) (v : A) : grid :=
  repeat (repeat v (Z.to_nat w)) (Z.to_nat h).

End Grid.

Arguments list_set {A} l n v.
Arguments rows_set {A} g n col v.
Arguments grid_get {A} g row col.
Arguments grid_set {A} g row col v.
Arguments grid_fill {A} h w v.

(** [for (let k = lo; k <= hi; k++) body(k)], threading the state. *)
Fixpoint for_count {S : Type} (body : Z -> S -> S) (k : Z) (count : nat)
    (s : S) : S :=
  match count with
  | O => s
  | Datatypes.S count' => for_count body (k + 1)%Z count' (body k s)
  end.

Definition for_range {S : Type} (lo hi : Z) (body : Z -> S -> S) (s : S) : S :=
  for_count body lo (Z.to_nat (hi - lo + 1)) s.

(** ** [class TerminalRenderer] *)

(** A depth buffer entry: [Infinity] after [clear], a number once written. *)
Inductive depth : Type :=
| PosInfinity
| Depth (d : R).

Record TerminalRenderer : Type := mkRenderer {
  width : Z;
  height : Z;
  usePerPixelLighting : bool;
  buffer : grid ascii;
  indexBuffer : grid Z;
  prevIndexBuffer : grid Z;
  depthBuffer : grid depth
}.

Definition asciiChars : string := " .:-+*=%@#".

Definition space : ascii := " "%char.

(** The constructor, for a terminal of [w] columns and [h] rows. *)
Definition TerminalRenderer_new (w h : Z) (perPixelLighting : bool)
  : TerminalRenderer :=
  mkRenderer w h perPixelLighting
    (grid_fill h w space) (grid_fill h w (-1)%Z)
    (grid_fill h w (-1)%Z) (grid_fill h w PosInfinity).

Definition set_buffers (r : TerminalRenderer) (b : grid ascii) (i : grid Z)
    (d : grid depth) : TerminalRenderer :=
  mkRenderer (width r) (height r) (usePerPixelLighting r) b i
    (prevIndexBuffer r) d.

Definition clear (r : TerminalRenderer) : TerminalRenderer :=
  for_range 0 (height r - 1) (fun row =>
    for_range 0 (width r - 1) (fun col r' =>
      set_buffers r'
        (grid_set (buffer r') row col space)
        (grid_set (indexBuffer r') row col (-1)%Z)
        (grid_set (depthBuffer r') row col PosInfinity))) r.

(** A projected point: integer cell coordinates and the view-axis depth. *)
Record ScreenPoint : Type := mkScreenPoint { sx : Z; sy : Z; sz : R }.

Definition projectToScreen (r : TerminalRenderer) (point : Vec.t)
    (cameraDistance : R) : ScreenPoint :=
  let zc := z point + cameraDistance in
  if Rle_dec zc 0.1 then mkScreenPoint (-1) (-1) (z point)
  else
    let fov := 45 * PI / 180 in
    let charAspectRatio := 2.0 in
    let screenAspect := (IZR (width r) / IZR (height r)) * charAspectRatio in
    let scale := tan (fov / 2) * zc in
    let screenX :=
      (x point / scale) * (IZR (width r) * 0.3) + IZR (width r) / 2 in
    let screenY :=
      (- y point / scale) * (IZR (height r) * 0.3) * charAspectRatio
      + IZR (height r) / 2 in
    mkScreenPoint (Math_floor (screenX + 0.5)) (Math_floor (screenY + 0.25))
                  (z point).

(** The denominator of the barycentric weights, as [isPointInTriangle]
    computes it. *)
Definition containment_denom (p1 p2 p3 : ScreenPoint) : R :=
  (IZR (sy p2) - IZR (sy p3)) * (IZR (sx p1) - IZR (sx p3))
  + (IZR (sx p3) - IZR (sx p2)) * (IZR (sy p1) - IZR (sy p3)).

Definition isPointInTriangle (px py : Z) (p1 p2 p3 : ScreenPoint) : bool :=
  let denom := containment_denom p1 p2 p3 in
  if Rlt_dec (Rabs denom) 0.001 then false
  else
    let a := ((IZR (sy p2) - IZR (sy p3)) * (IZR px - IZR (sx p3))
              + (IZR (sx p3) - IZR (sx p2)) * (IZR py - IZR (sy p3))) / denom in
    let b := ((IZR (sy p3) - IZR (sy p1)) * (IZR px - IZR (sx p3))
              + (IZR (sx p1) - IZR (sx p3)) * (IZR py - IZR (sy p3))) / denom in
    let c := 1 - a - b in
    R_ge a 0 && R_ge b 0 && R_ge c 0.

Record Matrix : Type := mkMatrix {
  m00 : R; m01 : R; m02 : R;
  m10 : R; m11 : R; m12 : R;
  m20 : R; m21 : R; m22 : R
}.

Definition applyMatrix (v : Vec.t) (m : Matrix) : Vec.t :=
  mkVector3 (x v * m00 m + y v * m01 m + z v * m02 m)
            (x v * m10 m + y v * m11 m + z v * m12 m)
            (x v * m20 m + y v * m21 m + z v * m22 m).

(** The ramp's last index, [this.asciiChars.length - 1]. *)
Definition maxIndex : Z := (Z.of_nat (String.length asciiChars) - 1)%Z.

(** The flat lighting of [drawTriangle]. *)
Definition flatIntensity (n lightDirection : Vec.t) : R :=
  let dotProduct := Vec.dot n lightDirection in
  let directionalLight := Rmax 0 dotProduct in
  let ambientLight := 0.35 in
  let smoothLight := Math_pow directionalLight 1.2 * 0.7 in
  let lightIntensity := Rmax 0.25 (smoothLight + ambientLight) in
  Rmin 1.0 lightIntensity.

(** The denominator of the barycentric weights, as the per-pixel branch of
    [rasterizeTriangle] computes it again. *)
Definition pixel_denom (p1 p2 p3 : ScreenPoint) : R :=
  (IZR (sy p2) - IZR (sy p3)) * (IZR (sx p1) - IZR (sx p3))
  + (IZR (sx p3) - IZR (sx p2)) * (IZR (sy p1) - IZR (sy p3)).

(** The interpolated normal of the per-pixel branch at cell [(px, py)]. *)
Definition pixelNormal (px py : Z) (p1 p2 p3 : ScreenPoint)
    (vertexNormals : Vec.t * Vec.t * Vec.t) : Vec.t :=
  let '(n0, n1, n2) := vertexNormals in
  let denom := pixel_denom p1 p2 p3 in
  let a := ((IZR (sy p2) - IZR (sy p3)) * (IZR px - IZR (sx p3))
            + (IZR (sx p3) - IZR (sx p2)) * (IZR py - IZR (sy p3))) / denom in
  let b := ((IZR (sy p3) - IZR (sy p1)) * (IZR px - IZR (sx p3))
            + (IZR (sx p1) - IZR (sx p3)) * (IZR py - IZR (sy p3))) / denom in
  let c := 1 - a - b in
  let nx := x n0 * a + x n1 * b + x n2 * c in
  let ny := y n0 * a + y n1 * b + y n2 * c in
  let nz := z n0 * a + z n1 * b + z n2 * c in
  Vec.normalize (mkVector3 nx ny nz).

Definition pixelIntensity (nInterp lightDirection : Vec.t) : R :=
  let dLight := Rmax 0 (Vec.dot nInterp lightDirection) in
  let ambient := 0.35 in
  let smooth := Math_pow dLight 1.2 * 0.7 in
  Rmin 1 (Rmax 0.25 (ambient + smooth)).

(** The index computed for a covered cell before temporal smoothing, for
    normals that are real numbers; [Nan.effectiveIndex] is the same code
    for normals that may hold NaN. *)
Definition effectiveIndex (perPixel : bool) (px py : Z)
    (p1 p2 p3 : ScreenPoint) (charIndex : Z)
    (vertexNormals : option (Vec.t * Vec.t * Vec.t))
    (lightDirection : option Vec.t) : Z :=
  match perPixel, vertexNormals, lightDirection with
  | true, Some normals, Some light =>
      let nInterp := pixelNormal px py p1 p2 p3 normals in
      Math_floor (pixelIntensity nInterp light * IZR maxIndex)
  | _, _, _ => charIndex
  end.

(** Temporal smoothing against the previous frame's index. *)
Definition blendedIdx (prevIdx effective : Z) : Z :=
  if (prevIdx =? -1)%Z then effective
  else Math_round (IZR prevIdx * 0.3 + IZR effective * 0.7).

Definition depthBias : R := 0.005.

(** [depth < stored - depthBias]; [Infinity - depthBias] is [Infinity], and
    a comparison with [undefined - depthBias] is false. *)
Definition depth_passes (candidate : R) (stored : option depth) : bool :=
  match stored with
  | Some PosInfinity => true
  | Some (Depth d) => R_lt candidate (d - depthBias)
  | None => false
  end.

Definition flatDepth (p1 p2 p3 : ScreenPoint) : R :=
  (sz p1 + sz p2 + sz p3) / 3.

(** The body of the two loops of [rasterizeTriangle] at cell [(px, py)]. *)
Definition shadeCell (p1 p2 p3 : ScreenPoint) (charIndex : Z)
    (vertexNormals : option (Vec.t * Vec.t * Vec.t))
    (lightDirection : option Vec.t) (py px : Z) (r : TerminalRenderer)
  : TerminalRenderer :=
  if isPointInTriangle px py p1 p2 p3 then
    let d := flatDepth p1 p2 p3 in
    if depth_passes d (grid_get (depthBuffer r) py px) then
      let effective :=
        effectiveIndex (usePerPixelLighting r) px py p1 p2 p3 charIndex
          vertexNormals lightDirection in
      let prevIdx :=
        match grid_get (prevIndexBuffer r) py px with
        | Some i => i
        | None => (-1)%Z
        end in
      set_buffers r (buffer r)
        (grid_set (indexBuffer r) py px (blendedIdx prevIdx effective))
        (grid_set (depthBuffer r) py px (Depth d))
    else r
  else r.

Definition min3 (a b c : Z) : Z := Z.min (Z.min a b) c.
Definition max3 (a b c : Z) : Z := Z.max (Z.max a b) c.

Definition rasterizeTriangle (r : TerminalRenderer) (p1 p2 p3 : ScreenPoint)
    (charIndex : Z) (vertexNormals : option (Vec.t * Vec.t * Vec.t))
    (lightDirection : option Vec.t) : TerminalRenderer :=
  if ((sx p1 <? 0) || (sy p1 <? 0) || (sx p2 <? 0) || (sy p2 <? 0)
      || (sx p3 <? 0) || (sy p3 <? 0))%Z then r
  else
    let minX := Z.max 0 (min3 (sx p1) (sx p2) (sx p3)) in
    let maxX := Z.min (width r - 1) (max3 (sx p1) (sx p2) (sx p3)) in
    let minY := Z.max 0 (min3 (sy p1) (sy p2) (sy p3)) in
    let maxY := Z.min (height r - 1) (max3 (sy p1) (sy p2) (sy p3)) in
    if ((minX >=? maxX) || (minY >=? maxY))%Z then r
    else
      for_range minY maxY (fun py =>
        for_range minX maxX
          (shadeCell p1 p2 p3 charIndex vertexNormals lightDirection py)) r.

(** The view vector of the back-face test. *)
Definition viewVector (a b c : Vec.t) (cameraDistance : R) : Vec.t :=
  let centerView :=
    mkVector3 ((x a + x b + x c) / 3) ((y a + y b + y c) / 3)
              ((z a + z b + z c) / 3) in
  let cameraPos := mkVector3 0 0 (- cameraDistance) in
  Vec.normalize (Vec.subtract cameraPos centerView).

Definition or_else (o : option Vec.t) (d : Vec.t) : Vec.t :=
  match o with Some v => v | None => d end.

(** [drawTriangle] for a triangle whose normals are real numbers;
    [Nan.drawTriangle] is the same code for normals that may hold NaN. *)
Definition drawTriangle (r : TerminalRenderer) (triangle : Triangle R)
    (rotationMatrix : Matrix) (lightDirection : Vec.t) (cameraDistance : R)
  : TerminalRenderer :=
  let a := applyMatrix (v1 triangle) rotationMatrix in
  let b := applyMatrix (v2 triangle) rotationMatrix in
  let c := applyMatrix (v3 triangle) rotationMatrix in
  let n1 := applyMatrix (or_else (vn1 triangle) (normal triangle))
                        rotationMatrix in
  let n2 := applyMatrix (or_else (vn2 triangle) (normal triangle))
                        rotationMatrix in
  let n3 := applyMatrix (or_else (vn3 triangle) (normal triangle))
                        rotationMatrix in
  let n := applyMatrix (normal triangle) rotationMatrix in
  if Rle_dec (Vec.dot n (viewVector a b c cameraDistance)) 0 then r
  else
    let p1 := projectToScreen r a cameraDistance in
    let p2 := projectToScreen r b cameraDistance in
    let p3 := projectToScreen r c cameraDistance in
    let charIndex :=
      Math_floor (flatIntensity n lightDirection * IZR maxIndex) in
    rasterizeTriangle r p1 p2 p3 charIndex (Some (n1, n2, n3))
                      (Some lightDirection).

(** [this.asciiChars[idx]], an empty piece of the line when there is no
    such character. *)
Definition glyph (idx : Z) : string :=
  if (idx >=? 0)%Z then
    match String.get (Z.to_nat idx) asciiChars with
    | Some c => String c EmptyString
    | None => EmptyString
    end
  else String space EmptyString.

(** One row of [render]: the text of the row, and the row's indices
    carried over to the previous-frame grid. *)
Definition render_cell (row col : Z) (acc : TerminalRenderer * string)
  : TerminalRenderer * string :=
  let '(r, line) := acc in
  match grid_get (indexBuffer r) row col with
  | Some idx =>
      (mkRenderer (width r) (height r) (usePerPixelLighting r) (buffer r)
         (indexBuffer r) (grid_set (prevIndexBuffer r) row col idx)
         (depthBuffer r),
       (line ++ glyph idx)%string)
  | None => (r, (line ++ String space EmptyString)%string)
  end.

Definition render_row (row : Z) (acc : TerminalRenderer * string)
  : TerminalRenderer * string :=
  let '(r, output) := acc in
  let '(r', line) :=
    for_range 0 (width r - 1) (render_cell row) (r, EmptyString) in
  (r', (output ++ line ++ String (ascii_of_nat 10) EmptyString)%string).

(** [render()]: the renderer afterwards and the text of the frame (the
    cursor-home escape written before it is left out). *)
Definition render (r : TerminalRenderer) : TerminalRenderer * string :=
  for_range 0 (height r - 1) render_row (r, EmptyString).

(** ** [createRotationMatrix] *)

Definition createRotationMatrix (angleX angleY angleZ : R) : Matrix :=
  let angleX := js_rem angleX (2 * PI) in
  let angleY := js_rem angleY (2 * PI) in
  let angleZ := js_rem angleZ (2 * PI) in
  let cosX := cos angleX in let sinX := sin angleX in
  let cosY := cos angleY in let sinY := sin angleY in
  let cosZ := cos angleZ in let sinZ := sin angleZ in
  mkMatrix
    (cosY * cosZ) (- cosY * sinZ) sinY
    (sinX * sinY * cosZ + cosX * sinZ) (- sinX * sinY * sinZ + cosX * cosZ)
      (- sinX * cosY)
    (- cosX * sinY * cosZ + sinX * sinZ) (cosX * sinY * sinZ + sinX * cosZ)
      (cosX * cosY).

(** One frame of [tick]: clear, draw every triangle in mesh order, render. *)
Definition frame (r : TerminalRenderer) (triangles : list (Triangle R))
    (rotationMatrix : Matrix) (lightDirection : Vec.t) (cameraDistance : R)
  : TerminalRenderer * string :=
  render (fold_left
            (fun r' t => drawTriangle r' t rotationMatrix lightDirection
                                      cameraDistance)
            triangles (clear r)).

End Render.

(** * The frame buffer's arithmetic in binary64 *)

Module Binary64.

Import Floats.

Set Warnings "-inexact-float".

Open Scope Z_scope.

(** A small integer as a number. *)
Definition of_int (i : Z) : float :=
  if i <? 0 then PrimFloat.opp (PrimFloat.of_uint63 (Uint63.of_Z (- i)))
  else PrimFloat.of_uint63 (Uint63.of_Z i).

(** [Math.round] of a finite number: the nearest integer, a half rounding
    up, computed on the exact value [m * 2^e] of the number. *)
Definition Math_round (a : float) : option Z :=
  match Prim2SF a with
  | S754_zero _ => Some 0
  | S754_finite s m e =>
      let n := if s then Z.neg m else Z.pos m in
      if 0 <=? e then Some (n * 2 ^ e)
      else let d := 2 ^ (- e) in Some ((2 * n + d) / (2 * d))
  | S754_infinity _ => None
  | S754_nan => None
  end.

(** [Math.round(prevIdx * 0.3 + effectiveIndex * 0.7)] behind the test
    [prevIdx !== -1]. *)
Definition blendedIdx (prevIdx effective : Z) : option Z :=
  if prevIdx =? -1 then Some effective
  else Math_round (PrimFloat.add (PrimFloat.mul (of_int prevIdx) 0.3%float)
                                 (PrimFloat.mul (of_int effective) 0.7%float)).

(** [(p1.z + p2.z + p3.z) / 3]. *)
Definition flatDepth (z1 z2 z3 : float) : float :=
  PrimFloat.div (PrimFloat.add (PrimFloat.add z1 z2) z3) 3%float.

(** [depth < stored - depthBias]. *)
Definition depth_passes (candidate stored : float) : bool :=
  PrimFloat.ltb candidate (PrimFloat.sub stored 0.005%float).

(** The two view-axis depths of the sample triangles of
    [FrameBufferFacts]. *)
Definition z_far : float := 1%float.
Definition z_near : float := 0.998%float.

End Binary64.

(** * The renderer on normals that may be NaN

    The text reader returns NaN for a malformed token, so a loaded
    triangle can carry NaN in its face normal, and the normals averaged
    from it carry NaN too.  [Nan] embeds the renderer once more for such
    triangles: vertex coordinates, the light, the matrix and the camera
    distance are real numbers as in [Render], while a normal's component
    and whatever is computed from it is a real number or NaN, and an
    index grid holds integers or NaN. *)

Module Nan.

Open Scope R_scope.

(** ** Numbers *)

Inductive num : Type :=
| NaN
| Num (a : R).

(** An arithmetic operation: NaN when an operand is NaN. *)
Definition lift2 (f : R -> R -> R) (a b : num) : num :=
  match a, b with
  | Num u, Num v => Num (f u v)
  | _, _ => NaN
  end.

Definition add : num -> num -> num := lift2 Rplus.
Definition mul : num -> num -> num := lift2 Rmult.

(** Division; the code below divides by a vector's length only after
    testing that it is not 0. *)
Definition div : num -> num -> num := lift2 Rdiv.

(** [a <= b] and [a === b] are false when a side is NaN. *)
Definition le (a b : num) : bool :=
  match a, b with
  | Num u, Num v => Render.R_le u v
  | _, _ => false
  end.

Definition strict_eq (a b : num) : bool :=
  match a, b with
  | Num u, Num v => if Req_dec_T u v then true else false
  | _, _ => false
  end.

Definition Math_sqrt (a : num) : num :=
  match a with
  | Num u => Num (sqrt u)
  | NaN => NaN
  end.

(** [Math.max] and [Math.min] return NaN when an argument is NaN. *)
Definition Math_max : num -> num -> num := lift2 Rmax.
Definition Math_min : num -> num -> num := lift2 Rmin.

Definition Math_pow (base : num) (e : R) : num :=
  match base with
  | Num b => Num (Render.Math_pow b e)
  | NaN => NaN
  end.

(** A number stored in an index grid: an integer or NaN. *)
Inductive index : Type :=
| NaNIndex
| Index (i : Z).

Definition Math_floor (a : num) : index :=
  match a with
  | Num u => Index (Render.Math_floor u)
  | NaN => NaNIndex
  end.

Definition Math_round (a : num) : index :=
  match a with
  | Num u => Index (Render.Math_round u)
  | NaN => NaNIndex
  end.

Definition of_index (i : index) : num :=
  match i with
  | Index k => Num (IZR k)
  | NaNIndex => NaN
  end.

(** [i !== -1]: true of NaN. *)
Definition is_empty (i : index) : bool :=
  match i with
  | Index k => (k =? -1)%Z
  | NaNIndex => false
  end.

(** ** Normals *)

Module Vec.

Definition t : Type := Vector3 num.

(** [a.dot(v)] for a real vector [v]. *)
Definition dot (a : t) (v : Render.Vec.t) : num :=
  add (add (mul (x a) (Num (x v))) (mul (y a) (Num (y v))))
      (mul (z a) (Num (z v))).

Definition normalize (a : t) : t :=
  let length :=
    Math_sqrt (add (add (mul (x a) (x a)) (mul (y a) (y a)))
                   (mul (z a) (z a))) in
  if strict_eq length (Num 0) then mkVector3 (Num 0) (Num 0) (Num 0)
  else mkVector3 (div (x a) length) (div (y a) length) (div (z a) length).

End Vec.

(** A triangle as [drawTriangle] receives it: three vertices with real
    coordinates, a face normal and three vertex normals, [None] for
    [null]. *)
Module Tri.

Record t : Type := mk {
  v1 : Render.Vec.t;
  v2 : Render.Vec.t;
  v3 : Render.Vec.t;
  normal : Vec.t;
  vn1 : option Vec.t;
  vn2 : option Vec.t;
  vn3 : option Vec.t
}.

End Tri.

Definition applyMatrix (v : Vec.t) (m : Render.Matrix) : Vec.t :=
  mkVector3
    (add (add (mul (x v) (Num (Render.m00 m))) (mul (y v) (Num (Render.m01 m))))
         (mul (z v) (Num (Render.m02 m))))
    (add (add (mul (x v) (Num (Render.m10 m))) (mul (y v) (Num (Render.m11 m))))
         (mul (z v) (Num (Render.m12 m))))
    (add (add (mul (x v) (Num (Render.m20 m))) (mul (y v) (Num (Render.m21 m))))
         (mul (z v) (Num (Render.m22 m)))).

(** ** [class TerminalRenderer] *)

Record TerminalRenderer : Type := mkRenderer {
  width : Z;
  height : Z;
  usePerPixelLighting : bool;
  buffer : Render.grid ascii;
  indexBuffer : Render.grid index;
  prevIndexBuffer : Render.grid index;
  depthBuffer : Render.grid Render.depth
}.

Definition TerminalRenderer_new (w h : Z) (perPixelLighting : bool)
  : TerminalRenderer :=
  mkRenderer w h perPixelLighting
    (Render.grid_fill h w Render.space) (Render.grid_fill h w (Index (-1)))
    (Render.grid_fill h w (Index (-1)))
    (Render.grid_fill h w Render.PosInfinity).

Definition set_buffers (r : TerminalRenderer) (b : Render.grid ascii)
    (i : Render.grid index) (d : Render.grid Render.depth)
  : TerminalRenderer :=
  mkRenderer (width r) (height r) (usePerPixelLighting r) b i
    (prevIndexBuffer r) d.

Definition clear (r : TerminalRenderer) : TerminalRenderer :=
  Render.for_range 0 (height r - 1) (fun row =>
    Render.for_range 0 (width r - 1) (fun col r' =>
      set_buffers r'
        (Render.grid_set (buffer r') row col Render.space)
        (Render.grid_set (indexBuffer r') row col (Index (-1)))
        (Render.grid_set (depthBuffer r') row col Render.PosInfinity))) r.

Definition projectToScreen (r : TerminalRenderer) (point : Render.Vec.t)
    (cameraDistance : R) : Render.ScreenPoint :=
  let zc := z point + cameraDistance in
  if Rle_dec zc 0.1 then Render.mkScreenPoint (-1) (-1) (z point)
  else
    let fov := 45 * PI / 180 in
    let charAspectRatio := 2.0 in
    let screenAspect := (IZR (width r) / IZR (height r)) * charAspectRatio in
    let scale := tan (fov / 2) * zc in
    let screenX :=
      (x point / scale) * (IZR (width r) * 0.3) + IZR (width r) / 2 in
    let screenY :=
      (- y point / scale) * (IZR (height r) * 0.3) * charAspectRatio
      + IZR (height r) / 2 in
    Render.mkScreenPoint (Render.Math_floor (screenX + 0.5))
                         (Render.Math_floor (screenY + 0.25)) (z point).

(** The flat lighting of [drawTriangle]. *)
Definition flatIntensity (n : Vec.t) (lightDirection : Render.Vec.t) : num :=
  let dotProduct := Vec.dot n lightDirection in
  let directionalLight := Math_max (Num 0) dotProduct in
  let ambientLight := Num 0.35 in
  let smoothLight := mul (Math_pow directionalLight 1.2) (Num 0.7) in
  let lightIntensity := Math_max (Num 0.25) (add smoothLight ambientLight) in
  Math_min (Num 1.0) lightIntensity.

(** The interpolated normal of the per-pixel branch at cell [(px, py)];
    the weights come from the projected points and are real numbers. *)
Definition pixelNormal (px py : Z) (p1 p2 p3 : Render.ScreenPoint)
    (vertexNormals : Vec.t * Vec.t * Vec.t) : Vec.t :=
  let '(n0, n1, n2) := vertexNormals in
  let sx := Render.sx in
  let sy := Render.sy in
  let denom := Render.pixel_denom p1 p2 p3 in
  let a := ((IZR (sy p2) - IZR (sy p3)) * (IZR px - IZR (sx p3))
            + (IZR (sx p3) - IZR (sx p2)) * (IZR py - IZR (sy p3))) / denom in
  let b := ((IZR (sy p3) - IZR (sy p1)) * (IZR px - IZR (sx p3))
            + (IZR (sx p1) - IZR (sx p3)) * (IZR py - IZR (sy p3))) / denom in
  let c := 1 - a - b in
  let nx := add (add (mul (x n0) (Num a)) (mul (x n1) (Num b)))
                (mul (x n2) (Num c)) in
  let ny := add (add (mul (y n0) (Num a)) (mul (y n1) (Num b)))
                (mul (y n2) (Num c)) in
  let nz := add (add (mul (z n0) (Num a)) (mul (z n1) (Num b)))
                (mul (z n2) (Num c)) in
  Vec.normalize (mkVector3 nx ny nz).

Definition pixelIntensity (nInterp : Vec.t) (lightDirection : Render.Vec.t)
  : num :=
  let dLight := Math_max (Num 0) (Vec.dot nInterp lightDirection) in
  let ambient := Num 0.35 in
  let smooth := mul (Math_pow dLight 1.2) (Num 0.7) in
  Math_min (Num 1) (Math_max (Num 0.25) (add ambient smooth)).

(** The index computed for a covered cell before temporal smoothing. *)
Definition effectiveIndex (perPixel : bool) (px py : Z)
    (p1 p2 p3 : Render.ScreenPoint) (charIndex : index)
    (vertexNormals : option (Vec.t * Vec.t * Vec.t))
    (lightDirection : option Render.Vec.t) : index :=
  match perPixel, vertexNormals, lightDirection with
  | true, Some normals, Some light =>
      let nInterp := pixelNormal px py p1 p2 p3 normals in
      Math_floor (mul (pixelIntensity nInterp light)
                      (Num (IZR Render.maxIndex)))
  | _, _, _ => charIndex
  end.

(** Temporal smoothing against the previous frame's index. *)
Definition blendedIdx (prevIdx effective : index) : index :=
  if is_empty prevIdx then effective
  else Math_round (add (mul (of_index prevIdx) (Num 0.3))
                       (mul (of_index effective) (Num 0.7))).

(** The body of the two loops of [rasterizeTriangle] at cell [(px, py)]. *)
Definition shadeCell (p1 p2 p3 : Render.ScreenPoint) (charIndex : index)
    (vertexNormals : option (Vec.t * Vec.t * Vec.t))
    (lightDirection : option Render.Vec.t) (py px : Z) (r : TerminalRenderer)
  : TerminalRenderer :=
  if Render.isPointInTriangle px py p1 p2 p3 then
    let d := Render.flatDepth p1 p2 p3 in
    if Render.depth_passes d (Render.grid_get (depthBuffer r) py px) then
      let effective :=
        effectiveIndex (usePerPixelLighting r) px py p1 p2 p3 charIndex
          vertexNormals lightDirection in
      let prevIdx :=
        match Render.grid_get (prevIndexBuffer r) py px with
        | Some i => i
        | None => Index (-1)
        end in
      set_buffers r (buffer r)
        (Render.grid_set (indexBuffer r) py px (blendedIdx prevIdx effective))
        (Render.grid_set (depthBuffer r) py px (Render.Depth d))
    else r
  else r.

Definition rasterizeTriangle (r : TerminalRenderer)
    (p1 p2 p3 : Render.ScreenPoint) (charIndex : index)
    (vertexNormals : option (Vec.t * Vec.t * Vec.t))
    (lightDirection : option Render.Vec.t) : TerminalRenderer :=
  let sx := Render.sx in
  let sy := Render.sy in
  if ((sx p1 <? 0) || (sy p1 <? 0) || (sx p2 <? 0) || (sy p2 <? 0)
      || (sx p3 <? 0) || (sy p3 <? 0))%Z then r
  else
    let minX := Z.max 0 (Render.min3 (sx p1) (sx p2) (sx p3)) in
    let maxX := Z.min (width r - 1) (Render.max3 (sx p1) (sx p2) (sx p3)) in
    let minY := Z.max 0 (Render.min3 (sy p1) (sy p2) (sy p3)) in
    let maxY := Z.min (height r - 1) (Render.max3 (sy p1) (sy p2) (sy p3)) in
    if ((minX >=? maxX) || (minY >=? maxY))%Z then r
    else
      Render.for_range minY maxY (fun py =>
        Render.for_range minX maxX
          (shadeCell p1 p2 p3 charIndex vertexNormals lightDirection py)) r.

Definition or_else (o : option Vec.t) (d : Vec.t) : Vec.t :=
  match o with Some v => v | None => d end.

Definition drawTriangle (r : TerminalRenderer) (triangle : Tri.t)
    (rotationMatrix : Render.Matrix) (lightDirection : Render.Vec.t)
    (cameraDistance : R) : TerminalRenderer :=
  let a := Render.applyMatrix (Tri.v1 triangle) rotationMatrix in
  let b := Render.applyMatrix (Tri.v2 triangle) rotationMatrix in
  let c := Render.applyMatrix (Tri.v3 triangle) rotationMatrix in
  let n1 := applyMatrix (or_else (Tri.vn1 triangle) (Tri.normal triangle))
                        rotationMatrix in
  let n2 := applyMatrix (or_else (Tri.vn2 triangle) (Tri.normal triangle))
                        rotationMatrix in
  let n3 := applyMatrix (or_else (Tri.vn3 triangle) (Tri.normal triangle))
                        rotationMatrix in
  let n := applyMatrix (Tri.normal triangle) rotationMatrix in
  if le (Vec.dot n (Render.viewVector a b c cameraDistance)) (Num 0) then r
  else
    let p1 := projectToScreen r a cameraDistance in
    let p2 := projectToScreen r b cameraDistance in
    let p3 := projectToScreen r c cameraDistance in
    let charIndex :=
      Math_floor (mul (flatIntensity n lightDirection)
                      (Num (IZR Render.maxIndex))) in
    rasterizeTriangle r p1 p2 p3 charIndex (Some (n1, n2, n3))
                      (Some lightDirection).

(** [idx >= 0 ? this.asciiChars[idx] : ' ']; [NaN >= 0] is false. *)
Definition glyph (idx : index) : string :=
  match idx with
  | Index k => Render.glyph k
  | NaNIndex => String Render.space EmptyString
  end.

Definition render_cell (row col : Z) (acc : TerminalRenderer * string)
  : TerminalRenderer * string :=
  let '(r, line) := acc in
  match Render.grid_get (indexBuffer r) row col with
  | Some idx =>
      (mkRenderer (width r) (height r) (usePerPixelLighting r) (buffer r)
         (indexBuffer r)
         (Render.grid_set (prevIndexBuffer r) row col idx)
         (depthBuffer r),
       (line ++ glyph idx)%string)
  | None => (r, (line ++ String Render.space EmptyString)%string)
  end.

Definition render_row (row : Z) (acc : TerminalRenderer * string)
  : TerminalRenderer * string :=
  let '(r, output) := acc in
  let '(r', line) :=
    Render.for_range 0 (width r - 1) (render_cell row) (r, EmptyString) in
  (r', (output ++ line ++ String (ascii_of_nat 10) EmptyString)%string).

Definition render (r : TerminalRenderer) : TerminalRenderer * string :=
  Render.for_range 0 (height r - 1) render_row (r, EmptyString).

(** One frame of [tick]. *)
Definition frame (r : TerminalRenderer) (triangles : list Tri.t)
    (rotationMatrix : Render.Matrix) (lightDirection : Render.Vec.t)
    (cameraDistance : R) : TerminalRenderer * string :=
  render (fold_left
            (fun r' t => drawTriangle r' t rotationMatrix lightDirection
                                      cameraDistance)
            triangles (clear r)).

(** ** What the loader hands over *)

(** A loaded coordinate as the renderer's number.  The infinities are
    left out of this model. *)
Definition of_number (n : Loader.number) : option num :=
  match n with
  | Loader.NaN => Some NaN
  | Loader.Finite q => Some (Num (Q2R q))
  | Loader.Infinity _ => None
  end.

Definition real_of (n : Loader.number) : option R :=
  match n with
  | Loader.Finite q => Some (Q2R q)
  | _ => None
  end.

Definition vertex_of (v : Vector3 Loader.number) : option Render.Vec.t :=
  match real_of (x v), real_of (y v), real_of (z v) with
  | Some a, Some b, Some c => Some (mkVector3 a b c)
  | _, _, _ => None
  end.

Definition normal_of (v : Vector3 Loader.number) : option Vec.t :=
  match of_number (x v), of_number (y v), of_number (z v) with
  | Some a, Some b, Some c => Some (mkVector3 a b c)
  | _, _, _ => None
  end.

(** A triangle as the loader returns it, with no vertex normals yet,
    when its vertex coordinates are finite numbers. *)
Definition of_loaded (t : Triangle Loader.number) : option Tri.t :=
  match vertex_of (v1 t), vertex_of (v2 t), vertex_of (v3 t),
        normal_of (normal t), vn1 t, vn2 t, vn3 t with
  | Some a, Some b, Some c, Some n, None, None, None =>
      Some (Tri.mk a b c n None None None)
  | _, _, _, _, _, _, _ => None
  end.

End Nan.

(** * The loader: which reader runs, and when loading fails *)

Module LoaderFacts.

Import Loader.
Open Scope Z_scope.

(** The detection rule in the words of the specification: [N] is the
    unsigned little-endian integer held by the four bytes at offset 80. *)
Definition byte_or_zero (data : Buffer) (i : nat) : Z :=
  match nth_error data i with
  | Some b => Z.of_N (Byte.to_N b)
  | None => 0
  end.

Definition le_u32_at (data : Buffer) (offset : nat) : Z :=
  byte_or_zero data offset
  + 256 * (byte_or_zero data (offset + 1)
  + 256 * (byte_or_zero data (offset + 2)
  + 256 * byte_or_zero data (offset + 3))).

Definition binary_layout (data : Buffer) : Prop :=
  84 < buf_length data /\
  buf_length data = 80 + 4 + 50 * le_u32_at data 80.

Lemma byte_at_in_range (data : Buffer) (i : nat) :
  (i < List.length data)%nat ->
  byte_at data (Z.of_nat i) = Some (byte_or_zero data i).
Proof.
  intros Hi. unfold byte_at, byte_or_zero.
  destruct (Z.ltb_spec (Z.of_nat i) 0) as [Hneg | _]; [lia |].
  rewrite Nat2Z.id.
  destruct (nth_error data i) eqn:E; [reflexivity |].
  apply nth_error_None in E. lia.
Qed.

Lemma readUInt32LE_in_range (data : Buffer) (offset : nat) :
  (offset + 3 < List.length data)%nat ->
  readUInt32LE data (Z.of_nat offset) = Ok (le_u32_at data offset).
Proof.
  intros Hlen. unfold readUInt32LE.
  replace (Z.of_nat offset + 1) with (Z.of_nat (offset + 1)) by lia.
  replace (Z.of_nat offset + 2) with (Z.of_nat (offset + 2)) by lia.
  replace (Z.of_nat offset + 3) with (Z.of_nat (offset + 3)) by lia.
  rewrite !byte_at_in_range by lia.
  unfold le_u32_at. f_equal. lia.
Qed.

(** [parseSTL] never fails on its own: it returns what the reader it
    selects returns, and it selects the binary reader exactly on
    [binary_layout]. *)
Lemma parseSTL_with_dispatch (A : Type) (binary : Buffer -> result A)
    (text : string -> result A) (data : Buffer) :
  (binary_layout data -> parseSTL_with binary text data = binary data) /\
  (~ binary_layout data ->
   parseSTL_with binary text data = text (toString data)).
Proof.
  unfold parseSTL_with, binary_layout.
  destruct (Z.ltb_spec 84 (buf_length data)) as [Hlong | Hshort].
  - assert (Hread : readUInt32LE data 80 = Ok (le_u32_at data 80)).
    { apply (readUInt32LE_in_range data 80).
      unfold buf_length in Hlong. lia. }
    rewrite Hread. cbn [bind].
    destruct (Z.eqb_spec (buf_length data) (80 + 4 + le_u32_at data 80 * 50))
      as [Heq | Hne].
    + split; [reflexivity | intros Hn; exfalso; apply Hn; lia].
    + split; [intros [_ Heq]; lia | reflexivity].
  - split; [intros [Hlong _]; lia | reflexivity].
Qed.

Lemma binary_layout_dec (data : Buffer) :
  binary_layout data \/ ~ binary_layout data.
Proof.
  unfold binary_layout.
  destruct (Z.ltb_spec 84 (buf_length data));
    destruct (Z.eqb_spec (buf_length data) (80 + 4 + 50 * le_u32_at data 80));
    (left; split; assumption) || (right; intros [? ?]; lia).
Qed.

(** *** The text reader's loop *)









(** *** Sample files *)

Open Scope string_scope.

Definition nl : string := String newline EmptyString.

(** A binary header announcing one record, followed by 10 of its 50 bytes:
    94 bytes, between 84 and the record boundary at 134. *)
Definition truncated_binary : Buffer :=
  (repeat x00 80 ++ [x01; x00; x00; x00] ++ repeat x00 10)%list.

(** A well-formed binary file of one record: normal (0,0,1), all vertices
    at the origin. *)
Definition one_record_binary : Buffer :=
  (repeat x00 80 ++ [x01; x00; x00; x00]
     ++ repeat x00 8 ++ [x00; x00; x80; x3f] ++ repeat x00 38)%list.




Definition num (n : Z) : number := Finite (inject_Z n).




(** C2: [parseSTL] hands the bytes to the binary reader if and only if
    their length exceeds 84 and equals 80 + 4 + 50 * N, where N is the
    unsigned 32-bit little-endian integer at offset 80; in every other case
    (a length of 84 or less included) it hands their text to the text
    reader. *)
Theorem binary_iff_layout (data : Buffer) :
  (detect data = Ok Binary <-> binary_layout data) /\
  (detect data = Ok Text <-> ~ binary_layout data) /\
  (binary_layout data -> parseSTL data = parseBinarySTL data) /\
  (~ binary_layout data -> parseSTL data = parseAsciiSTL (toString data)) /\
  (buf_length data <= 84 -> detect data = Ok Text).
Proof.
  pose proof (parseSTL_with_dispatch _ (fun _ => Ok Binary) (fun _ => Ok Text)
                data) as [Hb Ht].
  pose proof (parseSTL_with_dispatch _ parseBinarySTL parseAsciiSTL data)
    as [Hpb Hpt].
  fold (detect data) in Hb, Ht. fold (parseSTL data) in Hpb, Hpt.
  destruct (binary_layout_dec data) as [Hl | Hl].
  - specialize (Hb Hl). specialize (Hpb Hl).
    split; [tauto |].
    split; [split; [rewrite Hb; discriminate | contradiction] |].
    split; [tauto |].
    split; [contradiction |].
    unfold binary_layout in Hl. lia.
  - specialize (Ht Hl). specialize (Hpt Hl).
    split; [split; [rewrite Ht; discriminate | contradiction] |].
    split; [tauto |].
    split; [contradiction |].
    split; [tauto |].
    intros _. exact Ht.
Qed.

Lemma binary_iff_layout_witness :
  binary_layout one_record_binary /\
  detect one_record_binary = Ok Binary /\
  parseSTL one_record_binary = parseBinarySTL one_record_binary /\
  detect truncated_binary = Ok Text.
Proof.
  assert (Hl : binary_layout one_record_binary)
    by (split; vm_compute; reflexivity).
  assert (Ht : ~ binary_layout truncated_binary)
    by (intros [_ H]; vm_compute in H; discriminate).
  destruct (binary_iff_layout one_record_binary) as (H1 & _ & H3 & _).
  destruct (binary_iff_layout truncated_binary) as (_ & H2 & _).
  exact (conj Hl (conj (proj2 H1 Hl) (conj (H3 Hl) (proj2 H2 Ht)))).
Defined.

End LoaderFacts.

(** * Grids and loops *)

Module GridFacts.

Import Render.
Open Scope Z_scope.

Section ListSet.

Variable A : Type.

Lemma list_set_length (l : list A) n v :
  List.length (list_set l n v) = List.length l.
Proof.
  revert n; induction l as [| h t IH]; intros [| n]; cbn; auto.
Qed.

Lemma nth_error_list_set_same (l : list A) n v :
  nth_error (list_set l n v) n =
  match nth_error l n with Some _ => Some v | None => None end.
Proof.
  revert n; induction l as [| h t IH]; intros [| n]; cbn; auto.
Qed.

Lemma nth_error_list_set_other (l : list A) n m v :
  n <> m -> nth_error (list_set l n v) m = nth_error l m.
Proof.
  revert n m; induction l as [| h t IH]; intros [| n] [| m] Hne; cbn;
    auto; try congruence.
Qed.

Lemma nth_error_rows_set_same (g : grid A) n c v :
  nth_error (rows_set g n c v) n =
  match nth_error g n with
  | Some row => Some (list_set row c v)
  | None => None
  end.
Proof.
  revert n; induction g as [| h t IH]; intros [| n]; cbn; auto.
Qed.

Lemma nth_error_rows_set_other (g : grid A) n m c v :
  n <> m -> nth_error (rows_set g n c v) m = nth_error g m.
Proof.
  revert n m; induction g as [| h t IH]; intros [| n] [| m] Hne; cbn;
    auto; try congruence.
Qed.

(** Writing a cell that exists makes it read back the value written; a
    cell that does not exist stays missing. *)
Lemma grid_get_set_same (g : grid A) row col v :
  grid_get (grid_set g row col v) row col =
  match grid_get g row col with Some _ => Some v | None => None end.
Proof.
  unfold grid_get, grid_set.
  destruct ((row <? 0) || (col <? 0)) eqn:E; [reflexivity |].
  rewrite nth_error_rows_set_same.
  destruct (nth_error g (Z.to_nat row)) as [r |]; [| reflexivity].
  apply nth_error_list_set_same.
Qed.

Lemma grid_get_set_other (g : grid A) row col v row' col' :
  (row', col') <> (row, col) ->
  grid_get (grid_set g row col v) row' col' = grid_get g row' col'.
Proof.
  intros Hne. unfold grid_get, grid_set.
  destruct ((row <? 0) || (col <? 0)) eqn:E; [reflexivity |].
  destruct ((row' <? 0) || (col' <? 0)) eqn:E'; [reflexivity |].
  apply orb_false_iff in E as [Hr Hc], E' as [Hr' Hc'].
  apply Z.ltb_ge in Hr, Hc, Hr', Hc'.
  destruct (Z.eq_dec row row') as [-> | Hrow].
  - rewrite nth_error_rows_set_same.
    destruct (nth_error g (Z.to_nat row')) as [r |]; [| reflexivity].
    apply nth_error_list_set_other.
    intros Heq. apply Hne. f_equal. lia.
  - rewrite nth_error_rows_set_other by lia. reflexivity.
Qed.

(** Every entry of the grid satisfies [P]. *)
Definition grid_all (P : A -> Prop) (g : grid A) : Prop :=
  Forall (Forall P) g.

Lemma list_set_Forall (P : A -> Prop) (l : list A) n v :
  P v -> Forall P l -> Forall P (list_set l n v).
Proof.
  intros Hv. revert n; induction l as [| h t IH]; intros [| n] Hl; cbn;
    auto; inversion Hl; subst; constructor; auto.
Qed.

Lemma grid_set_all (P : A -> Prop) (g : grid A) row col v :
  P v -> grid_all P g -> grid_all P (grid_set g row col v).
Proof.
  intros Hv Hg. unfold grid_set.
  destruct ((row <? 0) || (col <? 0)); [assumption |].
  generalize (Z.to_nat row) as n. unfold grid_all in *.
  induction g as [| h t IH]; intros [| n]; cbn; auto;
    inversion Hg; subst; constructor; auto.
  now apply list_set_Forall.
Qed.

Lemma grid_get_all (P : A -> Prop) (g : grid A) row col v :
  grid_all P g -> grid_get g row col = Some v -> P v.
Proof.
  unfold grid_get, grid_all. intros Hg.
  destruct ((row <? 0) || (col <? 0)); [discriminate |].
  destruct (nth_error g (Z.to_nat row)) as [r |] eqn:Er; [| discriminate].
  intros Hc. apply nth_error_In in Er, Hc.
  rewrite Forall_forall in Hg. specialize (Hg r Er).
  rewrite Forall_forall in Hg. auto.
Qed.

Lemma grid_all_get (P : A -> Prop) (g : grid A) :
  (forall row col v, grid_get g row col = Some v -> P v) -> grid_all P g.
Proof.
  intros H. unfold grid_all.
  apply Forall_forall. intros r Hr. apply Forall_forall. intros v Hv.
  apply In_nth_error in Hr as [n Hn], Hv as [m Hm].
  apply (H (Z.of_nat n) (Z.of_nat m)).
  unfold grid_get.
  destruct (Z.ltb_spec (Z.of_nat n) 0); [lia |].
  destruct (Z.ltb_spec (Z.of_nat m) 0); [lia |].
  cbn [orb]. rewrite !Nat2Z.id, Hn. exact Hm.
Qed.

Lemma grid_fill_all (P : A -> Prop) h w v :
  P v -> grid_all P (grid_fill h w v).
Proof.
  intros Hv. unfold grid_all, grid_fill.
  apply Forall_forall. intros r Hr. apply repeat_spec in Hr. subst r.
  apply Forall_forall. intros a Ha. apply repeat_spec in Ha. now subst.
Qed.

End ListSet.

(** *** Loops whose body works on one cell *)

Definition in_span (lo : Z) (count : nat) (k : Z) : bool :=
  (lo <=? k) && (k <? lo + Z.of_nat count).

Lemma in_span_O lo k : in_span lo 0 k = false.
Proof.
  unfold in_span.
  destruct (Z.leb_spec lo k), (Z.ltb_spec k (lo + Z.of_nat 0)); auto; lia.
Qed.

Lemma in_span_S lo count k :
  in_span lo (Datatypes.S count) k = (k =? lo) || in_span (lo + 1) count k.
Proof.
  unfold in_span.
  destruct (Z.eqb_spec k lo), (Z.leb_spec lo k), (Z.leb_spec (lo + 1) k),
    (Z.ltb_spec k (lo + Z.of_nat (Datatypes.S count))),
    (Z.ltb_spec k (lo + 1 + Z.of_nat count)); cbn; auto; lia.
Qed.

Lemma in_span_below lo count k : k < lo -> in_span lo count k = false.
Proof.
  intros Hk. unfold in_span. destruct (Z.leb_spec lo k); auto; lia.
Qed.

Lemma in_span_iff lo count k :
  in_span lo count k = true <-> lo <= k < lo + Z.of_nat count.
Proof.
  unfold in_span. rewrite andb_true_iff, Z.leb_le, Z.ltb_lt. tauto.
Qed.

Lemma for_count_invariant (S : Type) (P : S -> Prop) (body : Z -> S -> S) :
  (forall k s, P s -> P (body k s)) ->
  forall count k s, P s -> P (for_count body k count s).
Proof.
  intros Hbody. induction count as [| count IH]; intros k s Hs; cbn; auto.
Qed.

Section CellLoops.

Variables (S O : Type).
(** What is seen of the state at a cell, the loop body for a cell, and
    what the body makes of the cell it works on. *)
Variable obs : S -> Z -> Z -> O.
Variable body : Z -> Z -> S -> S.
Variable upd : Z -> Z -> O -> O.

Hypothesis body_other :
  forall s row col row' col',
    (row', col') <> (row, col) ->
    obs (body row col s) row' col' = obs s row' col'.
Hypothesis body_same :
  forall s row col, obs (body row col s) row col = upd row col (obs s row col).

Lemma row_loop_obs row :
  forall count lo s row' col',
    obs (for_count (body row) lo count s) row' col' =
    if (row' =? row) && in_span lo count col'
    then upd row' col' (obs s row' col')
    else obs s row' col'.
Proof.
  induction count as [| count IH]; intros lo s row' col'; cbn [for_count].
  - rewrite in_span_O, andb_false_r. reflexivity.
  - rewrite IH, in_span_S.
    destruct (Z.eqb_spec row' row) as [-> | Hrow]; cbn [andb].
    + destruct (Z.eqb_spec col' lo) as [-> | Hcol]; cbn [orb].
      * rewrite in_span_below by lia. apply body_same.
      * rewrite body_other by congruence. reflexivity.
    + apply body_other. congruence.
Qed.

Lemma grid_loop_obs clo ccount :
  forall rcount rlo s row' col',
    obs (for_count (fun row => for_count (body row) clo ccount) rlo rcount s)
        row' col' =
    if in_span rlo rcount row' && in_span clo ccount col'
    then upd row' col' (obs s row' col')
    else obs s row' col'.
Proof.
  induction rcount as [| rcount IH]; intros rlo s row' col';
    cbn [for_count].
  - rewrite in_span_O. reflexivity.
  - rewrite IH, !row_loop_obs, in_span_S.
    destruct (Z.eqb_spec row' rlo) as [-> | Hrow]; cbn [andb orb].
    + rewrite in_span_below by lia. reflexivity.
    + reflexivity.
Qed.

End CellLoops.

End GridFacts.

(** * Lighting, ramp indices and temporal smoothing *)

Module ShadeFacts.

Import Render.
Open Scope R_scope.

Lemma maxIndex_9 : maxIndex = 9%Z.
Proof. reflexivity. Qed.

Lemma Math_pow_nonneg base e : 0 <= Math_pow base e.
Proof.
  unfold Math_pow. destruct (Rle_dec base 0); [lra |].
  unfold Rpower. left. apply exp_pos.
Qed.

(** [clamp(lo, v, hi)] in the words of the specification. *)
Definition clamp (lo v hi : R) : R :=
  if Rlt_dec v lo then lo else if Rlt_dec hi v then hi else v.

(** The brightness the specification gives for a normal and a light. *)
Definition spec_brightness (n lightDirection : Vec.t) : R :=
  clamp 0.25 (0.35 + 0.7 * Math_pow (Rmax 0 (Vec.dot n lightDirection)) 1.2) 1.0.

Lemma min_max_is_clamp v : Rmin 1 (Rmax 0.25 v) = clamp 0.25 v 1.
Proof.
  unfold clamp, Rmin, Rmax.
  destruct (Rle_dec 0.25 v), (Rlt_dec v 0.25); try lra;
    destruct (Rlt_dec 1 v); try lra;
    match goal with |- context [Rle_dec ?a ?b] => destruct (Rle_dec a b) end;
    lra.
Qed.

Lemma flatIntensity_spec n L : flatIntensity n L = spec_brightness n L.
Proof.
  unfold flatIntensity, spec_brightness. cbn zeta.
  replace 1.0 with 1 by lra.
  rewrite min_max_is_clamp. f_equal. lra.
Qed.

Lemma pixelIntensity_spec n L : pixelIntensity n L = spec_brightness n L.
Proof.
  unfold pixelIntensity, spec_brightness. cbn zeta.
  replace 1.0 with 1 by lra.
  rewrite min_max_is_clamp. f_equal. lra.
Qed.

Lemma spec_brightness_bounds n L : 0.35 <= spec_brightness n L <= 1.
Proof.
  unfold spec_brightness, clamp.
  pose proof (Math_pow_nonneg (Rmax 0 (Vec.dot n L)) 1.2) as Hp.
  destruct (Rlt_dec _ 0.25); [lra |].
  destruct (Rlt_dec 1.0 _); lra.
Qed.

(** An intensity of at least the ambient term lands on ramp index 3..9. *)
Lemma index_of_brightness n L :
  (3 <= Math_floor (spec_brightness n L * IZR maxIndex) <= 9)%Z.
Proof.
  pose proof (spec_brightness_bounds n L) as Hb.
  rewrite maxIndex_9. unfold Math_floor. split.
  - apply Zfloor_lub. lra.
  - pose proof (Zfloor_bound (spec_brightness n L * 9)) as Hf.
    apply le_IZR. lra.
Qed.

(** On a value that is not negative, [Math.floor] is truncation. *)
Lemma floor_is_truncation a : 0 <= a -> Math_floor a = Ztrunc a.
Proof.
  intros Ha. unfold Math_floor, Ztrunc. destruct (Rlt_dec a 0); [lra | auto].
Qed.

(** The real-number blend, in integer arithmetic. *)
Lemma blendedIdx_formula prevIdx effective :
  prevIdx <> (-1)%Z ->
  blendedIdx prevIdx effective = ((3 * prevIdx + 7 * effective + 5) / 10)%Z.
Proof.
  intros Hp. unfold blendedIdx.
  destruct (Z.eqb_spec prevIdx (-1)); [contradiction |].
  unfold Math_round. apply Zfloor_eq.
  pose proof (Z.div_mod (3 * prevIdx + 7 * effective + 5) 10 ltac:(lia)) as Hd.
  pose proof (Z.mod_pos_bound (3 * prevIdx + 7 * effective + 5) 10 ltac:(lia))
    as Hm.
  set (q := ((3 * prevIdx + 7 * effective + 5) / 10)%Z) in *.
  set (m := ((3 * prevIdx + 7 * effective + 5) mod 10)%Z) in *.
  assert (He : 3 * IZR prevIdx + 7 * IZR effective + 5 = 10 * IZR q + IZR m).
  { rewrite <- !mult_IZR, <- !plus_IZR. f_equal. exact Hd. }
  assert (Hm0 : 0 <= IZR m) by (apply IZR_le; lia).
  assert (Hm9 : IZR m <= 9) by (apply IZR_le; lia).
  lra.
Qed.

Lemma blendedIdx_empty effective : blendedIdx (-1) effective = effective.
Proof. reflexivity. Qed.

Definition drawn (i : Z) : Prop := (3 <= i <= 9)%Z.

(** An index buffer entry: the empty sentinel or a drawn ramp index. *)
Definition idx_ok (i : Z) : Prop := i = (-1)%Z \/ drawn i.

Lemma blendedIdx_drawn prevIdx effective :
  idx_ok prevIdx -> drawn effective -> drawn (blendedIdx prevIdx effective).
Proof.
  intros [-> | Hp] He; [exact He |].
  unfold drawn in *.
  rewrite blendedIdx_formula by lia.
  split.
  - apply Z.div_le_lower_bound; lia.
  - assert ((3 * prevIdx + 7 * effective + 5) / 10 < 10)%Z
      by (apply Z.div_lt_upper_bound; lia).
    lia.
Qed.

(** On the entries an index grid can hold, the blend computed in binary64
    is the blend of the real-number model. *)
Lemma blendedIdx_binary64 prevIdx effective :
  idx_ok prevIdx -> drawn effective ->
  Binary64.blendedIdx prevIdx effective = Some (blendedIdx prevIdx effective).
Proof.
  intros [-> | Hp] He; [reflexivity |].
  unfold drawn in *.
  rewrite blendedIdx_formula by lia.
  assert (Hpc : (prevIdx = 3 \/ prevIdx = 4 \/ prevIdx = 5 \/ prevIdx = 6
                 \/ prevIdx = 7 \/ prevIdx = 8 \/ prevIdx = 9)%Z) by lia.
  assert (Hec : (effective = 3 \/ effective = 4 \/ effective = 5
                 \/ effective = 6 \/ effective = 7 \/ effective = 8
                 \/ effective = 9)%Z) by lia.
  clear Hp He.
  repeat (destruct Hpc as [-> | Hpc]); try subst prevIdx;
    repeat (destruct Hec as [-> | Hec]); try subst effective;
    vm_compute; reflexivity.
Qed.

Lemma effectiveIndex_drawn perPixel px py p1 p2 p3 charIndex normals light :
  drawn charIndex ->
  drawn (effectiveIndex perPixel px py p1 p2 p3 charIndex normals light).
Proof.
  intros Hc. unfold effectiveIndex.
  destruct perPixel, normals, light; try exact Hc.
  rewrite pixelIntensity_spec. apply index_of_brightness.
Qed.

End ShadeFacts.

(** * What the loops of the renderer do to one cell *)

Module FrameFacts.

Import Render GridFacts ShadeFacts.
Open Scope Z_scope.

(** What a cell shows: its index, depth and previous-frame index entries
    ([None] where the grid has no such cell) and the renderer's lighting
    flag. *)
Definition cell : Type := option Z * option depth * option Z * bool.

Definition look (r : TerminalRenderer) (row col : Z) : cell :=
  (grid_get (indexBuffer r) row col,
   grid_get (depthBuffer r) row col,
   grid_get (prevIndexBuffer r) row col,
   usePerPixelLighting r).

Definition overwrite {A : Type} (o : option A) (v : A) : option A :=
  match o with Some _ => Some v | None => None end.

Definition prev_or_empty (p : option Z) : Z :=
  match p with Some i => i | None => -1 end.

Lemma look_index r row col i d p f :
  look r row col = (i, d, p, f) -> grid_get (indexBuffer r) row col = i.
Proof. unfold look. intros H. now inversion H. Qed.

Lemma look_depth r row col i d p f :
  look r row col = (i, d, p, f) -> grid_get (depthBuffer r) row col = d.
Proof. unfold look. intros H. now inversion H. Qed.

Lemma look_prev r row col i d p f :
  look r row col = (i, d, p, f) -> grid_get (prevIndexBuffer r) row col = p.
Proof. unfold look. intros H. now inversion H. Qed.

Lemma in_span_range lo hi k :
  in_span lo (Z.to_nat (hi - lo + 1)) k = (lo <=? k) && (k <=? hi).
Proof.
  unfold in_span.
  destruct (Z.leb_spec lo k), (Z.leb_spec k hi),
    (Z.ltb_spec k (lo + Z.of_nat (Z.to_nat (hi - lo + 1)))); cbn; auto; lia.
Qed.

Lemma grid_get_fill (A : Type) h w (v : A) row col :
  0 <= row < h -> 0 <= col < w -> grid_get (grid_fill h w v) row col = Some v.
Proof.
  intros Hr Hc. unfold grid_get, grid_fill.
  destruct (Z.ltb_spec row 0); [lia |].
  destruct (Z.ltb_spec col 0); [lia |]. cbn [orb].
  rewrite nth_error_repeat by lia.
  apply nth_error_repeat. lia.
Qed.

(** The size and the lighting flag of a renderer. *)
Definition shape (r : TerminalRenderer) : Z * Z * bool :=
  (width r, height r, usePerPixelLighting r).

(** *** [rasterizeTriangle] *)

Section Raster.

Variables (p1 p2 p3 : ScreenPoint) (charIndex : Z).
Variable vertexNormals : option (Vec.t * Vec.t * Vec.t).
Variable lightDirection : option Vec.t.

(** The cell after the loop body has run on it. *)
Definition shaded (row col : Z) (c : cell) : cell :=
  let '(i, d, p, f) := c in
  if isPointInTriangle col row p1 p2 p3
     && depth_passes (flatDepth p1 p2 p3) d
  then (overwrite i
          (blendedIdx (prev_or_empty p)
             (effectiveIndex f col row p1 p2 p3 charIndex vertexNormals
                lightDirection)),
        overwrite d (Depth (flatDepth p1 p2 p3)), p, f)
  else c.

Let body := shadeCell p1 p2 p3 charIndex vertexNormals lightDirection.

Lemma shadeCell_same r row col :
  look (body row col r) row col = shaded row col (look r row col).
Proof.
  unfold body, shadeCell, shaded, look.
  destruct (isPointInTriangle col row p1 p2 p3); cbn [andb];
    [| reflexivity].
  destruct (depth_passes _ _); [| reflexivity].
  cbn. rewrite !grid_get_set_same. reflexivity.
Qed.

Lemma shadeCell_other r row col row' col' :
  (row', col') <> (row, col) ->
  look (body row col r) row' col' = look r row' col'.
Proof.
  intros Hne. unfold body, shadeCell, look.
  destruct (isPointInTriangle col row p1 p2 p3); [| reflexivity].
  destruct (depth_passes _ _); [| reflexivity].
  cbn. rewrite !grid_get_set_other by assumption. reflexivity.
Qed.

Lemma shadeCell_shape r row col : shape (body row col r) = shape r.
Proof.
  unfold body, shadeCell, shape.
  destruct (isPointInTriangle col row p1 p2 p3); [| reflexivity].
  destruct (depth_passes _ _); reflexivity.
Qed.

Lemma shadeCell_prev r row col :
  prevIndexBuffer (body row col r) = prevIndexBuffer r.
Proof.
  unfold body, shadeCell.
  destruct (isPointInTriangle col row p1 p2 p3); [| reflexivity].
  destruct (depth_passes _ _); reflexivity.
Qed.

(** No projected point is off screen, and the clipped bounding box is
    not degenerate. *)
Definition rasterized (r : TerminalRenderer) : bool :=
  negb ((sx p1 <? 0) || (sy p1 <? 0) || (sx p2 <? 0) || (sy p2 <? 0)
        || (sx p3 <? 0) || (sy p3 <? 0))
  && negb ((Z.max 0 (min3 (sx p1) (sx p2) (sx p3))
              >=? Z.min (width r - 1) (max3 (sx p1) (sx p2) (sx p3)))
           || (Z.max 0 (min3 (sy p1) (sy p2) (sy p3))
                 >=? Z.min (height r - 1) (max3 (sy p1) (sy p2) (sy p3)))).

(** The cell lies in the clipped bounding box. *)
Definition in_box (r : TerminalRenderer) (row col : Z) : bool :=
  ((Z.max 0 (min3 (sy p1) (sy p2) (sy p3)) <=? row)
   && (row <=? Z.min (height r - 1) (max3 (sy p1) (sy p2) (sy p3))))
  && ((Z.max 0 (min3 (sx p1) (sx p2) (sx p3)) <=? col)
      && (col <=? Z.min (width r - 1) (max3 (sx p1) (sx p2) (sx p3)))).

(** The box the loops run over lies inside the grid. *)
Lemma raster_box_in_grid r row col :
  in_box r row col = true -> 0 <= row < height r /\ 0 <= col < width r.
Proof.
  unfold in_box. rewrite !andb_true_iff, !Z.leb_le. lia.
Qed.

(** [rasterizeTriangle], cell by cell. *)
Lemma rasterize_look r row col :
  look (rasterizeTriangle r p1 p2 p3 charIndex vertexNormals lightDirection)
       row col =
  if rasterized r && in_box r row col
  then shaded row col (look r row col)
  else look r row col.
Proof.
  unfold rasterizeTriangle, rasterized.
  destruct ((sx p1 <? 0) || (sy p1 <? 0) || (sx p2 <? 0) || (sy p2 <? 0)
            || (sx p3 <? 0) || (sy p3 <? 0)); [reflexivity |].
  cbn zeta. cbn [negb andb].
  destruct ((_ >=? _) || (_ >=? _)); [reflexivity |].
  cbn [negb]. unfold for_range.
  rewrite (grid_loop_obs _ _ look body shaded shadeCell_other
             shadeCell_same).
  rewrite !in_span_range. reflexivity.
Qed.

Lemma rasterize_shape r :
  shape (rasterizeTriangle r p1 p2 p3 charIndex vertexNormals
           lightDirection) = shape r.
Proof.
  unfold rasterizeTriangle.
  destruct (_ || _ || _ || _ || _ || _); [reflexivity |]. cbn zeta.
  destruct (_ || _); [reflexivity |].
  unfold for_range.
  apply (for_count_invariant _ (fun s => shape s = shape r)); [| reflexivity].
  intros row s Hs.
  apply (for_count_invariant _ (fun s => shape s = shape r)); [| exact Hs].
  intros col s' Hs'. fold (body row col s').
  now rewrite shadeCell_shape.
Qed.

Lemma rasterize_prev r :
  prevIndexBuffer (rasterizeTriangle r p1 p2 p3 charIndex vertexNormals
                     lightDirection) = prevIndexBuffer r.
Proof.
  unfold rasterizeTriangle.
  destruct (_ || _ || _ || _ || _ || _); [reflexivity |]. cbn zeta.
  destruct (_ || _); [reflexivity |].
  unfold for_range.
  apply (for_count_invariant _
           (fun s => prevIndexBuffer s = prevIndexBuffer r));
    [| reflexivity].
  intros row s Hs.
  apply (for_count_invariant _
           (fun s => prevIndexBuffer s = prevIndexBuffer r)); [| exact Hs].
  intros col s' Hs'. fold (body row col s').
  now rewrite shadeCell_prev.
Qed.

End Raster.

(** *** [clear] *)

Definition cleared (c : cell) : cell :=
  let '(i, d, p, f) := c in (overwrite i (-1), overwrite d PosInfinity, p, f).

Definition on_grid (r : TerminalRenderer) (row col : Z) : bool :=
  ((0 <=? row) && (row <=? height r - 1))
  && ((0 <=? col) && (col <=? width r - 1)).

Definition clear_cell (row col : Z) (r' : TerminalRenderer)
  : TerminalRenderer :=
  set_buffers r'
    (grid_set (buffer r') row col space)
    (grid_set (indexBuffer r') row col (-1))
    (grid_set (depthBuffer r') row col PosInfinity).

Lemma clear_look r row col :
  look (clear r) row col =
  if on_grid r row col then cleared (look r row col) else look r row col.
Proof.
  unfold clear, for_range, on_grid.
  change (fun row0 : Z =>
            for_count (fun (col0 : Z) (r' : TerminalRenderer) => _) 0 _)
    with (fun row0 => for_count (clear_cell row0) 0
                        (Z.to_nat (width r - 1 - 0 + 1))).
  rewrite (grid_loop_obs _ _ look clear_cell (fun _ _ => cleared)).
  - rewrite !in_span_range. reflexivity.
  - intros s a b a' b' Hne. unfold look, clear_cell. cbn.
    rewrite !grid_get_set_other by assumption. reflexivity.
  - intros s a b. unfold look, clear_cell, cleared. cbn.
    rewrite !grid_get_set_same. reflexivity.
Qed.

Lemma clear_shape r : shape (clear r) = shape r.
Proof.
  unfold clear, for_range.
  apply (for_count_invariant _ (fun s => shape s = shape r)); [| reflexivity].
  intros row s Hs.
  apply (for_count_invariant _ (fun s => shape s = shape r)); [| exact Hs].
  intros col s' Hs'. exact Hs'.
Qed.

(** *** [render] *)

(** What [render] does to the renderer at one cell. *)
Definition carry (row col : Z) (r : TerminalRenderer) : TerminalRenderer :=
  fst (render_cell row col (r, EmptyString)).

Definition carried (c : cell) : cell :=
  let '(i, d, p, f) := c in
  (i, d, match i with Some idx => overwrite p idx | None => p end, f).

Lemma render_cell_fst row col r line :
  fst (render_cell row col (r, line)) = carry row col r.
Proof.
  unfold carry, render_cell.
  destruct (grid_get (indexBuffer r) row col); reflexivity.
Qed.

Lemma carry_shape row col r : shape (carry row col r) = shape r.
Proof.
  unfold carry, render_cell.
  destruct (grid_get (indexBuffer r) row col); reflexivity.
Qed.

Lemma render_cells_fst row :
  forall count lo r line,
    fst (for_count (render_cell row) lo count (r, line)) =
    for_count (carry row) lo count r.
Proof.
  induction count as [| count IH]; intros lo r line; cbn [for_count];
    [reflexivity |].
  destruct (render_cell row lo (r, line)) as [r1 line1] eqn:E.
  rewrite IH. f_equal.
  rewrite <- (render_cell_fst row lo r line), E. reflexivity.
Qed.

Lemma render_rows_fst w :
  forall count lo r out,
    width r = w ->
    fst (for_count render_row lo count (r, out)) =
    for_count (fun row => for_count (carry row) 0 (Z.to_nat (w - 1 - 0 + 1)))
              lo count r.
Proof.
  induction count as [| count IH]; intros lo r out Hw; cbn [for_count];
    [reflexivity |].
  unfold render_row at 2. unfold for_range. rewrite Hw.
  pose proof (render_cells_fst lo (Z.to_nat (w - 1 - 0 + 1)) 0 r EmptyString)
    as Hfst.
  destruct (for_count (render_cell lo) 0 (Z.to_nat (w - 1 - 0 + 1))
              (r, EmptyString)) as [r1 line1].
  cbn [fst] in Hfst. rewrite IH.
  - now rewrite Hfst.
  - rewrite Hfst.
    assert (Hs : shape (for_count (carry lo) 0 (Z.to_nat (w - 1 - 0 + 1)) r)
                 = shape r).
    { apply (for_count_invariant _ (fun s => shape s = shape r));
        [| reflexivity].
      intros col s Hs. now rewrite carry_shape. }
    unfold shape in Hs. congruence.
Qed.

Lemma render_look r row col :
  look (fst (render r)) row col =
  if on_grid r row col then carried (look r row col) else look r row col.
Proof.
  unfold render, for_range, on_grid.
  rewrite (render_rows_fst (width r)) by reflexivity.
  rewrite (grid_loop_obs _ _ look carry (fun _ _ => carried)).
  - rewrite !in_span_range. reflexivity.
  - intros s a b a' b' Hne. unfold look, carry, render_cell.
    destruct (grid_get (indexBuffer s) a b); cbn; [| reflexivity].
    rewrite grid_get_set_other by assumption. reflexivity.
  - intros s a b. unfold look, carry, render_cell, carried.
    destruct (grid_get (indexBuffer s) a b) eqn:E; cbn; rewrite E;
      [| reflexivity].
    rewrite grid_get_set_same. reflexivity.
Qed.

Lemma render_shape r : shape (fst (render r)) = shape r.
Proof.
  unfold render, for_range.
  rewrite (render_rows_fst (width r)) by reflexivity.
  apply (for_count_invariant _ (fun s => shape s = shape r)); [| reflexivity].
  intros row s Hs.
  apply (for_count_invariant _ (fun s => shape s = shape r)); [| exact Hs].
  intros col s' Hs'. now rewrite carry_shape.
Qed.

(** *** The grids keep the size of the terminal *)

Definition sized {A : Type} (h w : Z) (g : grid A) : Prop :=
  List.length g = Z.to_nat h /\
  Forall (fun row => List.length row = Z.to_nat w) g.

(** The four grids have [height] rows of [width] cells. *)
Definition well_sized (r : TerminalRenderer) : Prop :=
  sized (height r) (width r) (buffer r) /\
  sized (height r) (width r) (indexBuffer r) /\
  sized (height r) (width r) (prevIndexBuffer r) /\
  sized (height r) (width r) (depthBuffer r).

Lemma grid_fill_sized (A : Type) h w (v : A) : sized h w (grid_fill h w v).
Proof.
  unfold sized, grid_fill. split; [apply repeat_length |].
  apply Forall_forall. intros row Hrow. apply repeat_spec in Hrow.
  subst row. apply repeat_length.
Qed.

Lemma rows_set_sized (A : Type) h w (g : grid A) n col v :
  Forall (fun row => List.length row = w) g ->
  List.length g = h ->
  List.length (rows_set g n col v) = h /\
  Forall (fun row => List.length row = w) (rows_set g n col v).
Proof.
  revert h n. induction g as [| row g IH]; intros h [| n] Hall Hlen; cbn;
    auto; inversion Hall; subst.
  - split; [reflexivity |]. constructor; [| assumption].
    apply list_set_length.
  - destruct (IH (List.length g) n H2 eq_refl) as [Hl Hf].
    cbn. split; [now rewrite Hl |]. now constructor.
Qed.

Lemma grid_set_sized (A : Type) h w (g : grid A) row col v :
  sized h w g -> sized h w (grid_set g row col v).
Proof.
  intros [Hlen Hall]. unfold grid_set.
  destruct ((row <? 0) || (col <? 0)); [now split |].
  now apply rows_set_sized.
Qed.

(** A cell inside the size of the grid exists. *)
Lemma sized_get (A : Type) h w (g : grid A) row col :
  sized h w g -> 0 <= row < h -> 0 <= col < w ->
  exists v, grid_get g row col = Some v.
Proof.
  intros [Hlen Hall] Hr Hc. unfold grid_get.
  destruct (Z.ltb_spec row 0); [lia |].
  destruct (Z.ltb_spec col 0); [lia |]. cbn [orb].
  destruct (nth_error g (Z.to_nat row)) as [r |] eqn:Er.
  - rewrite Forall_forall in Hall.
    specialize (Hall r (nth_error_In _ _ Er)).
    destruct (nth_error r (Z.to_nat col)) as [v |] eqn:Ec; [eauto |].
    apply nth_error_None in Ec. lia.
  - apply nth_error_None in Er. lia.
Qed.

Lemma new_well_sized w h f : well_sized (TerminalRenderer_new w h f).
Proof.
  unfold well_sized. cbn.
  refine (conj _ (conj _ (conj _ _))); apply grid_fill_sized.
Qed.

Lemma shadeCell_well_sized p1 p2 p3 charIndex normals light row col r :
  well_sized r ->
  well_sized (shadeCell p1 p2 p3 charIndex normals light row col r).
Proof.
  intros (Hb & Hi & Hp & Hd). unfold shadeCell.
  destruct (isPointInTriangle col row p1 p2 p3); [| exact (conj Hb (conj Hi (conj Hp Hd)))].
  destruct (depth_passes _ _); [| exact (conj Hb (conj Hi (conj Hp Hd)))].
  unfold well_sized. cbn.
  refine (conj _ (conj _ (conj _ _))); try apply grid_set_sized; assumption.
Qed.

Lemma rasterize_well_sized r p1 p2 p3 charIndex normals light :
  well_sized r ->
  well_sized (rasterizeTriangle r p1 p2 p3 charIndex normals light).
Proof.
  intros H. unfold rasterizeTriangle.
  destruct (_ || _ || _ || _ || _ || _); [exact H |]. cbn zeta.
  destruct (_ || _); [exact H |]. unfold for_range.
  apply (for_count_invariant _ well_sized); [| exact H].
  intros row s Hs. apply (for_count_invariant _ well_sized); [| exact Hs].
  intros col s' Hs'. now apply shadeCell_well_sized.
Qed.

Lemma drawTriangle_well_sized r t M L cam :
  well_sized r -> well_sized (drawTriangle r t M L cam).
Proof.
  intros H. unfold drawTriangle. cbn zeta.
  destruct (Rle_dec _ 0); [exact H | now apply rasterize_well_sized].
Qed.

Lemma clear_well_sized r : well_sized r -> well_sized (clear r).
Proof.
  intros H. unfold clear, for_range.
  apply (for_count_invariant _ well_sized); [| exact H].
  intros row s Hs. apply (for_count_invariant _ well_sized); [| exact Hs].
  intros col s' (Hb & Hi & Hp & Hd). unfold well_sized. cbn.
  refine (conj _ (conj _ (conj _ _))); try apply grid_set_sized; assumption.
Qed.

Lemma carry_well_sized row col r : well_sized r -> well_sized (carry row col r).
Proof.
  intros (Hb & Hi & Hp & Hd). unfold carry, render_cell.
  destruct (grid_get (indexBuffer r) row col); [| exact (conj Hb (conj Hi (conj Hp Hd)))].
  unfold well_sized. cbn.
  refine (conj _ (conj _ (conj _ _))); try apply grid_set_sized; assumption.
Qed.

Lemma render_well_sized r : well_sized r -> well_sized (fst (render r)).
Proof.
  intros H. unfold render, for_range.
  rewrite (render_rows_fst (width r)) by reflexivity.
  apply (for_count_invariant _ well_sized); [| exact H].
  intros row s Hs. apply (for_count_invariant _ well_sized); [| exact Hs].
  intros col s' Hs'. now apply carry_well_sized.
Qed.

(** In a renderer whose grids have its size, every cell the rasterizer's
    loops visit exists in the three grids it reads and writes. *)
Lemma box_cells_exist p1 p2 p3 r row col :
  well_sized r -> in_box p1 p2 p3 r row col = true ->
  exists i d p,
    look r row col = (Some i, Some d, Some p, usePerPixelLighting r).
Proof.
  intros (_ & Hi & Hp & Hd) Hbox.
  apply raster_box_in_grid in Hbox as [Hr Hc].
  destruct (sized_get _ _ _ _ row col Hi Hr Hc) as [i Ei].
  destruct (sized_get _ _ _ _ row col Hp Hr Hc) as [p Ep].
  destruct (sized_get _ _ _ _ row col Hd Hr Hc) as [d Ed].
  exists i, d, p. unfold look. now rewrite Ei, Ep, Ed.
Qed.

(** *** Containment of a grid cell, in integer arithmetic *)

Definition denomZ (p1 p2 p3 : ScreenPoint) : Z :=
  (sy p2 - sy p3) * (sx p1 - sx p3) + (sx p3 - sx p2) * (sy p1 - sy p3).

Definition isPointInTriangleZ (px py : Z) (p1 p2 p3 : ScreenPoint) : bool :=
  let d := denomZ p1 p2 p3 in
  let na := (sy p2 - sy p3) * (px - sx p3) + (sx p3 - sx p2) * (py - sy p3) in
  let nb := (sy p3 - sy p1) * (px - sx p3) + (sx p1 - sx p3) * (py - sy p3) in
  negb (d =? 0) && (0 <=? na * d) && (0 <=? nb * d) && (0 <=? (d - na - nb) * d).

Lemma containment_denom_Z p1 p2 p3 :
  containment_denom p1 p2 p3 = IZR (denomZ p1 p2 p3).
Proof.
  unfold containment_denom, denomZ.
  rewrite plus_IZR, !mult_IZR, !minus_IZR. reflexivity.
Qed.

Lemma quotient_sign (n d : Z) :
  d <> 0 -> ((IZR n / IZR d >= 0)%R <-> 0 <= n * d).
Proof.
  intros Hd.
  assert (Hd' : IZR d <> 0%R) by (intros H; apply eq_IZR in H; lia).
  assert (Hsq : (0 < IZR d * IZR d)%R) by nra.
  assert (Heq : (IZR n / IZR d = IZR (n * d) / (IZR d * IZR d))%R).
  { rewrite mult_IZR. field. assumption. }
  rewrite Heq. split.
  - intros H. apply le_IZR.
    apply Rge_le in H.
    apply (Rmult_le_compat_r (IZR d * IZR d)) in H; [| lra].
    unfold Rdiv in H. rewrite Rmult_assoc, Rinv_l in H; lra.
  - intros H. apply IZR_le in H. apply Rle_ge.
    apply Rmult_le_pos; [exact H |]. left. now apply Rinv_0_lt_compat.
Qed.

Lemma R_ge_quotient (n d : Z) :
  d <> 0 -> R_ge (IZR n / IZR d) 0 = (0 <=? n * d).
Proof.
  intros Hd. pose proof (quotient_sign n d Hd) as H. unfold R_ge.
  destruct (Rge_dec (IZR n / IZR d) 0), (Z.leb_spec 0 (n * d)); auto.
  - exfalso. apply H in r. lia.
  - exfalso. tauto.
Qed.

Lemma isPointInTriangle_Z px py p1 p2 p3 :
  isPointInTriangle px py p1 p2 p3 = isPointInTriangleZ px py p1 p2 p3.
Proof.
  unfold isPointInTriangle, isPointInTriangleZ. cbn zeta.
  rewrite containment_denom_Z.
  set (d := denomZ p1 p2 p3).
  set (na := (sy p2 - sy p3) * (px - sx p3) + (sx p3 - sx p2) * (py - sy p3)).
  set (nb := (sy p3 - sy p1) * (px - sx p3) + (sx p1 - sx p3) * (py - sy p3)).
  replace ((IZR (sy p2) - IZR (sy p3)) * (IZR px - IZR (sx p3))
           + (IZR (sx p3) - IZR (sx p2)) * (IZR py - IZR (sy p3)))%R
    with (IZR na)
    by (unfold na; rewrite plus_IZR, !mult_IZR, !minus_IZR; reflexivity).
  replace ((IZR (sy p3) - IZR (sy p1)) * (IZR px - IZR (sx p3))
           + (IZR (sx p1) - IZR (sx p3)) * (IZR py - IZR (sy p3)))%R
    with (IZR nb)
    by (unfold nb; rewrite plus_IZR, !mult_IZR, !minus_IZR; reflexivity).
  destruct (Z.eqb_spec d 0) as [Hd | Hd]; cbn [negb andb].
  - rewrite Hd. destruct (Rlt_dec (Rabs 0) 0.001) as [_ | Hn]; [reflexivity |].
    exfalso. apply Hn. rewrite Rabs_R0. lra.
  - destruct (Rlt_dec (Rabs (IZR d)) 0.001) as [Hsmall | _].
    + exfalso. rewrite <- abs_IZR in Hsmall.
      assert (1 <= Z.abs d) by lia.
      apply IZR_le in H. lra.
    + assert (Hc : (1 - IZR na / IZR d - IZR nb / IZR d
                    = IZR (d - na - nb) / IZR d)%R).
      { rewrite !minus_IZR. field. intros H; apply eq_IZR in H; lia. }
      rewrite Hc, !R_ge_quotient by assumption. reflexivity.
Qed.

End FrameFacts.

(** * Vectors, normals and back faces *)

Module NormalFacts.

Import Render.
Open Scope R_scope.

Definition norm2 (v : Vec.t) : R := x v * x v + y v * y v + z v * z v.

Lemma norm2_nonneg v : 0 <= norm2 v.
Proof. unfold norm2. nra. Qed.

Lemma norm2_zero v : norm2 v = 0 -> v = Vec.zero.
Proof.
  destruct v as [a b c]. unfold norm2, Vec.zero. cbn. intros H.
  assert (a = 0) by nra. assert (b = 0) by nra. assert (c = 0) by nra.
  congruence.
Qed.

Lemma normalize_zero v : norm2 v = 0 -> Vec.normalize v = Vec.zero.
Proof.
  intros H. unfold Vec.normalize. fold (norm2 v). rewrite H, sqrt_0.
  cbn zeta. destruct (Req_dec_T 0 0); [reflexivity | contradiction].
Qed.

Lemma normalize_unit v : norm2 v <> 0 -> Vec.length (Vec.normalize v) = 1.
Proof.
  intros H. pose proof (norm2_nonneg v) as Hn.
  assert (Hpos : 0 < norm2 v) by lra.
  pose proof (sqrt_lt_R0 _ Hpos) as Hs.
  pose proof (sqrt_def _ Hn) as Hd.
  unfold Vec.normalize. fold (norm2 v). cbn zeta.
  destruct (Req_dec_T (sqrt (norm2 v)) 0) as [E | _]; [lra |].
  unfold Vec.length. cbn [x y z].
  set (l := sqrt (norm2 v)) in *.
  replace (x v / l * (x v / l) + y v / l * (y v / l) + z v / l * (z v / l))
    with (norm2 v / (l * l)) by (unfold norm2; field; lra).
  rewrite Hd. unfold Rdiv. rewrite Rinv_r by lra. apply sqrt_1.
Qed.

(** The dot product with the zero vector is 0. *)
Lemma dot_zero_l v : Vec.dot Vec.zero v = 0.
Proof. unfold Vec.dot, Vec.zero. cbn. ring. Qed.

(** Degenerate triangles: the two edges leaving the first vertex are
    linearly dependent (collinear or coincident vertices). *)
Definition collinear (a b c : Vec.t) : Prop :=
  exists s t : R,
    (s <> 0 \/ t <> 0) /\
    s * (x b - x a) + t * (x c - x a) = 0 /\
    s * (y b - y a) + t * (y c - y a) = 0 /\
    s * (z b - z a) + t * (z c - z a) = 0.

Definition edge_cross (a b c : Vec.t) : Vec.t :=
  Vec.cross (Vec.subtract b a) (Vec.subtract c a).

Lemma scaled_zero (s u : R) : s <> 0 -> s * u = 0 -> u = 0.
Proof.
  intros Hs H. apply Rmult_integral in H. tauto.
Qed.

Lemma collinear_cross_zero a b c :
  collinear a b c -> norm2 (edge_cross a b c) = 0.
Proof.
  intros (s & t & Hst & Hx & Hy & Hz).
  destruct a as [ax ay az], b as [bx by_ bz], c as [cx cy cz].
  unfold norm2, edge_cross, Vec.cross, Vec.subtract. cbn [x y z] in *.
  set (x1 := bx - ax) in *. set (y1 := by_ - ay) in *.
  set (z1 := bz - az) in *. set (x2 := cx - ax) in *.
  set (y2 := cy - ay) in *. set (z2 := cz - az) in *.
  assert (Hcx : y1 * z2 - z1 * y2 = 0 /\ z1 * x2 - x1 * z2 = 0
                /\ x1 * y2 - y1 * x2 = 0).
  { destruct Hst as [Hs | Ht].
    - repeat split; apply (scaled_zero s); try assumption.
      + replace (s * (y1 * z2 - z1 * y2))
          with ((s * y1 + t * y2) * z2 - (s * z1 + t * z2) * y2) by ring.
        rewrite Hy, Hz. ring.
      + replace (s * (z1 * x2 - x1 * z2))
          with ((s * z1 + t * z2) * x2 - (s * x1 + t * x2) * z2) by ring.
        rewrite Hz, Hx. ring.
      + replace (s * (x1 * y2 - y1 * x2))
          with ((s * x1 + t * x2) * y2 - (s * y1 + t * y2) * x2) by ring.
        rewrite Hx, Hy. ring.
    - repeat split; apply (scaled_zero t); try assumption.
      + replace (t * (y1 * z2 - z1 * y2))
          with (y1 * (s * z1 + t * z2) - z1 * (s * y1 + t * y2)) by ring.
        rewrite Hy, Hz. ring.
      + replace (t * (z1 * x2 - x1 * z2))
          with (z1 * (s * x1 + t * x2) - x1 * (s * z1 + t * z2)) by ring.
        rewrite Hz, Hx. ring.
      + replace (t * (x1 * y2 - y1 * x2))
          with (x1 * (s * y1 + t * y2) - y1 * (s * x1 + t * x2)) by ring.
        rewrite Hx, Hy. ring. }
  destruct Hcx as (H1 & H2 & H3). rewrite H1, H2, H3. ring.
Qed.

Lemma cross_zero_collinear a b c :
  norm2 (edge_cross a b c) = 0 -> collinear a b c.
Proof.
  intros H. apply norm2_zero in H.
  destruct a as [ax ay az], b as [bx by_ bz], c as [cx cy cz].
  unfold edge_cross, Vec.cross, Vec.subtract, Vec.zero, collinear in *.
  cbn [x y z] in *.
  set (x1 := bx - ax) in *. set (y1 := by_ - ay) in *.
  set (z1 := bz - az) in *. set (x2 := cx - ax) in *.
  set (y2 := cy - ay) in *. set (z2 := cz - az) in *.
  injection H as Hx Hy Hz.
  destruct (Req_dec_T x1 0) as [Ex | Ex].
  - destruct (Req_dec_T y1 0) as [Ey | Ey].
    + destruct (Req_dec_T z1 0) as [Ez | Ez].
      * exists 1, 0. rewrite Ex, Ey, Ez.
        split; [left; lra | repeat split; ring].
      * exists z2, (- z1).
        split; [right; lra | repeat split; nra].
    + exists y2, (- y1).
      split; [right; lra | repeat split; nra].
  - exists x2, (- x1).
    split; [right; lra | repeat split; nra].
Qed.

Lemma calculateNormal_degenerate a b c :
  collinear a b c -> calculateNormal a b c = Vec.zero.
Proof.
  intros H. unfold calculateNormal. cbn zeta.
  apply normalize_zero. now apply collinear_cross_zero.
Qed.

Lemma calculateNormal_unit a b c :
  ~ collinear a b c -> Vec.length (calculateNormal a b c) = 1.
Proof.
  intros H. unfold calculateNormal. cbn zeta.
  apply normalize_unit. intros Hz. apply H. now apply cross_zero_collinear.
Qed.

(** The back-face test of [drawTriangle], on the transformed triangle. *)
Definition facing (t : Triangle R) (M : Matrix) (cameraDistance : R) : R :=
  Vec.dot (applyMatrix (normal t) M)
          (viewVector (applyMatrix (v1 t) M) (applyMatrix (v2 t) M)
                      (applyMatrix (v3 t) M) cameraDistance).

Lemma drawTriangle_culled r t M L cam :
  facing t M cam <= 0 -> drawTriangle r t M L cam = r.
Proof.
  intros H. unfold drawTriangle, facing in *. cbn zeta.
  destruct (Rle_dec _ 0); [reflexivity | contradiction].
Qed.

Definition identity : Matrix := mkMatrix 1 0 0 0 1 0 0 0 1.

Lemma applyMatrix_identity v : applyMatrix v identity = v.
Proof.
  destruct v as [a b c]. unfold applyMatrix, identity. cbn. f_equal; ring.
Qed.





(** C7: a computed face normal has unit length unless the triangle is
    degenerate, in which case it is the zero vector; and a triangle whose
    transformed face normal is the zero vector is culled as back-facing,
    so it is never drawn, under any rotation when the zero normal is the
    computed one of a degenerate triangle. *)
Theorem computed_normal_unit_or_zero :
  (forall a b c, normal (Triangle_new a b c None) = calculateNormal a b c) /\
  (forall a b c, ~ collinear a b c -> Vec.length (calculateNormal a b c) = 1) /\
  (forall a b c, collinear a b c -> calculateNormal a b c = Vec.zero) /\
  (forall r t M L cam,
     applyMatrix (normal t) M = Vec.zero ->
     facing t M cam <= 0 /\ drawTriangle r t M L cam = r) /\
  (forall r a b c M L cam,
     collinear a b c ->
     drawTriangle r (Triangle_new a b c None) M L cam = r).
Proof.
  assert (Hcull : forall r t M L cam,
            applyMatrix (normal t) M = Vec.zero ->
            facing t M cam <= 0 /\ drawTriangle r t M L cam = r).
  { intros r t M L cam Hz.
    assert (Hf : facing t M cam <= 0).
    { unfold facing. rewrite Hz, dot_zero_l. lra. }
    split; [exact Hf | now apply drawTriangle_culled]. }
  split; [reflexivity |].
  split; [apply calculateNormal_unit |].
  split; [apply calculateNormal_degenerate |].
  split; [exact Hcull |].
  intros r a b c M L cam Hdeg. apply Hcull.
  cbn [Triangle_new normal].
  rewrite (calculateNormal_degenerate a b c Hdeg).
  unfold applyMatrix, Vec.zero. cbn [x y z]. f_equal; ring.
Qed.

Definition corner_a : Vec.t := mkVector3 0 0 0.
Definition corner_b : Vec.t := mkVector3 1 0 0.
Definition corner_c : Vec.t := mkVector3 0 1 0.

Lemma corners_not_collinear : ~ collinear corner_a corner_b corner_c.
Proof.
  intros (s & t & Hst & Hx & Hy & _).
  unfold corner_a, corner_b, corner_c in *. cbn [x y z] in *.
  destruct Hst; lra.
Qed.

Lemma coincident_collinear : collinear corner_b corner_b corner_b.
Proof.
  exists 1, 0. split; [left; lra | repeat split; ring].
Qed.

Lemma computed_normal_unit_or_zero_witness :
  Vec.length (calculateNormal corner_a corner_b corner_c) = 1 /\
  calculateNormal corner_b corner_b corner_b = Vec.zero /\
  drawTriangle (TerminalRenderer_new 4 4 true)
    (Triangle_new corner_b corner_b corner_b None) identity
    (mkVector3 0 0 1) 5
  = TerminalRenderer_new 4 4 true.
Proof.
  destruct computed_normal_unit_or_zero as (_ & Hunit & Hzero & Hcull & _).
  split; [exact (Hunit _ _ _ corners_not_collinear) |].
  split; [exact (Hzero _ _ _ coincident_collinear) |].
  apply Hcull. rewrite applyMatrix_identity.
  exact (Hzero _ _ _ coincident_collinear).
Defined.

End NormalFacts.

(** * Brightness and ramp index *)

Module LightingFacts.

Import Render ShadeFacts.
Open Scope R_scope.

(** The index [drawTriangle] passes to the rasterizer. *)
Definition flatIndex (t : Triangle R) (M : Matrix) (L : Vec.t) : Z :=
  Math_floor (flatIntensity (applyMatrix (normal t) M) L * IZR maxIndex).

Lemma drawTriangle_drawn r t M L cam :
  ~ NormalFacts.facing t M cam <= 0 ->
  drawTriangle r t M L cam =
  rasterizeTriangle r
    (projectToScreen r (applyMatrix (v1 t) M) cam)
    (projectToScreen r (applyMatrix (v2 t) M) cam)
    (projectToScreen r (applyMatrix (v3 t) M) cam)
    (flatIndex t M L)
    (Some (applyMatrix (or_else (vn1 t) (normal t)) M,
           applyMatrix (or_else (vn2 t) (normal t)) M,
           applyMatrix (or_else (vn3 t) (normal t)) M))
    (Some L).
Proof.
  intros H. unfold drawTriangle, NormalFacts.facing in *. cbn zeta.
  destruct (Rle_dec _ 0); [contradiction | reflexivity].
Qed.

End LightingFacts.

(** * The rotation matrix *)

Module RotationFacts.

Import Render.
Open Scope R_scope.

Definition Rx (a : R) : Matrix :=
  mkMatrix 1 0 0
           0 (cos a) (- sin a)
           0 (sin a) (cos a).

Definition Ry (a : R) : Matrix :=
  mkMatrix (cos a) 0 (sin a)
           0 1 0
           (- sin a) 0 (cos a).

Definition Rz (a : R) : Matrix :=
  mkMatrix (cos a) (- sin a) 0
           (sin a) (cos a) 0
           0 0 1.

(** The matrix product [A * B]. *)
Definition mmul (A B : Matrix) : Matrix :=
  mkMatrix
    (m00 A * m00 B + m01 A * m10 B + m02 A * m20 B)
    (m00 A * m01 B + m01 A * m11 B + m02 A * m21 B)
    (m00 A * m02 B + m01 A * m12 B + m02 A * m22 B)
    (m10 A * m00 B + m11 A * m10 B + m12 A * m20 B)
    (m10 A * m01 B + m11 A * m11 B + m12 A * m21 B)
    (m10 A * m02 B + m11 A * m12 B + m12 A * m22 B)
    (m20 A * m00 B + m21 A * m10 B + m22 A * m20 B)
    (m20 A * m01 B + m21 A * m11 B + m22 A * m21 B)
    (m20 A * m02 B + m21 A * m12 B + m22 A * m22 B).

(** The angle reduced modulo a full turn. *)
Definition reduced (a : R) : R := js_rem a (2 * PI).

Lemma two_PI_pos : 0 < 2 * PI.
Proof. pose proof PI_RGT_0. lra. Qed.

(** The remainder differs from the angle by whole turns and is less than
    one turn in absolute value. *)
Lemma reduced_spec a :
  reduced a = a - IZR (Ztrunc (a / (2 * PI))) * (2 * PI) /\
  Rabs (reduced a) < 2 * PI.
Proof.
  pose proof two_PI_pos as Hp.
  unfold reduced, js_rem. split; [ring |].
  set (b := 2 * PI) in *. set (q := a / b).
  assert (Ha : a = b * q) by (unfold q; field; lra).
  unfold Ztrunc. destruct (Rlt_dec q 0) as [Hq | Hq].
  - pose proof (Zfloor_bound (- q)) as Hf.
    rewrite opp_IZR. set (f := IZR (Zfloor (- q))) in *.
    apply Rabs_def1; rewrite Ha at 1; nra.
  - pose proof (Zfloor_bound q) as Hf.
    set (f := IZR (Zfloor q)) in *.
    apply Rabs_def1; rewrite Ha at 1; nra.
Qed.

Lemma cos_whole_turns a (k : Z) : cos (a - IZR k * (2 * PI)) = cos a.
Proof.
  destruct (Z_le_gt_dec 0 k) as [Hk | Hk].
  - rewrite <- (cos_period (a - IZR k * (2 * PI)) (Z.to_nat k)).
    rewrite INR_IZR_INZ, Z2Nat.id by assumption. f_equal. ring.
  - rewrite <- (cos_period a (Z.to_nat (- k))).
    rewrite INR_IZR_INZ, Z2Nat.id, opp_IZR by lia. f_equal. ring.
Qed.

Lemma sin_whole_turns a (k : Z) : sin (a - IZR k * (2 * PI)) = sin a.
Proof.
  destruct (Z_le_gt_dec 0 k) as [Hk | Hk].
  - rewrite <- (sin_period (a - IZR k * (2 * PI)) (Z.to_nat k)).
    rewrite INR_IZR_INZ, Z2Nat.id by assumption. f_equal. ring.
  - rewrite <- (sin_period a (Z.to_nat (- k))).
    rewrite INR_IZR_INZ, Z2Nat.id, opp_IZR by lia. f_equal. ring.
Qed.

Lemma cos_reduced a : cos (reduced a) = cos a.
Proof. rewrite (proj1 (reduced_spec a)). apply cos_whole_turns. Qed.

Lemma sin_reduced a : sin (reduced a) = sin a.
Proof. rewrite (proj1 (reduced_spec a)). apply sin_whole_turns. Qed.

Lemma createRotationMatrix_product ax ay az :
  createRotationMatrix ax ay az =
  mmul (Rx (reduced ax)) (mmul (Ry (reduced ay)) (Rz (reduced az))).
Proof.
  unfold createRotationMatrix, mmul, Rx, Ry, Rz, reduced.
  cbn [m00 m01 m02 m10 m11 m12 m20 m21 m22]. f_equal; ring.
Qed.

Lemma applyMatrix_mmul v A B :
  applyMatrix v (mmul A B) = applyMatrix (applyMatrix v B) A.
Proof.
  destruct v as [a b c]. unfold applyMatrix, mmul.
  cbn [x y z m00 m01 m02 m10 m11 m12 m20 m21 m22]. f_equal; ring.
Qed.

(** C8: the matrix built from three Euler angles is the product
    Rx * Ry * Rz of the standard axis rotations taken at the angles
    reduced modulo 2 pi, so it applies the Z rotation first, then Y, then
    X; the reduction removes whole turns only, so the same product at the
    angles themselves is the same matrix. *)
Theorem rotation_is_Rx_Ry_Rz ax ay az :
  createRotationMatrix ax ay az =
    mmul (Rx (reduced ax)) (mmul (Ry (reduced ay)) (Rz (reduced az))) /\
  (forall v,
     applyMatrix v (createRotationMatrix ax ay az) =
     applyMatrix (applyMatrix (applyMatrix v (Rz (reduced az)))
                              (Ry (reduced ay)))
                 (Rx (reduced ax))) /\
  (reduced ax = ax - IZR (Ztrunc (ax / (2 * PI))) * (2 * PI) /\
   reduced ay = ay - IZR (Ztrunc (ay / (2 * PI))) * (2 * PI) /\
   reduced az = az - IZR (Ztrunc (az / (2 * PI))) * (2 * PI)) /\
  (Rabs (reduced ax) < 2 * PI /\ Rabs (reduced ay) < 2 * PI
   /\ Rabs (reduced az) < 2 * PI) /\
  createRotationMatrix ax ay az = mmul (Rx ax) (mmul (Ry ay) (Rz az)).
Proof.
  split; [apply createRotationMatrix_product |].
  split.
  { intros v. rewrite createRotationMatrix_product, !applyMatrix_mmul.
    reflexivity. }
  split; [repeat split; apply reduced_spec |].
  split; [repeat split; apply reduced_spec |].
  rewrite createRotationMatrix_product. unfold Rx, Ry, Rz.
  rewrite !cos_reduced, !sin_reduced. reflexivity.
Qed.

End RotationFacts.

(** * The barycentric denominator *)

Module BarycentricFacts.

Import Render FrameFacts.
Open Scope R_scope.

Lemma contained_denominator px py p1 p2 p3 :
  isPointInTriangle px py p1 p2 p3 = true ->
  0.001 <= Rabs (containment_denom p1 p2 p3).
Proof.
  unfold isPointInTriangle. cbn zeta.
  destruct (Rlt_dec (Rabs (containment_denom p1 p2 p3)) 0.001);
    [discriminate | lra].
Qed.

(** C10: the denominator the per-pixel branch recomputes is the one the
    containment test checked; containment implies that its absolute value
    is at least 0.001, so it is not zero; and the body of the loops leaves
    the renderer alone (and does not reach the per-pixel branch) at a cell
    that fails the containment test. *)
Theorem pixel_divisions_safe px py p1 p2 p3 :
  pixel_denom p1 p2 p3 = containment_denom p1 p2 p3 /\
  (isPointInTriangle px py p1 p2 p3 = true ->
   0.001 <= Rabs (pixel_denom p1 p2 p3) /\ pixel_denom p1 p2 p3 <> 0) /\
  (isPointInTriangle px py p1 p2 p3 = false ->
   forall charIndex normals light r,
     shadeCell p1 p2 p3 charIndex normals light py px r = r).
Proof.
  split; [reflexivity |]. split.
  - intros H. apply contained_denominator in H.
    change (pixel_denom p1 p2 p3) with (containment_denom p1 p2 p3).
    split; [exact H |].
    intros E. rewrite E, Rabs_R0 in H. lra.
  - intros H charIndex normals light r. unfold shadeCell. now rewrite H.
Qed.

Definition corner1 : ScreenPoint := mkScreenPoint 0 0 0.
Definition corner2 : ScreenPoint := mkScreenPoint 1 0 0.
Definition corner3 : ScreenPoint := mkScreenPoint 0 1 0.

Lemma pixel_divisions_safe_witness :
  isPointInTriangle 0 0 corner1 corner2 corner3 = true /\
  0.001 <= Rabs (pixel_denom corner1 corner2 corner3) /\
  pixel_denom corner1 corner2 corner3 <> 0.
Proof.
  assert (H : isPointInTriangle 0 0 corner1 corner2 corner3 = true)
    by (rewrite isPointInTriangle_Z; reflexivity).
  exact (conj H (proj1 (proj2 (pixel_divisions_safe 0 0 corner1 corner2
                                 corner3)) H)).
Defined.

End BarycentricFacts.

(** * The frame buffer: entries, depth test and temporal smoothing *)

Module FrameBufferFacts.

Import Render GridFacts ShadeFacts FrameFacts.
Open Scope Z_scope.

(** ** The entries of the two index grids *)

Definition inv (r : TerminalRenderer) : Prop :=
  grid_all Z idx_ok (indexBuffer r) /\ grid_all Z idx_ok (prevIndexBuffer r).

Lemma empty_ok : idx_ok (-1).
Proof. now left. Qed.

Lemma new_inv w h f : inv (TerminalRenderer_new w h f).
Proof. split; apply grid_fill_all, empty_ok. Qed.

Lemma clear_inv r : inv r -> inv (clear r).
Proof.
  intros H. unfold clear, for_range.
  apply (for_count_invariant _ inv); [| exact H].
  intros row s Hs. apply (for_count_invariant _ inv); [| exact Hs].
  intros col s' [Hi Hp]. split; cbn; [| exact Hp].
  apply grid_set_all; [apply empty_ok | exact Hi].
Qed.

Lemma shadeCell_inv p1 p2 p3 charIndex normals light row col r :
  drawn charIndex -> inv r ->
  inv (shadeCell p1 p2 p3 charIndex normals light row col r).
Proof.
  intros Hc [Hi Hp]. unfold shadeCell.
  destruct (isPointInTriangle col row p1 p2 p3); [| now split].
  destruct (depth_passes _ _); [| now split].
  split; cbn; [| exact Hp].
  apply grid_set_all; [| exact Hi]. right.
  apply blendedIdx_drawn; [| now apply effectiveIndex_drawn].
  destruct (grid_get (prevIndexBuffer r) row col) as [p |] eqn:E;
    [| apply empty_ok].
  exact (grid_get_all Z idx_ok _ _ _ _ Hp E).
Qed.

Lemma rasterize_inv r p1 p2 p3 charIndex normals light :
  drawn charIndex -> inv r ->
  inv (rasterizeTriangle r p1 p2 p3 charIndex normals light).
Proof.
  intros Hc H. unfold rasterizeTriangle.
  destruct (_ || _ || _ || _ || _ || _); [exact H |]. cbn zeta.
  destruct (_ || _); [exact H |]. unfold for_range.
  apply (for_count_invariant _ inv); [| exact H].
  intros row s Hs. apply (for_count_invariant _ inv); [| exact Hs].
  intros col s' Hs'. now apply shadeCell_inv.
Qed.

Lemma drawTriangle_inv r t M L cam : inv r -> inv (drawTriangle r t M L cam).
Proof.
  intros H. unfold drawTriangle. cbn zeta.
  destruct (Rle_dec _ 0); [exact H |].
  apply rasterize_inv; [| exact H].
  rewrite flatIntensity_spec. apply index_of_brightness.
Qed.

Lemma carry_inv row col r : inv r -> inv (carry row col r).
Proof.
  intros [Hi Hp]. unfold carry, render_cell.
  destruct (grid_get (indexBuffer r) row col) as [idx |] eqn:E;
    [| now split].
  split; cbn; [exact Hi |].
  apply grid_set_all; [| exact Hp].
  exact (grid_get_all Z idx_ok _ _ _ _ Hi E).
Qed.

Lemma render_inv r : inv r -> inv (fst (render r)).
Proof.
  intros H. unfold render, for_range.
  rewrite (render_rows_fst (width r)) by reflexivity.
  apply (for_count_invariant _ inv); [| exact H].
  intros row s Hs. apply (for_count_invariant _ inv); [| exact Hs].
  intros col s' Hs'. now apply carry_inv.
Qed.

Lemma frame_inv r triangles M L cam :
  inv r -> inv (fst (frame r triangles M L cam)).
Proof.
  intros H. unfold frame. apply render_inv.
  apply clear_inv in H. revert H. generalize (clear r).
  induction triangles as [| t ts IH]; intros s Hs; cbn [fold_left];
    [exact Hs |].
  apply IH. now apply drawTriangle_inv.
Qed.

(** The three sparsest glyphs of the ramp. *)
Definition sparse (c : ascii) : Prop :=
  c = " "%char \/ c = "."%char \/ c = ":"%char.

Lemma drawn_glyph i :
  drawn i ->
  exists c, String.get (Z.to_nat i) asciiChars = Some c /\ ~ sparse c.
Proof.
  unfold drawn. intros Hi.
  assert (Hcases : i = 3 \/ i = 4 \/ i = 5 \/ i = 6 \/ i = 7 \/ i = 8 \/ i = 9)
    by lia.
  unfold sparse.
  repeat (destruct Hcases as [-> | Hcases]); try subst i;
    (eexists; split; [reflexivity |];
     intros [H | [H | H]]; discriminate H).
Qed.

(** ** The depth test *)

Lemma depth_passes_iff d stored :
  depth_passes d stored = true <->
  stored = Some PosInfinity \/
  exists s, stored = Some (Depth s) /\ (d < s - depthBias)%R.
Proof.
  unfold depth_passes, R_lt.
  destruct stored as [[| s] |].
  - split; auto.
  - destruct (Rlt_dec d (s - depthBias)) as [Hlt | Hge]; split.
    + intros _. right. eauto.
    + reflexivity.
    + discriminate.
    + intros [H | (s' & H & Hlt)]; [discriminate |].
      injection H as <-. contradiction.
  - split; [discriminate |].
    intros [H | (s' & H & _)]; discriminate.
Qed.

Lemma depth_fails_within_bias d s :
  (s - depthBias <= d)%R -> depth_passes d (Some (Depth s)) = false.
Proof.
  intros H. unfold depth_passes, R_lt.
  destruct (Rlt_dec d (s - depthBias)); [lra | reflexivity].
Qed.

Section DepthTest.

Variables (p1 p2 p3 : ScreenPoint) (charIndex : Z).
Variable normals : option (Vec.t * Vec.t * Vec.t).
Variable light : option Vec.t.
Variable r : TerminalRenderer.

Let r' := rasterizeTriangle r p1 p2 p3 charIndex normals light.
Let d := flatDepth p1 p2 p3.

(** A cell whose entries changed was covered and passed the test. *)
Lemma changed_cell_passed row col :
  look r' row col <> look r row col ->
  isPointInTriangle col row p1 p2 p3 = true /\
  depth_passes d (grid_get (depthBuffer r) row col) = true.
Proof.
  unfold r'. rewrite rasterize_look.
  destruct (rasterized p1 p2 p3 r && in_box p1 p2 p3 r row col);
    [| congruence].
  unfold shaded, look, d.
  destruct (isPointInTriangle col row p1 p2 p3); cbn [andb];
    [| congruence].
  destruct (depth_passes _ _); [auto | congruence].
Qed.

(** A cell that fails the test keeps its entries. *)
Lemma failed_cell_kept row col :
  depth_passes d (grid_get (depthBuffer r) row col) = false ->
  look r' row col = look r row col.
Proof.
  intros H. unfold r'. rewrite rasterize_look.
  destruct (rasterized p1 p2 p3 r && in_box p1 p2 p3 r row col);
    [| reflexivity].
  unfold shaded, look. fold d. rewrite H, andb_false_r. reflexivity.
Qed.

(** A covered cell of the box that passes the test is overwritten. *)
Lemma passed_cell_written row col i s p :
  rasterized p1 p2 p3 r = true ->
  in_box p1 p2 p3 r row col = true ->
  isPointInTriangle col row p1 p2 p3 = true ->
  look r row col = (Some i, Some s, Some p, usePerPixelLighting r) ->
  depth_passes d (Some s) = true ->
  look r' row col =
  (Some (blendedIdx p (effectiveIndex (usePerPixelLighting r) col row
                         p1 p2 p3 charIndex normals light)),
   Some (Depth d), Some p, usePerPixelLighting r).
Proof.
  intros Hr Hb Hin Hlook Hpass. unfold r'.
  rewrite rasterize_look, Hr, Hb. cbn [andb].
  rewrite Hlook. unfold shaded. fold d. rewrite Hin, Hpass. reflexivity.
Qed.

End DepthTest.

(** Two triangles over the same cells of a 2 x 2 grid, at depths 1 and
    0.998: closer to each other than the bias. *)
Definition far1 : ScreenPoint := mkScreenPoint 0 0 1.
Definition far2 : ScreenPoint := mkScreenPoint 1 0 1.
Definition far3 : ScreenPoint := mkScreenPoint 0 1 1.
Definition near1 : ScreenPoint := mkScreenPoint 0 0 0.998.
Definition near2 : ScreenPoint := mkScreenPoint 1 0 0.998.
Definition near3 : ScreenPoint := mkScreenPoint 0 1 0.998.

Definition grid2 : TerminalRenderer := TerminalRenderer_new 2 2 false.

Definition draw_far (r : TerminalRenderer) : TerminalRenderer :=
  rasterizeTriangle r far1 far2 far3 9 None None.

Definition draw_near (r : TerminalRenderer) : TerminalRenderer :=
  rasterizeTriangle r near1 near2 near3 3 None None.

Lemma rasterized_shape p1 p2 p3 r s :
  shape r = shape s -> rasterized p1 p2 p3 r = rasterized p1 p2 p3 s.
Proof.
  unfold shape, rasterized. intros H. injection H as Hw Hh Hf.
  now rewrite Hw, Hh.
Qed.

Lemma in_box_shape p1 p2 p3 r s row col :
  shape r = shape s -> in_box p1 p2 p3 r row col = in_box p1 p2 p3 s row col.
Proof.
  unfold shape, in_box. intros H. injection H as Hw Hh Hf.
  now rewrite Hw, Hh.
Qed.

Lemma flag_shape r s :
  shape r = shape s -> usePerPixelLighting r = usePerPixelLighting s.
Proof. unfold shape. intros H. now injection H. Qed.

Lemma far_depth : flatDepth far1 far2 far3 = 1%R.
Proof. unfold flatDepth. cbn. lra. Qed.

Lemma near_depth : flatDepth near1 near2 near3 = 0.998%R.
Proof. unfold flatDepth. cbn. lra. Qed.

Lemma far_then_near :
  look (draw_near (draw_far grid2)) 0 0 =
  (Some 9, Some (Depth 1%R), Some (-1), false).
Proof.
  assert (Hfar : look (draw_far grid2) 0 0 =
                 (Some 9, Some (Depth 1%R), Some (-1), false)).
  { unfold draw_far.
    rewrite (passed_cell_written far1 far2 far3 9 None None grid2 0 0
               (-1) PosInfinity (-1));
      try reflexivity.
    - now rewrite far_depth.
    - rewrite isPointInTriangle_Z. reflexivity. }
  unfold draw_near. rewrite failed_cell_kept; [exact Hfar |].
  replace (grid_get (depthBuffer (draw_far grid2)) 0 0)
    with (Some (Depth 1%R))
    by (symmetry; exact (look_depth _ _ _ _ _ _ _ Hfar)).
  apply depth_fails_within_bias. rewrite near_depth. unfold depthBias. lra.
Qed.

Lemma near_then_far :
  look (draw_far (draw_near grid2)) 0 0 =
  (Some 3, Some (Depth 0.998%R), Some (-1), false).
Proof.
  assert (Hnear : look (draw_near grid2) 0 0 =
                  (Some 3, Some (Depth 0.998%R), Some (-1), false)).
  { unfold draw_near.
    rewrite (passed_cell_written near1 near2 near3 3 None None grid2 0 0
               (-1) PosInfinity (-1));
      try reflexivity.
    - now rewrite near_depth.
    - rewrite isPointInTriangle_Z. reflexivity. }
  unfold draw_far. rewrite failed_cell_kept; [exact Hnear |].
  replace (grid_get (depthBuffer (draw_near grid2)) 0 0)
    with (Some (Depth 0.998%R))
    by (symmetry; exact (look_depth _ _ _ _ _ _ _ Hnear)).
  apply depth_fails_within_bias. rewrite far_depth. unfold depthBias. lra.
Qed.

(** The order of rasterization decides the cell also between depths that
    are not equal.  The two triangles lie at depths 1 and 0.998; drawn far
    then near the cell keeps index 9 at depth 1, drawn near then far it
    keeps index 3 at depth 0.998.  Both depth tests fail in binary64 as
    they do over the reals. *)
Lemma raster_order_example :
  Binary64.depth_passes
    (Binary64.flatDepth Binary64.z_near Binary64.z_near Binary64.z_near)
    (Binary64.flatDepth Binary64.z_far Binary64.z_far Binary64.z_far)
  = false /\
  Binary64.depth_passes
    (Binary64.flatDepth Binary64.z_far Binary64.z_far Binary64.z_far)
    (Binary64.flatDepth Binary64.z_near Binary64.z_near Binary64.z_near)
  = false /\
  flatDepth far1 far2 far3 <> flatDepth near1 near2 near3 /\
  grid_get (indexBuffer (draw_near (draw_far grid2))) 0 0 = Some 9 /\
  grid_get (indexBuffer (draw_far (draw_near grid2))) 0 0 = Some 3 /\
  grid_get (depthBuffer (draw_near (draw_far grid2))) 0 0 = Some (Depth 1%R) /\
  grid_get (depthBuffer (draw_far (draw_near grid2))) 0 0
    = Some (Depth 0.998%R).
Proof.
  pose proof far_then_near as H1. pose proof near_then_far as H2.
  split; [vm_compute; reflexivity |].
  split; [vm_compute; reflexivity |].
  split; [rewrite far_depth, near_depth; lra |].
  split; [exact (look_index _ _ _ _ _ _ _ H1) |].
  split; [exact (look_index _ _ _ _ _ _ _ H2) |].
  split; [exact (look_depth _ _ _ _ _ _ _ H1)
         | exact (look_depth _ _ _ _ _ _ _ H2)].
Qed.

(** C4, amended: [rasterizeTriangle] changes a cell's index or depth entry
    only if the cell is covered and the triangle's flat depth (the mean of
    the three view-axis depths) is less than the stored depth minus the
    bias 0.005, an entry still at infinity counting as farther than any
    depth; a covered cell of the clipped bounding box that passes this
    test is overwritten; and a candidate no nearer than the stored depth
    minus the bias, one at exactly the stored depth included, leaves the
    first writer's entries in place. *)
Theorem depth_test_overwrites p1 p2 p3 charIndex normals light r row col :
  let r' := rasterizeTriangle r p1 p2 p3 charIndex normals light in
  let d := flatDepth p1 p2 p3 in
  d = ((sz p1 + sz p2 + sz p3) / 3)%R /\
  depthBias = 0.005%R /\
  (grid_get (indexBuffer r') row col <> grid_get (indexBuffer r) row col \/
   grid_get (depthBuffer r') row col <> grid_get (depthBuffer r) row col ->
   isPointInTriangle col row p1 p2 p3 = true /\
   (grid_get (depthBuffer r) row col = Some PosInfinity \/
    exists s, grid_get (depthBuffer r) row col = Some (Depth s) /\
              (d < s - depthBias)%R)) /\
  (forall s,
     grid_get (depthBuffer r) row col = Some (Depth s) ->
     (s - depthBias <= d)%R ->
     grid_get (indexBuffer r') row col = grid_get (indexBuffer r) row col /\
     grid_get (depthBuffer r') row col = Some (Depth s)) /\
  (forall s,
     grid_get (depthBuffer r) row col = Some (Depth s) ->
     s = d ->
     grid_get (indexBuffer r') row col = grid_get (indexBuffer r) row col /\
     grid_get (depthBuffer r') row col = Some (Depth s)) /\
  (forall i s p,
     rasterized p1 p2 p3 r = true ->
     in_box p1 p2 p3 r row col = true ->
     isPointInTriangle col row p1 p2 p3 = true ->
     look r row col = (Some i, Some s, Some p, usePerPixelLighting r) ->
     depth_passes d (Some s) = true ->
     grid_get (indexBuffer r') row col =
       Some (blendedIdx p (effectiveIndex (usePerPixelLighting r) col row
                             p1 p2 p3 charIndex normals light)) /\
     grid_get (depthBuffer r') row col = Some (Depth d)) /\
  prevIndexBuffer r' = prevIndexBuffer r.
Proof.
  cbn zeta.
  assert (Hkeep : forall s,
            grid_get (depthBuffer r) row col = Some (Depth s) ->
            (s - depthBias <= flatDepth p1 p2 p3)%R ->
            grid_get (indexBuffer
                        (rasterizeTriangle r p1 p2 p3 charIndex normals light))
                     row col = grid_get (indexBuffer r) row col /\
            grid_get (depthBuffer
                        (rasterizeTriangle r p1 p2 p3 charIndex normals light))
                     row col = Some (Depth s)).
  { intros s Hs Hle.
    pose proof (failed_cell_kept p1 p2 p3 charIndex normals light r row col)
      as Hk.
    rewrite Hs in Hk. specialize (Hk (depth_fails_within_bias _ _ Hle)).
    split.
    - exact (look_index _ _ _ _ _ _ _ Hk).
    - rewrite (look_depth _ _ _ _ _ _ _ Hk). exact Hs. }
  split; [reflexivity |].
  split; [reflexivity |].
  split.
  { intros Hchg.
    assert (Hne : look (rasterizeTriangle r p1 p2 p3 charIndex normals light)
                       row col <> look r row col).
    { unfold look. intros E. injection E as Ei Ed Ep. tauto. }
    apply changed_cell_passed in Hne as [Hin Hpass].
    split; [exact Hin | now apply depth_passes_iff]. }
  split; [exact Hkeep |].
  split.
  { intros s Hs ->. apply Hkeep; [exact Hs |]. unfold depthBias. lra. }
  split.
  { intros i s p Hr Hb Hin Hlook Hpass.
    pose proof (passed_cell_written p1 p2 p3 charIndex normals light r row col
                  i s p Hr Hb Hin Hlook Hpass) as Hw.
    split; [exact (look_index _ _ _ _ _ _ _ Hw)
           | exact (look_depth _ _ _ _ _ _ _ Hw)]. }
  apply rasterize_prev.
Qed.

Lemma depth_test_overwrites_witness :
  grid_get (indexBuffer (draw_near (draw_far grid2))) 0 0
  = grid_get (indexBuffer (draw_far grid2)) 0 0 /\
  grid_get (depthBuffer (draw_near (draw_far grid2))) 0 0
  = Some (Depth 1%R).
Proof.
  destruct (depth_test_overwrites near1 near2 near3 3 None None
              (draw_far grid2) 0 0) as (_ & _ & _ & Hkeep & _).
  apply Hkeep.
  - pose proof far_then_near as H.
    assert (Hfar : look (draw_far grid2) 0 0 =
                   (Some 9, Some (Depth 1%R), Some (-1), false)).
    { unfold draw_far.
      rewrite (passed_cell_written far1 far2 far3 9 None None grid2 0 0
                 (-1) PosInfinity (-1));
        try reflexivity.
      - now rewrite far_depth.
      - rewrite isPointInTriangle_Z. reflexivity. }
    exact (look_depth _ _ _ _ _ _ _ Hfar).
  - rewrite near_depth. unfold depthBias. lra.
Defined.

(** ** Temporal smoothing across frames *)

(** One frame that rasterizes one projected triangle: [clear], then
    [rasterizeTriangle], then [render]. *)
Definition paint (r : TerminalRenderer) (p1 p2 p3 : ScreenPoint)
    (charIndex : Z) (normals : option (Vec.t * Vec.t * Vec.t))
    (light : option Vec.t) : TerminalRenderer :=
  fst (render (rasterizeTriangle (clear r) p1 p2 p3 charIndex normals light)).

Lemma on_grid_shape r s row col :
  shape r = shape s -> on_grid r row col = on_grid s row col.
Proof.
  unfold shape, on_grid. intros H. injection H as Hw Hh Hf.
  now rewrite Hw, Hh.
Qed.

Lemma in_box_on_grid p1 p2 p3 r row col :
  in_box p1 p2 p3 r row col = true -> on_grid r row col = true.
Proof.
  intros H. apply raster_box_in_grid in H. unfold on_grid.
  rewrite !andb_true_iff, !Z.leb_le. lia.
Qed.

(** The cell a frame leaves behind, where its triangle covers the cell:
    the emitted index is the blend of the previous frame's index with the
    index computed in this frame, and it is carried to the next frame. *)
Lemma paint_cell r p1 p2 p3 charIndex normals light row col i s p :
  rasterized p1 p2 p3 r = true ->
  in_box p1 p2 p3 r row col = true ->
  isPointInTriangle col row p1 p2 p3 = true ->
  look r row col = (Some i, Some s, Some p, usePerPixelLighting r) ->
  let emitted :=
    blendedIdx p (effectiveIndex (usePerPixelLighting r) col row p1 p2 p3
                    charIndex normals light) in
  look (paint r p1 p2 p3 charIndex normals light) row col =
  (Some emitted, Some (Depth (flatDepth p1 p2 p3)), Some emitted,
   usePerPixelLighting r).
Proof.
  intros Hr Hb Hin Hlook. cbn zeta. unfold paint.
  pose proof (clear_shape r) as Hcs.
  pose proof (rasterize_shape p1 p2 p3 charIndex normals light (clear r))
    as Hrs.
  pose proof (in_box_on_grid _ _ _ _ _ _ Hb) as Hg.
  rewrite render_look.
  rewrite (on_grid_shape _ r) by congruence. rewrite Hg.
  rewrite (passed_cell_written p1 p2 p3 charIndex normals light (clear r)
             row col (-1) PosInfinity p).
  - rewrite (flag_shape _ _ Hcs). reflexivity.
  - now rewrite (rasterized_shape _ _ _ _ _ Hcs).
  - now rewrite (in_box_shape _ _ _ _ _ row col Hcs).
  - exact Hin.
  - rewrite clear_look, Hg, Hlook, (flag_shape _ _ Hcs). reflexivity.
  - reflexivity.
Qed.

Lemma blendedIdx_steady v : blendedIdx v v = v.
Proof.
  destruct (Z.eq_dec v (-1)) as [-> | Hv]; [reflexivity |].
  rewrite blendedIdx_formula by assumption.
  symmetry. apply (Z.div_unique _ 10 v 5); lia.
Qed.

Lemma blendedIdx_adjacent p v :
  p <> -1 -> Z.abs (p - v) <= 1 -> blendedIdx p v = v.
Proof.
  intros Hp Hd. rewrite blendedIdx_formula by assumption.
  symmetry. apply (Z.div_unique _ 10 v (3 * (p - v) + 5)); lia.
Qed.

(** One frame brings the emitted index to within [round (0.3 * distance)]
    of the computed one. *)
Lemma blendedIdx_distance p v :
  p <> -1 ->
  blendedIdx p v - v = (3 * (p - v) + 5) / 10.
Proof.
  intros Hp. rewrite blendedIdx_formula by assumption.
  replace (3 * p + 7 * v + 5) with (3 * (p - v) + 5 + v * 10) by ring.
  rewrite Z.div_add by lia. ring.
Qed.

Lemma blendedIdx_three_frames p v :
  drawn p -> drawn v ->
  blendedIdx (blendedIdx (blendedIdx p v) v) v = v.
Proof.
  intros Hp Hv.
  assert (H1 : drawn (blendedIdx p v))
    by (apply blendedIdx_drawn; [now right | assumption]).
  assert (H2 : drawn (blendedIdx (blendedIdx p v) v))
    by (apply blendedIdx_drawn; [now right | assumption]).
  unfold drawn in *.
  pose proof (blendedIdx_distance p v ltac:(lia)) as D1.
  pose proof (blendedIdx_distance (blendedIdx p v) v ltac:(lia)) as D2.
  set (a := blendedIdx p v) in *. set (b := blendedIdx a v) in *.
  apply blendedIdx_adjacent; [lia |].
  assert (Ha : -2 <= a - v <= 2).
  { rewrite D1. split.
    - apply Z.div_le_lower_bound; lia.
    - assert ((3 * (p - v) + 5) / 10 < 3)
        by (apply Z.div_lt_upper_bound; lia).
      lia. }
  rewrite D2. apply Z.abs_le. split.
  - apply Z.div_le_lower_bound; lia.
  - assert ((3 * (a - v) + 5) / 10 < 2)
      by (apply Z.div_lt_upper_bound; lia).
    lia.
Qed.

Lemma paint_shape r p1 p2 p3 charIndex normals light :
  shape (paint r p1 p2 p3 charIndex normals light) = shape r.
Proof.
  unfold paint. now rewrite render_shape, rasterize_shape, clear_shape.
Qed.

(** Four frames on the 2 x 2 grid, flat lighting: the first computes index
    9 for the covered cells, the next three compute index 3. *)
Definition frame1 : TerminalRenderer := paint grid2 far1 far2 far3 9 None None.
Definition frame2 : TerminalRenderer := paint frame1 far1 far2 far3 3 None None.
Definition frame3 : TerminalRenderer := paint frame2 far1 far2 far3 3 None None.
Definition frame4 : TerminalRenderer := paint frame3 far1 far2 far3 3 None None.

Definition emitted (r : TerminalRenderer) : option Z :=
  grid_get (indexBuffer r) 0 0.

Lemma far_cell_painted r charIndex normals light i s p :
  shape r = shape grid2 ->
  look r 0 0 = (Some i, Some s, Some p, false) ->
  look (paint r far1 far2 far3 charIndex normals light) 0 0 =
  (Some (blendedIdx p charIndex), Some (Depth (flatDepth far1 far2 far3)),
   Some (blendedIdx p charIndex), false).
Proof.
  intros Hs Hlook.
  pose proof (flag_shape _ _ Hs) as Hf. cbn in Hf.
  rewrite (paint_cell r far1 far2 far3 charIndex normals light 0 0 i s p).
  - rewrite Hf. reflexivity.
  - now rewrite (rasterized_shape _ _ _ _ _ Hs).
  - now rewrite (in_box_shape _ _ _ _ _ 0 0 Hs).
  - rewrite isPointInTriangle_Z. reflexivity.
  - now rewrite Hf.
Qed.

Lemma four_frames :
  look frame1 0 0 = (Some 9, Some (Depth (flatDepth far1 far2 far3)),
                     Some 9, false) /\
  look frame2 0 0 = (Some 5, Some (Depth (flatDepth far1 far2 far3)),
                     Some 5, false) /\
  look frame3 0 0 = (Some 4, Some (Depth (flatDepth far1 far2 far3)),
                     Some 4, false) /\
  look frame4 0 0 = (Some 3, Some (Depth (flatDepth far1 far2 far3)),
                     Some 3, false).
Proof.
  assert (B1 : blendedIdx 9 3 = 5)
    by (rewrite blendedIdx_formula by lia; reflexivity).
  assert (B2 : blendedIdx 5 3 = 4)
    by (rewrite blendedIdx_formula by lia; reflexivity).
  assert (B3 : blendedIdx 4 3 = 3)
    by (rewrite blendedIdx_formula by lia; reflexivity).
  assert (S1 : shape frame1 = shape grid2) by apply paint_shape.
  assert (S2 : shape frame2 = shape grid2)
    by (unfold frame2; now rewrite paint_shape).
  assert (S3 : shape frame3 = shape grid2)
    by (unfold frame3; now rewrite paint_shape).
  assert (H1 : look frame1 0 0 =
               (Some 9, Some (Depth (flatDepth far1 far2 far3)), Some 9, false)).
  { unfold frame1.
    rewrite (far_cell_painted grid2 9 None None (-1) PosInfinity (-1));
      reflexivity. }
  assert (H2 : look frame2 0 0 =
               (Some 5, Some (Depth (flatDepth far1 far2 far3)), Some 5, false)).
  { unfold frame2. rewrite (far_cell_painted _ 3 None None _ _ _ S1 H1), B1.
    reflexivity. }
  assert (H3 : look frame3 0 0 =
               (Some 4, Some (Depth (flatDepth far1 far2 far3)), Some 4, false)).
  { unfold frame3. rewrite (far_cell_painted _ 3 None None _ _ _ S2 H2), B2.
    reflexivity. }
  assert (H4 : look frame4 0 0 =
               (Some 3, Some (Depth (flatDepth far1 far2 far3)), Some 3, false)).
  { unfold frame4. rewrite (far_cell_painted _ 3 None None _ _ _ S3 H3), B3.
    reflexivity. }
  auto.
Qed.

(** The index computed for the cell is 3 in the second, third and fourth
    frame, but the emitted index is 5 in the second and still 4 in the
    third; it is 3 only in the fourth.  The three blends give 5, 4 and 3
    in binary64 too. *)
Lemma blend_lag_example :
  emitted frame1 = Some 9 /\
  emitted frame2 = Some 5 /\
  emitted frame3 = Some 4 /\
  emitted frame4 = Some 3 /\
  Binary64.blendedIdx 9 3 = Some 5 /\
  Binary64.blendedIdx 5 3 = Some 4 /\
  Binary64.blendedIdx 4 3 = Some 3.
Proof.
  destruct four_frames as (H1 & H2 & H3 & H4). unfold emitted.
  apply look_index in H1, H2, H3, H4.
  repeat (split; [assumption |]).
  repeat split; vm_compute; reflexivity.
Qed.

(** C5, amended: where the previous frame had no value the computed index
    is emitted unmodified; otherwise the emitted index is
    round(0.3 * previous + 0.7 * computed).  A frame emits at a covered
    cell the blend of the previous frame's emitted index with the index it
    computes, and hands it to the next frame.  With the computed index
    constant at v, the emitted index is v at once when the previous one is
    within 1 of v, is v after at most three frames when both lie in the
    drawn range 3..9, and stays v once it is v.  On the entries an index
    grid can hold, binary64 arithmetic gives the same blend as the real
    numbers. *)
Theorem temporal_blend_settles :
  (forall v, blendedIdx (-1) v = v) /\
  (forall p v, p <> -1 ->
     blendedIdx p v = Math_round (IZR p * 0.3 + IZR v * 0.7)) /\
  (forall p v, idx_ok p -> drawn v ->
     Binary64.blendedIdx p v = Some (blendedIdx p v)) /\
  (forall r p1 p2 p3 charIndex normals light row col i s p,
     rasterized p1 p2 p3 r = true ->
     in_box p1 p2 p3 r row col = true ->
     isPointInTriangle col row p1 p2 p3 = true ->
     look r row col = (Some i, Some s, Some p, usePerPixelLighting r) ->
     let v := effectiveIndex (usePerPixelLighting r) col row p1 p2 p3
                charIndex normals light in
     let r' := paint r p1 p2 p3 charIndex normals light in
     grid_get (indexBuffer r') row col = Some (blendedIdx p v) /\
     grid_get (prevIndexBuffer r') row col = Some (blendedIdx p v)) /\
  (forall v, blendedIdx v v = v) /\
  (forall p v, p <> -1 -> Z.abs (p - v) <= 1 -> blendedIdx p v = v) /\
  (forall p v, drawn p -> drawn v ->
     blendedIdx (blendedIdx (blendedIdx p v) v) v = v).
Proof.
  split; [reflexivity |].
  split.
  { intros p v Hp. unfold blendedIdx.
    destruct (Z.eqb_spec p (-1)); [contradiction | reflexivity]. }
  split; [apply blendedIdx_binary64 |].
  split.
  { intros r p1 p2 p3 charIndex normals light row col i s p Hr Hb Hin Hlook.
    cbn zeta.
    pose proof (paint_cell r p1 p2 p3 charIndex normals light row col i s p
                  Hr Hb Hin Hlook) as H.
    cbn zeta in H.
    split; [exact (look_index _ _ _ _ _ _ _ H)
           | exact (look_prev _ _ _ _ _ _ _ H)]. }
  split; [apply blendedIdx_steady |].
  split; [apply blendedIdx_adjacent |].
  apply blendedIdx_three_frames.
Qed.

Lemma temporal_blend_settles_witness :
  blendedIdx (blendedIdx (blendedIdx 9 3) 3) 3 = 3 /\
  blendedIdx 4 3 = 3 /\
  grid_get (indexBuffer (paint grid2 far1 far2 far3 9 None None)) 0 0
  = Some (blendedIdx (-1) 9).
Proof.
  destruct temporal_blend_settles
    as (_ & _ & _ & Hpaint & _ & Hadj & Hthree).
  split; [apply Hthree; unfold drawn; lia |].
  split; [apply Hadj; lia |].
  apply (Hpaint grid2 far1 far2 far3 9 None None 0 0 (-1) PosInfinity (-1));
    try reflexivity.
  rewrite isPointInTriangle_Z. reflexivity.
Defined.

End FrameBufferFacts.


(** * Whole frames on a small terminal *)

Module EndToEnd.

Import Render ShadeFacts FrameFacts NormalFacts LightingFacts FrameBufferFacts.
Open Scope R_scope.

(** The tangent of half the field of view, tan(pi/8) = sqrt 2 - 1. *)
Lemma tan_half_fov : 0.41 < tan (45 * PI / 180 / 2) < 0.42.
Proof.
  replace (45 * PI / 180 / 2) with (PI / 8) by field.
  pose proof PI_RGT_0 as Hpi.
  assert (Hc : 0 < cos (PI / 8)) by (apply cos_gt_0; lra).
  assert (Hs : 0 < sin (PI / 8)) by (apply sin_gt_0; lra).
  pose proof (sin_2a (PI / 8)) as S2. pose proof (cos_2a (PI / 8)) as C2.
  replace (2 * (PI / 8)) with (PI / 4) in S2, C2 by field.
  assert (E : sin (PI / 4) = cos (PI / 4))
    by (rewrite sin_PI4, cos_PI4; reflexivity).
  rewrite S2, C2 in E.
  unfold tan. set (s := sin (PI / 8)) in *. set (c := cos (PI / 8)) in *.
  assert (Ht : (s / c) * (s / c) + 2 * (s / c) - 1 = 0).
  { field_simplify; [| lra].
    replace (s ^ 2 + 2 * s * c - c ^ 2)
      with (2 * s * c - (c * c - s * s)) by ring.
    rewrite E. unfold Rdiv. ring_simplify. lra. }
  assert (Hpos : 0 < s / c) by (apply Rdiv_lt_0_compat; assumption).
  set (t := s / c) in *. split; nra.
Qed.

(** The projection scale of a point about one unit behind the origin,
    seen from camera distance 3. *)
Lemma inv_scale_bounds zv :
  0.9 <= zv <= 1.1 ->
  0.58 < / (tan (45 * PI / 180 / 2) * (zv + 3)) < 0.63.
Proof.
  intros Hz. pose proof tan_half_fov as Ht.
  set (t := tan (45 * PI / 180 / 2)) in *.
  assert (Hs : 0 < t * (zv + 3)) by nra.
  pose proof (Rinv_0_lt_compat _ Hs) as Hu.
  pose proof (Rinv_r (t * (zv + 3)) ltac:(lra)) as Hone.
  set (u := / (t * (zv + 3))) in *.
  split; nra.
Qed.

(** Three vertices at depth [zv] that project onto the cells (0,0), (1,0)
    and (0,1) of a 2 x 2 terminal. *)
Definition vertex00 (zv : R) : Vec.t := mkVector3 (-2.5) 1 zv.
Definition vertex10 (zv : R) : Vec.t := mkVector3 0 1 zv.
Definition vertex01 (zv : R) : Vec.t := mkVector3 (-2.5) 0 zv.

Section Projection.

Variable r : TerminalRenderer.
Hypothesis r_width : width r = 2%Z.
Hypothesis r_height : height r = 2%Z.
Variable zv : R.
Hypothesis zv_near_one : 0.9 <= zv <= 1.1.

Lemma project_vertex00 :
  projectToScreen r (vertex00 zv) 3 = mkScreenPoint 0 0 zv.
Proof.
  pose proof (inv_scale_bounds zv zv_near_one) as Hu.
  unfold projectToScreen, vertex00. cbn [x y z]. rewrite r_width, r_height.
  destruct (Rle_dec (zv + 3) 0.1); [lra |]. cbn zeta.
  unfold Rdiv in *.
  set (u := / (tan (45 * PI * / 180 * / 2) * (zv + 3))) in *. clearbody u.
  f_equal; unfold Math_floor; apply Zfloor_eq; lra.
Qed.

Lemma project_vertex10 :
  projectToScreen r (vertex10 zv) 3 = mkScreenPoint 1 0 zv.
Proof.
  pose proof (inv_scale_bounds zv zv_near_one) as Hu.
  unfold projectToScreen, vertex10. cbn [x y z]. rewrite r_width, r_height.
  destruct (Rle_dec (zv + 3) 0.1); [lra |]. cbn zeta.
  unfold Rdiv in *.
  set (u := / (tan (45 * PI * / 180 * / 2) * (zv + 3))) in *. clearbody u.
  f_equal; unfold Math_floor; apply Zfloor_eq; lra.
Qed.

Lemma project_vertex01 :
  projectToScreen r (vertex01 zv) 3 = mkScreenPoint 0 1 zv.
Proof.
  pose proof (inv_scale_bounds zv zv_near_one) as Hu.
  unfold projectToScreen, vertex01. cbn [x y z]. rewrite r_width, r_height.
  destruct (Rle_dec (zv + 3) 0.1); [lra |]. cbn zeta.
  unfold Rdiv in *.
  set (u := / (tan (45 * PI * / 180 * / 2) * (zv + 3))) in *. clearbody u.
  f_equal; unfold Math_floor; apply Zfloor_eq; lra.
Qed.

End Projection.

(** A triangle over those three cells, with the face normal [n] stored in
    its file. *)
Definition plate (zv : R) (n : Vec.t) : Triangle R :=
  newTriangle (vertex00 zv) (vertex10 zv) (vertex01 zv) n.

Definition toward_camera : Vec.t := mkVector3 0 0 (-1).
Definition sideways : Vec.t := mkVector3 1 0 0.

Definition far_plate : Triangle R := plate 1 toward_camera.
Definition near_plate : Triangle R := plate 0.998 sideways.

(** A light that lights [far_plate] fully, and one behind it. *)
Definition light_front : Vec.t := mkVector3 0 0 (-1).
Definition light_back : Vec.t := mkVector3 0 0 1.

Lemma dot_normalize_pos n v :
  0 < Vec.dot n v -> 0 < Vec.dot n (Vec.normalize v).
Proof.
  intros Hd.
  assert (Hn : norm2 v <> 0).
  { intros E. apply norm2_zero in E. subst v.
    unfold Vec.dot, Vec.zero in Hd. cbn [x y z] in Hd. lra. }
  pose proof (norm2_nonneg v) as Hnn.
  assert (Hl : 0 < sqrt (norm2 v)) by (apply sqrt_lt_R0; lra).
  unfold Vec.normalize. fold (norm2 v). cbn zeta.
  destruct (Req_dec_T (sqrt (norm2 v)) 0) as [E | _]; [lra |].
  unfold Vec.dot in *. cbn [x y z].
  pose proof (Rinv_0_lt_compat _ Hl) as Hi.
  set (u := / sqrt (norm2 v)) in *. unfold Rdiv. fold u.
  replace (x n * (x v * u) + y n * (y v * u) + z n * (z v * u))
    with ((x n * x v + y n * y v + z n * z v) * u) by ring.
  now apply Rmult_lt_0_compat.
Qed.

Lemma plate_faces_camera zv n :
  0.9 <= zv <= 1.1 ->
  0 < x n * (5 / 3) + y n * (- 2 / 3) + z n * (- 3 - zv) ->
  ~ facing (plate zv n) identity 3 <= 0.
Proof.
  intros Hz Hd. unfold facing. rewrite !applyMatrix_identity.
  cbn [plate newTriangle v1 v2 v3 normal]. unfold viewVector. cbn zeta.
  apply Rlt_not_le, dot_normalize_pos.
  unfold Vec.dot, Vec.subtract, vertex00, vertex10, vertex01. cbn [x y z].
  lra.
Qed.

Lemma flatIndex_lit n L :
  Vec.dot n L = 1 -> Math_floor (flatIntensity n L * IZR maxIndex) = 9%Z.
Proof.
  intros Hd. rewrite maxIndex_9. unfold flatIntensity. cbn zeta. rewrite Hd.
  rewrite (Rmax_right 0 1) by lra.
  unfold Math_pow. destruct (Rle_dec 1 0); [lra |].
  unfold Rpower. rewrite ln_1, Rmult_0_r, exp_0.
  rewrite (Rmax_right 0.25) by lra. rewrite Rmin_left by lra.
  unfold Math_floor. apply Zfloor_eq. lra.
Qed.

Lemma flatIndex_unlit n L :
  Vec.dot n L <= 0 -> Math_floor (flatIntensity n L * IZR maxIndex) = 3%Z.
Proof.
  intros Hd. rewrite maxIndex_9. unfold flatIntensity. cbn zeta.
  rewrite (Rmax_left 0 (Vec.dot n L)) by lra.
  unfold Math_pow. destruct (Rle_dec 0 0); [| lra].
  rewrite (Rmax_right 0.25) by lra. rewrite Rmin_right by lra.
  unfold Math_floor. apply Zfloor_eq. lra.
Qed.

(** [drawTriangle] on a plate that faces the camera. *)
Lemma draw_plate r zv n L :
  shape r = shape grid2 ->
  0.9 <= zv <= 1.1 ->
  ~ facing (plate zv n) identity 3 <= 0 ->
  drawTriangle r (plate zv n) identity L 3 =
  rasterizeTriangle r (mkScreenPoint 0 0 zv) (mkScreenPoint 1 0 zv)
    (mkScreenPoint 0 1 zv)
    (Math_floor (flatIntensity n L * IZR maxIndex))
    (Some (n, n, n)) (Some L).
Proof.
  intros Hs Hz Hf.
  assert (Hw : width r = 2%Z) by (unfold shape in Hs; now inversion Hs).
  assert (Hh : height r = 2%Z) by (unfold shape in Hs; now inversion Hs).
  rewrite (drawTriangle_drawn r _ _ _ _ Hf).
  unfold flatIndex. cbn [plate newTriangle v1 v2 v3 normal vn1 vn2 vn3 or_else].
  rewrite !applyMatrix_identity.
  rewrite (project_vertex00 r Hw Hh zv Hz), (project_vertex10 r Hw Hh zv Hz),
    (project_vertex01 r Hw Hh zv Hz).
  reflexivity.
Qed.

Lemma plate_depth zv :
  flatDepth (mkScreenPoint 0 0 zv) (mkScreenPoint 1 0 zv)
            (mkScreenPoint 0 1 zv) = zv.
Proof. unfold flatDepth. cbn [sz]. field. Qed.

Lemma plate_covers_origin zv :
  isPointInTriangle 0 0 (mkScreenPoint 0 0 zv) (mkScreenPoint 1 0 zv)
                    (mkScreenPoint 0 1 zv) = true.
Proof. rewrite isPointInTriangle_Z. reflexivity. Qed.

Lemma drawTriangle_shape r t M L cam : shape (drawTriangle r t M L cam) = shape r.
Proof.
  unfold drawTriangle. cbn zeta.
  destruct (Rle_dec _ 0); [reflexivity | apply rasterize_shape].
Qed.

(** A frame that draws two plates: the second one, no nearer than the
    first by more than the bias, leaves the first in the cell. *)
Lemma two_plates_frame z1 n1 z2 n2 L i1 :
  0.9 <= z1 <= 1.1 -> 0.9 <= z2 <= 1.1 ->
  ~ facing (plate z1 n1) identity 3 <= 0 ->
  ~ facing (plate z2 n2) identity 3 <= 0 ->
  Math_floor (flatIntensity n1 L * IZR maxIndex) = i1 ->
  z1 - depthBias <= z2 ->
  look (fst (frame grid2 [plate z1 n1; plate z2 n2] identity L 3)) 0%Z 0%Z =
  (Some i1, Some (Depth z1), Some i1, false).
Proof.
  intros Hz1 Hz2 Hf1 Hf2 Hi1 Hnear.
  unfold frame. cbn [fold_left].
  pose proof (clear_shape grid2) as S0.
  set (r0 := clear grid2) in *.
  assert (L0 : look r0 0%Z 0%Z = (Some (-1)%Z, Some PosInfinity, Some (-1)%Z, false))
    by (unfold r0; rewrite clear_look; reflexivity).
  rewrite (draw_plate r0 z1 n1 L S0 Hz1 Hf1), Hi1.
  set (r1 := rasterizeTriangle r0 _ _ _ i1 _ _).
  assert (S1 : shape r1 = shape grid2)
    by (unfold r1; now rewrite rasterize_shape).
  assert (L1 : look r1 0%Z 0%Z = (Some i1, Some (Depth z1), Some (-1)%Z, false)).
  { unfold r1.
    rewrite (passed_cell_written _ _ _ i1 _ _ r0 0%Z 0%Z (-1)%Z PosInfinity
               (-1)%Z).
    - rewrite plate_depth, (flag_shape _ _ S0). reflexivity.
    - now rewrite (rasterized_shape _ _ _ _ _ S0).
    - now rewrite (in_box_shape _ _ _ _ _ 0%Z 0%Z S0).
    - apply plate_covers_origin.
    - now rewrite L0, (flag_shape _ _ S0).
    - reflexivity. }
  rewrite (draw_plate r1 z2 n2 L S1 Hz2 Hf2).
  set (r2 := rasterizeTriangle r1 _ _ _ _ _ _).
  assert (S2 : shape r2 = shape grid2)
    by (unfold r2; now rewrite rasterize_shape).
  assert (L2 : look r2 0%Z 0%Z = (Some i1, Some (Depth z1), Some (-1)%Z, false)).
  { unfold r2. rewrite failed_cell_kept; [exact L1 |].
    rewrite (look_depth _ _ _ _ _ _ _ L1), plate_depth.
    now apply depth_fails_within_bias. }
  rewrite render_look, (on_grid_shape _ grid2) by assumption.
  rewrite L2. reflexivity.
Qed.

Lemma far_plate_faces : ~ facing far_plate identity 3 <= 0.
Proof.
  apply plate_faces_camera; [lra |].
  unfold toward_camera. cbn [x y z]. lra.
Qed.

Lemma near_plate_faces : ~ facing near_plate identity 3 <= 0.
Proof.
  apply plate_faces_camera; [lra |].
  unfold sideways. cbn [x y z]. lra.
Qed.

Lemma far_plate_lit :
  Math_floor (flatIntensity toward_camera light_front * IZR maxIndex) = 9%Z.
Proof.
  apply flatIndex_lit. unfold Vec.dot, toward_camera, light_front.
  cbn [x y z]. lra.
Qed.

Lemma far_plate_unlit :
  Math_floor (flatIntensity toward_camera light_back * IZR maxIndex) = 3%Z.
Proof.
  apply flatIndex_unlit. unfold Vec.dot, toward_camera, light_back.
  cbn [x y z]. lra.
Qed.

Lemma near_plate_unlit :
  Math_floor (flatIntensity sideways light_front * IZR maxIndex) = 3%Z.
Proof.
  apply flatIndex_unlit. unfold Vec.dot, sideways, light_front.
  cbn [x y z]. lra.
Qed.

(** The cell (0,0) after one frame of the two plates, in either order. *)
Definition shown (triangles : list (Triangle R)) : option Z * option depth :=
  let r := fst (frame grid2 triangles identity light_front 3) in
  (grid_get (indexBuffer r) 0 0, grid_get (depthBuffer r) 0 0).

(** C4, as the specification states it, fails in its last part: mesh order
    decides a cell between two depths that are not equal.  A plate at
    depth 1 that the light shows at index 9 and a plate at depth 0.998
    shown at index 3 cover the same cell of a 2 x 2 terminal: the frame of
    the mesh [far; near] leaves index 9 at depth 1 in the cell, the frame
    of the mesh [near; far] leaves index 3 at depth 0.998.  The same holds
    for the rasterizer called on the projected points, and both depth
    tests fail in binary64 as they do over the reals. *)
Lemma mesh_order_counterexample :
  shown [far_plate; near_plate] = (Some 9%Z, Some (Depth 1)) /\
  shown [near_plate; far_plate] = (Some 3%Z, Some (Depth 0.998)) /\
  grid_get (indexBuffer (draw_near (draw_far grid2))) 0 0 = Some 9%Z /\
  grid_get (indexBuffer (draw_far (draw_near grid2))) 0 0 = Some 3%Z /\
  Binary64.depth_passes
    (Binary64.flatDepth Binary64.z_near Binary64.z_near Binary64.z_near)
    (Binary64.flatDepth Binary64.z_far Binary64.z_far Binary64.z_far)
  = false /\
  Binary64.depth_passes
    (Binary64.flatDepth Binary64.z_far Binary64.z_far Binary64.z_far)
    (Binary64.flatDepth Binary64.z_near Binary64.z_near Binary64.z_near)
  = false.
Proof.
  assert (H1 : look (fst (frame grid2 [far_plate; near_plate] identity
                            light_front 3)) 0%Z 0%Z =
               (Some 9%Z, Some (Depth 1), Some 9%Z, false)).
  { apply two_plates_frame;
      [lra | lra | apply far_plate_faces | apply near_plate_faces
       | apply far_plate_lit | unfold depthBias; lra]. }
  assert (H2 : look (fst (frame grid2 [near_plate; far_plate] identity
                            light_front 3)) 0%Z 0%Z =
               (Some 3%Z, Some (Depth 0.998), Some 3%Z, false)).
  { apply two_plates_frame;
      [lra | lra | apply near_plate_faces | apply far_plate_faces
       | apply near_plate_unlit | unfold depthBias; lra]. }
  destruct raster_order_example as (B1 & B2 & _ & R1 & R2 & _).
  unfold shown.
  rewrite (look_index _ _ _ _ _ _ _ H1), (look_depth _ _ _ _ _ _ _ H1),
    (look_index _ _ _ _ _ _ _ H2), (look_depth _ _ _ _ _ _ _ H2).
  repeat split; assumption.
Qed.

(** A frame that draws [far_plate] alone is a frame that rasterizes its
    projection with the index its light gives. *)
Lemma plate_frame r L :
  shape r = shape grid2 ->
  fst (frame r [far_plate] identity L 3) =
  paint r far1 far2 far3
    (Math_floor (flatIntensity toward_camera L * IZR maxIndex))
    (Some (toward_camera, toward_camera, toward_camera)) (Some L).
Proof.
  intros Hs. unfold frame, paint. cbn [fold_left].
  assert (Hc : shape (clear r) = shape grid2)
    by (rewrite clear_shape; exact Hs).
  unfold far_plate.
  rewrite (draw_plate (clear r) 1 toward_camera L Hc ltac:(lra)
             far_plate_faces).
  reflexivity.
Qed.

(** Four frames of [far_plate]: the light in front of it in the first, the
    light behind it from the second on. *)
Definition lit1 : TerminalRenderer :=
  fst (frame grid2 [far_plate] identity light_front 3).
Definition lit2 : TerminalRenderer :=
  fst (frame lit1 [far_plate] identity light_back 3).
Definition lit3 : TerminalRenderer :=
  fst (frame lit2 [far_plate] identity light_back 3).
Definition lit4 : TerminalRenderer :=
  fst (frame lit3 [far_plate] identity light_back 3).

Lemma lit_frame r L idx i s p :
  shape r = shape grid2 ->
  Math_floor (flatIntensity toward_camera L * IZR maxIndex) = idx ->
  look r 0%Z 0%Z = (Some i, Some s, Some p, false) ->
  shape (fst (frame r [far_plate] identity L 3)) = shape grid2 /\
  look (fst (frame r [far_plate] identity L 3)) 0%Z 0%Z =
  (Some (blendedIdx p idx), Some (Depth (flatDepth far1 far2 far3)),
   Some (blendedIdx p idx), false).
Proof.
  intros Hs Hidx Hlook. rewrite (plate_frame r L Hs), Hidx. split.
  - now rewrite paint_shape.
  - now apply (far_cell_painted r idx _ _ i s p).
Qed.

Lemma four_lit_frames :
  emitted lit1 = Some 9%Z /\ emitted lit2 = Some 5%Z /\
  emitted lit3 = Some 4%Z /\ emitted lit4 = Some 3%Z.
Proof.
  assert (B1 : blendedIdx 9 3 = 5%Z)
    by (rewrite blendedIdx_formula by lia; reflexivity).
  assert (B2 : blendedIdx 5 3 = 4%Z)
    by (rewrite blendedIdx_formula by lia; reflexivity).
  assert (B3 : blendedIdx 4 3 = 3%Z)
    by (rewrite blendedIdx_formula by lia; reflexivity).
  destruct (lit_frame grid2 light_front 9 (-1) PosInfinity (-1) eq_refl
              far_plate_lit eq_refl) as [S1 L1].
  fold lit1 in S1, L1. change (blendedIdx (-1) 9) with 9%Z in L1.
  destruct (lit_frame lit1 light_back 3 _ _ _ S1 far_plate_unlit L1)
    as [S2 L2].
  fold lit2 in S2, L2. rewrite B1 in L2.
  destruct (lit_frame lit2 light_back 3 _ _ _ S2 far_plate_unlit L2)
    as [S3 L3].
  fold lit3 in S3, L3. rewrite B2 in L3.
  destruct (lit_frame lit3 light_back 3 _ _ _ S3 far_plate_unlit L3)
    as [S4 L4].
  fold lit4 in S4, L4. rewrite B3 in L4.
  unfold emitted.
  rewrite (look_index _ _ _ _ _ _ _ L1), (look_index _ _ _ _ _ _ _ L2),
    (look_index _ _ _ _ _ _ _ L3), (look_index _ _ _ _ _ _ _ L4).
  auto.
Qed.

(** C5, as the specification states it, fails.  A plate is lit from the
    front in the first frame and from behind in the next three, so the
    index computed for its cell is 9, then 3, 3 and 3; the emitted index
    is 9, then 5, then 4, and reaches 3 only in the fourth frame, two
    frames later than a one-frame lag.  The same holds for the rasterizer
    called on the projected points, and the three blends give 5, 4 and 3
    in binary64 too. *)
Lemma one_frame_lag_counterexample :
  Math_floor (flatIntensity toward_camera light_front * IZR maxIndex) = 9%Z /\
  Math_floor (flatIntensity toward_camera light_back * IZR maxIndex) = 3%Z /\
  emitted lit1 = Some 9%Z /\
  emitted lit2 = Some 5%Z /\
  emitted lit3 = Some 4%Z /\
  emitted lit4 = Some 3%Z /\
  emitted frame2 = Some 5%Z /\
  emitted frame3 = Some 4%Z /\
  Binary64.blendedIdx 9 3 = Some 5%Z /\
  Binary64.blendedIdx 5 3 = Some 4%Z /\
  Binary64.blendedIdx 4 3 = Some 3%Z.
Proof.
  destruct four_lit_frames as (L1 & L2 & L3 & L4).
  destruct blend_lag_example as (_ & F2 & F3 & _ & B1 & B2 & B3).
  split; [apply far_plate_lit |].
  split; [apply far_plate_unlit |].
  repeat split; assumption.
Qed.

End EndToEnd.

(** * The index written to a covered cell *)

Module CellIndexFacts.

Import Render GridFacts ShadeFacts FrameFacts NormalFacts LightingFacts
  BarycentricFacts FrameBufferFacts EndToEnd.
Open Scope R_scope.

(** Weights that express the cell [(px, py)] as a combination of the
    three projected points, none of them negative. *)
Definition barycentric (px py : Z) (p1 p2 p3 : ScreenPoint) (a b c : R)
  : Prop :=
  a + b + c = 1 /\
  a * IZR (sx p1) + b * IZR (sx p2) + c * IZR (sx p3) = IZR px /\
  a * IZR (sy p1) + b * IZR (sy p2) + c * IZR (sy p3) = IZR py /\
  0 <= a /\ 0 <= b /\ 0 <= c.

(** The three vertex normals weighted by [a], [b] and [c]. *)
Definition blend (a b c : R) (n1 n2 n3 : Vec.t) : Vec.t :=
  Vec.add (Vec.add (Vec.multiply n1 a) (Vec.multiply n2 b))
          (Vec.multiply n3 c).

(** The weights of the per-pixel branch, written out. *)
Definition weight_a (px py : Z) (p1 p2 p3 : ScreenPoint) : R :=
  ((IZR (sy p2) - IZR (sy p3)) * (IZR px - IZR (sx p3))
   + (IZR (sx p3) - IZR (sx p2)) * (IZR py - IZR (sy p3)))
  / pixel_denom p1 p2 p3.

Definition weight_b (px py : Z) (p1 p2 p3 : ScreenPoint) : R :=
  ((IZR (sy p3) - IZR (sy p1)) * (IZR px - IZR (sx p3))
   + (IZR (sx p1) - IZR (sx p3)) * (IZR py - IZR (sy p3)))
  / pixel_denom p1 p2 p3.

Lemma pixelNormal_blend px py p1 p2 p3 n1 n2 n3 :
  pixelNormal px py p1 p2 p3 (n1, n2, n3)
  = Vec.normalize
      (blend (weight_a px py p1 p2 p3) (weight_b px py p1 p2 p3)
             (1 - weight_a px py p1 p2 p3 - weight_b px py p1 p2 p3)
             n1 n2 n3).
Proof. reflexivity. Qed.

Lemma contained_weights px py p1 p2 p3 :
  isPointInTriangle px py p1 p2 p3 = true ->
  pixel_denom p1 p2 p3 <> 0 /\
  barycentric px py p1 p2 p3
    (weight_a px py p1 p2 p3) (weight_b px py p1 p2 p3)
    (1 - weight_a px py p1 p2 p3 - weight_b px py p1 p2 p3).
Proof.
  intros Hin.
  assert (Hd : pixel_denom p1 p2 p3 <> 0).
  { pose proof (contained_denominator _ _ _ _ _ Hin) as H.
    change (containment_denom p1 p2 p3) with (pixel_denom p1 p2 p3) in H.
    intros E. rewrite E, Rabs_R0 in H. lra. }
  split; [exact Hd |].
  unfold isPointInTriangle in Hin. cbn zeta in Hin.
  destruct (Rlt_dec _ 0.001); [discriminate |].
  change (containment_denom p1 p2 p3) with (pixel_denom p1 p2 p3) in Hin.
  fold (weight_a px py p1 p2 p3) (weight_b px py p1 p2 p3) in Hin.
  apply andb_true_iff in Hin as [Hin Hc].
  apply andb_true_iff in Hin as [Ha Hb].
  unfold R_ge in Ha, Hb, Hc.
  destruct (Rge_dec (weight_a px py p1 p2 p3) 0) as [Ha' |]; [| discriminate].
  destruct (Rge_dec (weight_b px py p1 p2 p3) 0) as [Hb' |]; [| discriminate].
  destruct (Rge_dec _ 0) as [Hc' |]; [| discriminate].
  unfold barycentric.
  split; [ring |].
  split; [unfold weight_a, weight_b, pixel_denom in *; field; exact Hd |].
  split; [unfold weight_a, weight_b, pixel_denom in *; field; exact Hd |].
  repeat split; lra.
Qed.

Lemma barycentric_unique px py p1 p2 p3 a b c :
  pixel_denom p1 p2 p3 <> 0 ->
  barycentric px py p1 p2 p3 a b c ->
  a = weight_a px py p1 p2 p3 /\ b = weight_b px py p1 p2 p3 /\
  c = 1 - weight_a px py p1 p2 p3 - weight_b px py p1 p2 p3.
Proof.
  intros Hd (Hs & Hx & Hy & _).
  assert (Hc : c = 1 - a - b) by lra. subst c.
  assert (Ha : a = weight_a px py p1 p2 p3).
  { unfold weight_a. rewrite <- Hx, <- Hy. unfold pixel_denom in *.
    field. exact Hd. }
  assert (Hb : b = weight_b px py p1 p2 p3).
  { unfold weight_b. rewrite <- Hx, <- Hy. unfold pixel_denom in *.
    field. exact Hd. }
  split; [exact Ha |]. split; [exact Hb |]. now rewrite <- Ha, <- Hb.
Qed.

(** Weights that sum to 1 blend three equal normals into that normal. *)
Lemma blend_equal a b c m : a + b + c = 1 -> blend a b c m m m = m.
Proof.
  intros H. destruct m as [mx my mz]. unfold blend, Vec.add, Vec.multiply.
  cbn [x y z]. f_equal.
  - replace (mx * a + mx * b + mx * c) with (mx * (a + b + c)) by ring.
    rewrite H. ring.
  - replace (my * a + my * b + my * c) with (my * (a + b + c)) by ring.
    rewrite H. ring.
  - replace (mz * a + mz * b + mz * c) with (mz * (a + b + c)) by ring.
    rewrite H. ring.
Qed.

Lemma normalize_unit_vector m : Vec.length m = 1 -> Vec.normalize m = m.
Proof.
  intros Hu. destruct m as [a b c].
  unfold Vec.length, Vec.normalize in *. cbn [x y z] in *. rewrite Hu.
  destruct (Req_dec_T 1 0); [lra |]. f_equal; field.
Qed.

Lemma index_is_truncation v L :
  Math_floor (spec_brightness v L * IZR maxIndex)
  = Ztrunc (spec_brightness v L * 9).
Proof.
  rewrite maxIndex_9. apply floor_is_truncation.
  pose proof (spec_brightness_bounds v L). lra.
Qed.

(** The normal that lights a covered cell. *)
Definition lighting_normal (r : TerminalRenderer) (row col : Z)
    (p1 p2 p3 : ScreenPoint) (m1 m2 m3 n : Vec.t) : Vec.t :=
  if usePerPixelLighting r then pixelNormal col row p1 p2 p3 (m1, m2, m3)
  else n.

(** What [drawTriangle] leaves in a cell of the clipped bounding box
    that its triangle covers and wins. *)
Lemma drawn_cell_look r t M L cam row col i s p :
  ~ facing t M cam <= 0 ->
  rasterized (projectToScreen r (applyMatrix (v1 t) M) cam)
             (projectToScreen r (applyMatrix (v2 t) M) cam)
             (projectToScreen r (applyMatrix (v3 t) M) cam) r = true ->
  in_box (projectToScreen r (applyMatrix (v1 t) M) cam)
         (projectToScreen r (applyMatrix (v2 t) M) cam)
         (projectToScreen r (applyMatrix (v3 t) M) cam) r row col = true ->
  isPointInTriangle col row
    (projectToScreen r (applyMatrix (v1 t) M) cam)
    (projectToScreen r (applyMatrix (v2 t) M) cam)
    (projectToScreen r (applyMatrix (v3 t) M) cam) = true ->
  look r row col = (Some i, Some s, Some p, usePerPixelLighting r) ->
  depth_passes
    (flatDepth (projectToScreen r (applyMatrix (v1 t) M) cam)
               (projectToScreen r (applyMatrix (v2 t) M) cam)
               (projectToScreen r (applyMatrix (v3 t) M) cam)) (Some s)
  = true ->
  grid_get (indexBuffer (drawTriangle r t M L cam)) row col =
  Some (blendedIdx p
          (Ztrunc (spec_brightness
                     (lighting_normal r row col
                        (projectToScreen r (applyMatrix (v1 t) M) cam)
                        (projectToScreen r (applyMatrix (v2 t) M) cam)
                        (projectToScreen r (applyMatrix (v3 t) M) cam)
                        (applyMatrix (or_else (vn1 t) (normal t)) M)
                        (applyMatrix (or_else (vn2 t) (normal t)) M)
                        (applyMatrix (or_else (vn3 t) (normal t)) M)
                        (applyMatrix (normal t) M)) L * 9))).
Proof.
  intros Hf Hr Hb Hin Hlook Hpass.
  rewrite (drawTriangle_drawn r t M L cam Hf).
  apply (look_index _ _ _ _
           (Some (Depth (flatDepth
                           (projectToScreen r (applyMatrix (v1 t) M) cam)
                           (projectToScreen r (applyMatrix (v2 t) M) cam)
                           (projectToScreen r (applyMatrix (v3 t) M) cam))))
           (Some p) (usePerPixelLighting r)).
  rewrite (passed_cell_written _ _ _ _ _ _ r row col i s p Hr Hb Hin Hlook
             Hpass).
  unfold effectiveIndex, lighting_normal, flatIndex.
  destruct (usePerPixelLighting r).
  - now rewrite pixelIntensity_spec, index_is_truncation.
  - now rewrite flatIntensity_spec, index_is_truncation.
Qed.

(** C3, amended: the flat brightness of a triangle with transformed face
    normal n under light L is clamp(0.25, 0.35 + 0.7 * max(0, n.L)^1.2,
    1.0), and the ramp's maximum index is 9.  [drawTriangle] on a triangle
    that faces the camera writes, into the index grid at a cell of the
    clipped bounding box that the triangle covers and wins on depth, the
    blend of the cell's previous-frame index with the truncation of 9
    times a brightness, and that truncation itself when the cell has no
    previous index.  With per-pixel lighting off the brightness is the
    flat one, of the face normal n.  With per-pixel lighting on it is the
    brightness of the normalized blend of the three transformed vertex
    normals (the face normal where a vertex normal is unset), weighted by
    the barycentric weights of the cell, which exist and are unique; it
    is the flat one when the three vertex normals are the face normal
    and that has length 1. *)
Theorem covered_cell_index (r : TerminalRenderer) (t : Triangle R)
    (M : Matrix) (L : Vec.t) (cam : R) (row col i : Z) (s : depth) (p : Z) :
  let n := applyMatrix (normal t) M in
  let p1 := projectToScreen r (applyMatrix (v1 t) M) cam in
  let p2 := projectToScreen r (applyMatrix (v2 t) M) cam in
  let p3 := projectToScreen r (applyMatrix (v3 t) M) cam in
  let m1 := applyMatrix (or_else (vn1 t) (normal t)) M in
  let m2 := applyMatrix (or_else (vn2 t) (normal t)) M in
  let m3 := applyMatrix (or_else (vn3 t) (normal t)) M in
  let written := grid_get (indexBuffer (drawTriangle r t M L cam)) row col in
  ~ facing t M cam <= 0 ->
  rasterized p1 p2 p3 r = true ->
  in_box p1 p2 p3 r row col = true ->
  isPointInTriangle col row p1 p2 p3 = true ->
  look r row col = (Some i, Some s, Some p, usePerPixelLighting r) ->
  depth_passes (flatDepth p1 p2 p3) (Some s) = true ->
  flatIntensity n L = spec_brightness n L /\
  maxIndex = 9%Z /\
  flatIndex t M L = Ztrunc (spec_brightness n L * 9) /\
  (usePerPixelLighting r = false ->
   written = Some (blendedIdx p (Ztrunc (spec_brightness n L * 9)))) /\
  (usePerPixelLighting r = true ->
   (exists a b c, barycentric col row p1 p2 p3 a b c) /\
   forall a b c,
     barycentric col row p1 p2 p3 a b c ->
     written =
     Some (blendedIdx p
             (Ztrunc (spec_brightness
                        (Vec.normalize (blend a b c m1 m2 m3)) L * 9)))) /\
  (usePerPixelLighting r = true ->
   m1 = n -> m2 = n -> m3 = n -> Vec.length n = 1 ->
   written = Some (blendedIdx p (Ztrunc (spec_brightness n L * 9)))) /\
  (forall e, blendedIdx (-1) e = e).
Proof.
  cbn zeta. intros Hf Hr Hb Hin Hlook Hpass.
  pose proof (drawn_cell_look r t M L cam row col i s p Hf Hr Hb Hin Hlook
                Hpass) as Hw.
  destruct (contained_weights _ _ _ _ _ Hin) as [Hd Hbar].
  split; [apply flatIntensity_spec |].
  split; [reflexivity |].
  split; [unfold flatIndex; now rewrite flatIntensity_spec,
                                  index_is_truncation |].
  split.
  { intros Hflag. rewrite Hw. unfold lighting_normal. now rewrite Hflag. }
  split.
  { intros Hflag. split; [eauto |].
    intros a b c Habc.
    destruct (barycentric_unique _ _ _ _ _ a b c Hd Habc) as (-> & -> & ->).
    rewrite Hw. unfold lighting_normal. rewrite Hflag.
    now rewrite pixelNormal_blend. }
  split; [| reflexivity].
  intros Hflag E1 E2 E3 Hunit. rewrite Hw. unfold lighting_normal.
  rewrite Hflag, E1, E2, E3, pixelNormal_blend.
  rewrite blend_equal by ring. now rewrite normalize_unit_vector.
Qed.

(** A plate that faces the camera, whose three vertex normals point
    sideways, as the averaged normals at the rim of a curved surface
    do. *)
Definition smooth_plate : Triangle R :=
  mkTriangle (vertex00 1) (vertex10 1) (vertex01 1) toward_camera
             (Some sideways) (Some sideways) (Some sideways).

(** A terminal of 2 x 2 cells with per-pixel lighting, as [main] creates
    its renderer. *)
Definition pixel_screen : TerminalRenderer := TerminalRenderer_new 2 2 true.

Lemma smooth_plate_faces : ~ facing smooth_plate identity 3 <= 0.
Proof. exact far_plate_faces. Qed.

Lemma sideways_unit : Vec.length sideways = 1.
Proof.
  unfold Vec.length, sideways. cbn [x y z].
  replace (1 * 1 + 0 * 0 + 0 * 0) with 1 by ring. apply sqrt_1.
Qed.

Lemma light_front_unit : Vec.length light_front = 1.
Proof.
  unfold Vec.length, light_front. cbn [x y z].
  replace (0 * 0 + 0 * 0 + -1 * -1) with 1 by ring. apply sqrt_1.
Qed.

Lemma sideways_index :
  Ztrunc (spec_brightness sideways light_front * 9) = 3%Z.
Proof.
  rewrite <- index_is_truncation, <- flatIntensity_spec.
  apply near_plate_unlit.
Qed.

Lemma toward_camera_index :
  Ztrunc (spec_brightness toward_camera light_front * 9) = 9%Z.
Proof.
  rewrite <- index_is_truncation, <- flatIntensity_spec.
  apply far_plate_lit.
Qed.

(** The cell (0, 0) of a cleared 2 x 2 renderer, and the projection of
    the plate over it. *)
Section Cleared.

Variable r0 : TerminalRenderer.
Hypothesis r0_size : width r0 = 2%Z /\ height r0 = 2%Z.
Hypothesis r0_new :
  look r0 0%Z 0%Z = (Some (-1)%Z, Some PosInfinity, Some (-1)%Z,
                     usePerPixelLighting r0).

Let r := clear r0.

Lemma cleared_size : width r = 2%Z /\ height r = 2%Z.
Proof.
  pose proof (clear_shape r0) as H. unfold shape in H. fold r in H.
  destruct r0_size as [Hw Hh]. split; congruence.
Qed.

Lemma cleared_flag : usePerPixelLighting r = usePerPixelLighting r0.
Proof. exact (flag_shape _ _ (clear_shape r0)). Qed.

Lemma cleared_points :
  projectToScreen r (applyMatrix (v1 smooth_plate) identity) 3 = far1 /\
  projectToScreen r (applyMatrix (v2 smooth_plate) identity) 3 = far2 /\
  projectToScreen r (applyMatrix (v3 smooth_plate) identity) 3 = far3.
Proof.
  destruct cleared_size as [Hw Hh]. rewrite !applyMatrix_identity.
  cbn [smooth_plate v1 v2 v3].
  rewrite (project_vertex00 r Hw Hh 1 ltac:(lra)),
    (project_vertex10 r Hw Hh 1 ltac:(lra)),
    (project_vertex01 r Hw Hh 1 ltac:(lra)).
  repeat split.
Qed.

Lemma cleared_box :
  rasterized far1 far2 far3 r = true /\
  in_box far1 far2 far3 r 0 0 = true.
Proof.
  destruct cleared_size as [Hw Hh]. unfold rasterized, in_box.
  rewrite Hw, Hh. split; reflexivity.
Qed.

Lemma cleared_look :
  look r 0%Z 0%Z = (Some (-1)%Z, Some PosInfinity, Some (-1)%Z,
                    usePerPixelLighting r).
Proof.
  destruct r0_size as [Hw Hh]. unfold r. rewrite clear_look.
  unfold on_grid. rewrite Hw, Hh. cbn [andb Z.leb Z.sub Z.compare].
  change ((0 <=? 0)%Z && (0 <=? 2 - 1)%Z && ((0 <=? 0)%Z && (0 <=? 2 - 1)%Z))
    with true. cbn iota.
  rewrite r0_new, (flag_shape _ _ (clear_shape r0)). reflexivity.
Qed.

(** The index the plate leaves in the cell. *)
Lemma smooth_plate_cell :
  grid_get (indexBuffer (drawTriangle r smooth_plate identity light_front 3))
           0 0 =
  Some (if usePerPixelLighting r0 then 3%Z else 9%Z).
Proof.
  destruct cleared_points as (P1 & P2 & P3).
  destruct cleared_box as [Hr Hb].
  rewrite (drawn_cell_look r smooth_plate identity light_front 3 0 0 (-1)
             PosInfinity (-1) smooth_plate_faces).
  - rewrite P1, P2, P3. unfold lighting_normal. rewrite cleared_flag.
    rewrite !applyMatrix_identity.
    cbn [smooth_plate vn1 vn2 vn3 normal or_else].
    destruct (usePerPixelLighting r0).
    + rewrite pixelNormal_blend, blend_equal by ring.
      rewrite (normalize_unit_vector _ sideways_unit), sideways_index.
      reflexivity.
    + rewrite toward_camera_index. reflexivity.
  - now rewrite P1, P2, P3.
  - now rewrite P1, P2, P3.
  - rewrite P1, P2, P3. apply (plate_covers_origin 1).
  - exact cleared_look.
  - reflexivity.
Qed.

End Cleared.

Lemma new_cell w h f :
  (0 < w)%Z -> (0 < h)%Z ->
  look (TerminalRenderer_new w h f) 0%Z 0%Z =
  (Some (-1)%Z, Some PosInfinity, Some (-1)%Z, f).
Proof.
  intros Hw Hh. unfold look, TerminalRenderer_new.
  cbn [indexBuffer depthBuffer prevIndexBuffer usePerPixelLighting].
  now rewrite !grid_get_fill by lia.
Qed.

(** C3, as the specification states it, fails under per-pixel lighting,
    which is what [main] switches on.  A plate faces the camera and the
    light, a unit vector, so its flat brightness is 1 and 9 times it
    truncates to 9; its three vertex normals point sideways.  Drawn on a
    cleared 2 x 2 renderer, where the cell (0, 0) has no previous index
    and so no temporal blending takes place, the plate leaves the index 3
    in the cell it covers when per-pixel lighting is on, and 9 when it is
    off. *)
Lemma per_pixel_index_counterexample :
  Vec.length light_front = 1 /\
  ~ facing smooth_plate identity 3 <= 0 /\
  spec_brightness (applyMatrix (normal smooth_plate) identity) light_front
  = 1 /\
  Ztrunc (spec_brightness (applyMatrix (normal smooth_plate) identity)
            light_front * 9) = 9%Z /\
  grid_get (prevIndexBuffer (clear pixel_screen)) 0 0 = Some (-1)%Z /\
  grid_get (indexBuffer
              (drawTriangle (clear pixel_screen) smooth_plate identity
                 light_front 3)) 0 0 = Some 3%Z /\
  grid_get (indexBuffer
              (drawTriangle (clear grid2) smooth_plate identity
                 light_front 3)) 0 0 = Some 9%Z.
Proof.
  split; [apply light_front_unit |].
  split; [apply smooth_plate_faces |].
  rewrite applyMatrix_identity. cbn [smooth_plate normal].
  split.
  { unfold spec_brightness, Vec.dot, toward_camera, light_front.
    cbn [x y z].
    replace (0 * 0 + 0 * 0 + -1 * -1) with 1 by ring.
    rewrite (Rmax_right 0 1) by lra.
    unfold Math_pow. destruct (Rle_dec 1 0); [lra |].
    unfold Rpower. rewrite ln_1, Rmult_0_r, exp_0.
    unfold clamp. destruct (Rlt_dec _ 0.25); [lra |].
    destruct (Rlt_dec 1.0 _); lra. }
  split; [apply toward_camera_index |].
  split.
  { exact (look_prev _ _ _ _ _ _ _
             (cleared_look pixel_screen (conj eq_refl eq_refl)
                (new_cell 2 2 true ltac:(lia) ltac:(lia)))). }
  split.
  - exact (smooth_plate_cell pixel_screen (conj eq_refl eq_refl)
             (new_cell 2 2 true ltac:(lia) ltac:(lia))).
  - exact (smooth_plate_cell grid2 (conj eq_refl eq_refl)
             (new_cell 2 2 false ltac:(lia) ltac:(lia))).
Qed.

Lemma covered_cell_index_witness :
  grid_get (indexBuffer
              (drawTriangle (clear pixel_screen) smooth_plate identity
                 light_front 3)) 0 0 =
  Some (blendedIdx (-1)
          (Ztrunc (spec_brightness
                     (Vec.normalize (blend 1 0 0 sideways sideways sideways))
                     light_front * 9))).
Proof.
  pose proof (conj (eq_refl 2%Z) (eq_refl 2%Z)
              : width pixel_screen = 2%Z /\ height pixel_screen = 2%Z) as Hsz.
  pose proof (new_cell 2 2 true ltac:(lia) ltac:(lia)) as Hnew.
  fold pixel_screen in Hnew.
  destruct (cleared_points pixel_screen Hsz) as (P1 & P2 & P3).
  destruct (cleared_box pixel_screen Hsz) as [Hr Hb].
  pose proof (covered_cell_index (clear pixel_screen) smooth_plate identity
                light_front 3 0 0 (-1) PosInfinity (-1)) as H.
  cbn zeta in H. rewrite P1, P2, P3 in H.
  specialize (H smooth_plate_faces Hr Hb (plate_covers_origin 1)
                (cleared_look pixel_screen Hsz Hnew) eq_refl).
  destruct H as (_ & _ & _ & _ & Hpix & _).
  destruct (Hpix (cleared_flag pixel_screen)) as [_ Hall].
  rewrite (Hall 1 0 0).
  - rewrite !applyMatrix_identity. reflexivity.
  - unfold barycentric, far1, far2, far3. cbn [sx sy].
    repeat split; lra.
Defined.

End CellIndexFacts.

(** * The renderer on normals that may be NaN: facts *)

Module NanFacts.

Import Render GridFacts ShadeFacts FrameFacts FrameBufferFacts.
Open Scope Z_scope.

(** ** A renderer without NaN, seen as one that may hold it *)

Definition grid_map {A B : Type} (f : A -> B) (g : grid A) : grid B :=
  map (map f) g.

Lemma list_set_map (A B : Type) (f : A -> B) (l : list A) n v :
  list_set (map f l) n (f v) = map f (list_set l n v).
Proof.
  revert n. induction l as [| h t IH]; intros [| n]; cbn; auto.
  now rewrite IH.
Qed.

Lemma rows_set_map (A B : Type) (f : A -> B) (g : grid A) n col v :
  rows_set (grid_map f g) n col (f v) = grid_map f (rows_set g n col v).
Proof.
  unfold grid_map. revert n. induction g as [| h t IH]; intros [| n]; cbn;
    auto.
  - now rewrite list_set_map.
  - now rewrite IH.
Qed.

Lemma grid_set_map (A B : Type) (f : A -> B) (g : grid A) row col v :
  grid_set (grid_map f g) row col (f v) = grid_map f (grid_set g row col v).
Proof.
  unfold grid_set. destruct ((row <? 0) || (col <? 0)); [reflexivity |].
  apply rows_set_map.
Qed.

Lemma grid_get_map (A B : Type) (f : A -> B) (g : grid A) row col :
  grid_get (grid_map f g) row col = option_map f (grid_get g row col).
Proof.
  unfold grid_get, grid_map.
  destruct ((row <? 0) || (col <? 0)); [reflexivity |].
  rewrite nth_error_map.
  destruct (nth_error g (Z.to_nat row)) as [r |]; cbn; [| reflexivity].
  apply nth_error_map.
Qed.

Lemma grid_fill_map (A B : Type) (f : A -> B) h w v :
  grid_fill h w (f v) = grid_map f (grid_fill h w v).
Proof.
  unfold grid_fill, grid_map. now rewrite !map_repeat.
Qed.

Definition lift_vec (v : Vec.t) : Nan.Vec.t :=
  mkVector3 (Nan.Num (x v)) (Nan.Num (y v)) (Nan.Num (z v)).

Definition lift_triangle (t : Triangle R) : Nan.Tri.t :=
  Nan.Tri.mk (v1 t) (v2 t) (v3 t) (lift_vec (normal t))
    (option_map lift_vec (vn1 t)) (option_map lift_vec (vn2 t))
    (option_map lift_vec (vn3 t)).

Definition lift_normals (n : Vec.t * Vec.t * Vec.t)
  : Nan.Vec.t * Nan.Vec.t * Nan.Vec.t :=
  let '(n0, n1, n2) := n in (lift_vec n0, lift_vec n1, lift_vec n2).

Definition lift (r : TerminalRenderer) : Nan.TerminalRenderer :=
  Nan.mkRenderer (width r) (height r) (usePerPixelLighting r) (buffer r)
    (grid_map Nan.Index (indexBuffer r))
    (grid_map Nan.Index (prevIndexBuffer r)) (depthBuffer r).

Lemma for_count_lift (S T : Type) (f : S -> T) (body : Z -> S -> S)
    (body' : Z -> T -> T) :
  (forall k s, body' k (f s) = f (body k s)) ->
  forall count k s,
    for_count body' k count (f s) = f (for_count body k count s).
Proof.
  intros H. induction count as [| count IH]; intros k s; cbn [for_count];
    [reflexivity |].
  now rewrite H, IH.
Qed.

Lemma new_lift w h f :
  Nan.TerminalRenderer_new w h f = lift (TerminalRenderer_new w h f).
Proof.
  unfold Nan.TerminalRenderer_new, TerminalRenderer_new, lift.
  cbn [width height usePerPixelLighting buffer indexBuffer prevIndexBuffer
       depthBuffer].
  now rewrite !(grid_fill_map Z Nan.index Nan.Index).
Qed.

Lemma clear_lift r : Nan.clear (lift r) = lift (clear r).
Proof.
  unfold Nan.clear, clear, for_range.
  change (Nan.height (lift r)) with (height r).
  change (Nan.width (lift r)) with (width r).
  apply (for_count_lift _ _ lift). intros row s.
  apply (for_count_lift _ _ lift). intros col s'.
  unfold Nan.set_buffers, set_buffers, lift.
  cbn [Nan.width Nan.height Nan.usePerPixelLighting Nan.buffer
       Nan.indexBuffer Nan.prevIndexBuffer Nan.depthBuffer
       width height usePerPixelLighting buffer indexBuffer prevIndexBuffer
       depthBuffer].
  now rewrite (grid_set_map Z Nan.index Nan.Index).
Qed.

Lemma projectToScreen_lift r p cam :
  Nan.projectToScreen (lift r) p cam = projectToScreen r p cam.
Proof. reflexivity. Qed.

Lemma applyMatrix_lift v M :
  Nan.applyMatrix (lift_vec v) M = lift_vec (applyMatrix v M).
Proof. reflexivity. Qed.

Lemma dot_lift a v : Nan.Vec.dot (lift_vec a) v = Nan.Num (Vec.dot a v).
Proof. reflexivity. Qed.

Lemma normalize_lift a :
  Nan.Vec.normalize (lift_vec a) = lift_vec (Vec.normalize a).
Proof.
  unfold Nan.Vec.normalize, Vec.normalize, lift_vec. cbn [x y z].
  cbn [Nan.mul Nan.add Nan.lift2 Nan.Math_sqrt Nan.strict_eq Nan.div].
  destruct (Req_dec_T _ 0); reflexivity.
Qed.

Lemma flatIntensity_lift n L :
  Nan.flatIntensity (lift_vec n) L = Nan.Num (flatIntensity n L).
Proof. reflexivity. Qed.

Lemma pixelIntensity_lift n L :
  Nan.pixelIntensity (lift_vec n) L = Nan.Num (pixelIntensity n L).
Proof. reflexivity. Qed.

Lemma pixelNormal_lift px py p1 p2 p3 normals :
  Nan.pixelNormal px py p1 p2 p3 (lift_normals normals)
  = lift_vec (pixelNormal px py p1 p2 p3 normals).
Proof.
  destruct normals as [[n0 n1] n2].
  unfold Nan.pixelNormal, pixelNormal, lift_normals. cbn zeta.
  rewrite <- normalize_lift. reflexivity.
Qed.

Lemma effectiveIndex_lift f px py p1 p2 p3 charIndex normals light :
  Nan.effectiveIndex f px py p1 p2 p3 (Nan.Index charIndex)
    (option_map lift_normals normals) light
  = Nan.Index (effectiveIndex f px py p1 p2 p3 charIndex normals light).
Proof.
  unfold Nan.effectiveIndex, effectiveIndex.
  destruct f, normals as [normals |], light as [light |]; cbn [option_map];
    try reflexivity.
  cbn zeta. rewrite pixelNormal_lift, pixelIntensity_lift. reflexivity.
Qed.

Lemma blendedIdx_lift p e :
  Nan.blendedIdx (Nan.Index p) (Nan.Index e) = Nan.Index (blendedIdx p e).
Proof.
  unfold Nan.blendedIdx, blendedIdx. cbn [Nan.is_empty].
  destruct (p =? -1); reflexivity.
Qed.

Lemma shadeCell_lift p1 p2 p3 charIndex normals light py px r :
  Nan.shadeCell p1 p2 p3 (Nan.Index charIndex)
    (option_map lift_normals normals) light py px (lift r)
  = lift (shadeCell p1 p2 p3 charIndex normals light py px r).
Proof.
  unfold Nan.shadeCell, shadeCell.
  destruct (isPointInTriangle px py p1 p2 p3); [| reflexivity].
  change (Nan.depthBuffer (lift r)) with (depthBuffer r).
  destruct (depth_passes _ _); [| reflexivity].
  cbn zeta. change (Nan.usePerPixelLighting (lift r))
    with (usePerPixelLighting r).
  rewrite effectiveIndex_lift.
  change (Nan.prevIndexBuffer (lift r))
    with (grid_map Nan.Index (prevIndexBuffer r)).
  rewrite grid_get_map.
  assert (E : match option_map Nan.Index
                      (grid_get (prevIndexBuffer r) py px) with
              | Some i => i
              | None => Nan.Index (-1)
              end
              = Nan.Index match grid_get (prevIndexBuffer r) py px with
                          | Some i => i
                          | None => -1
                          end)
    by (destruct (grid_get (prevIndexBuffer r) py px); reflexivity).
  rewrite E, blendedIdx_lift.
  unfold Nan.set_buffers, set_buffers, lift.
  cbn [Nan.width Nan.height Nan.usePerPixelLighting Nan.buffer
       Nan.indexBuffer Nan.prevIndexBuffer Nan.depthBuffer
       width height usePerPixelLighting buffer indexBuffer prevIndexBuffer
       depthBuffer].
  now rewrite (grid_set_map Z Nan.index Nan.Index).
Qed.

Lemma rasterize_lift r p1 p2 p3 charIndex normals light :
  Nan.rasterizeTriangle (lift r) p1 p2 p3 (Nan.Index charIndex)
    (option_map lift_normals normals) light
  = lift (rasterizeTriangle r p1 p2 p3 charIndex normals light).
Proof.
  unfold Nan.rasterizeTriangle, rasterizeTriangle. cbn zeta.
  destruct (_ || _ || _ || _ || _ || _); [reflexivity |].
  change (Nan.height (lift r)) with (height r).
  change (Nan.width (lift r)) with (width r).
  destruct (_ || _); [reflexivity |].
  unfold for_range.
  apply (for_count_lift _ _ lift). intros row s.
  apply (for_count_lift _ _ lift). intros col s'.
  apply shadeCell_lift.
Qed.

Lemma drawTriangle_lift r t M L cam :
  Nan.drawTriangle (lift r) (lift_triangle t) M L cam
  = lift (drawTriangle r t M L cam).
Proof.
  unfold Nan.drawTriangle, drawTriangle, lift_triangle.
  cbn [Nan.Tri.v1 Nan.Tri.v2 Nan.Tri.v3 Nan.Tri.normal Nan.Tri.vn1
       Nan.Tri.vn2 Nan.Tri.vn3]. cbn zeta.
  rewrite applyMatrix_lift, dot_lift. cbn [Nan.le]. unfold R_le.
  destruct (Rle_dec _ 0); [reflexivity |].
  rewrite !projectToScreen_lift, flatIntensity_lift.
  assert (Hor : forall o d,
            Nan.applyMatrix (Nan.or_else (option_map lift_vec o) (lift_vec d))
                            M
            = lift_vec (applyMatrix (or_else o d) M))
    by (intros [v |] d; reflexivity).
  rewrite !Hor.
  apply (rasterize_lift r _ _ _ _ (Some (_, _, _)) (Some L)).
Qed.

Definition lift_acc (acc : TerminalRenderer * string)
  : Nan.TerminalRenderer * string :=
  (lift (fst acc), snd acc).

Lemma render_cell_lift row col acc :
  Nan.render_cell row col (lift_acc acc) = lift_acc (render_cell row col acc).
Proof.
  destruct acc as [r line]. unfold Nan.render_cell, render_cell, lift_acc.
  cbn [fst snd].
  change (Nan.indexBuffer (lift r)) with (grid_map Nan.Index (indexBuffer r)).
  rewrite grid_get_map.
  destruct (grid_get (indexBuffer r) row col) as [idx |]; cbn [option_map];
    [| reflexivity].
  cbn [fst snd Nan.glyph]. f_equal. unfold lift.
  cbn [Nan.width Nan.height Nan.usePerPixelLighting Nan.buffer
       Nan.indexBuffer Nan.prevIndexBuffer Nan.depthBuffer
       width height usePerPixelLighting buffer indexBuffer prevIndexBuffer
       depthBuffer].
  now rewrite (grid_set_map Z Nan.index Nan.Index).
Qed.

Lemma render_row_lift row acc :
  Nan.render_row row (lift_acc acc) = lift_acc (render_row row acc).
Proof.
  destruct acc as [r out]. unfold Nan.render_row, render_row, lift_acc.
  cbn [fst snd]. change (Nan.width (lift r)) with (width r).
  unfold for_range.
  pose proof (for_count_lift _ _ lift_acc (render_cell row)
                (Nan.render_cell row) (render_cell_lift row)
                (Z.to_nat (width r - 1 - 0 + 1)) 0 (r, EmptyString)) as H.
  unfold lift_acc at 1 in H. cbn [fst snd] in H. rewrite H.
  destruct (for_count (render_cell row) 0 _ (r, EmptyString)) as [r' line].
  reflexivity.
Qed.

Lemma render_lift r :
  Nan.render (lift r) = (lift (fst (render r)), snd (render r)).
Proof.
  unfold Nan.render, render, for_range.
  change (Nan.height (lift r)) with (height r).
  apply (for_count_lift _ _ lift_acc render_row Nan.render_row
           render_row_lift _ 0 (r, EmptyString)).
Qed.

Lemma draw_all_lift triangles M L cam :
  forall r,
    fold_left (fun r' t => Nan.drawTriangle r' t M L cam)
              (map lift_triangle triangles) (lift r)
    = lift (fold_left (fun r' t => drawTriangle r' t M L cam) triangles r).
Proof.
  induction triangles as [| t ts IH]; intros r; cbn [fold_left map];
    [reflexivity |].
  now rewrite drawTriangle_lift, IH.
Qed.

Lemma frame_lift r triangles M L cam :
  Nan.frame (lift r) (map lift_triangle triangles) M L cam
  = (lift (fst (frame r triangles M L cam)),
     snd (frame r triangles M L cam)).
Proof.
  unfold Nan.frame, frame. rewrite clear_lift, draw_all_lift.
  apply render_lift.
Qed.

(** ** The entries of the two index grids *)

(** An entry that is the sentinel or a ramp index from 3 to 9, and so
    not NaN. *)
Definition entry_ok (e : Nan.index) : Prop :=
  e = Nan.Index (-1) \/ exists i, e = Nan.Index i /\ drawn i.

Definition inv_nan (r : Nan.TerminalRenderer) : Prop :=
  grid_all Nan.index entry_ok (Nan.indexBuffer r) /\
  grid_all Nan.index entry_ok (Nan.prevIndexBuffer r).

Definition lower_index (e : Nan.index) : Z :=
  match e with
  | Nan.Index i => i
  | Nan.NaNIndex => -1
  end.

Definition lower (r : Nan.TerminalRenderer) : TerminalRenderer :=
  mkRenderer (Nan.width r) (Nan.height r) (Nan.usePerPixelLighting r)
    (Nan.buffer r) (grid_map lower_index (Nan.indexBuffer r))
    (grid_map lower_index (Nan.prevIndexBuffer r)) (Nan.depthBuffer r).

Lemma entry_ok_lower e :
  entry_ok e -> Nan.Index (lower_index e) = e /\ idx_ok (lower_index e).
Proof.
  intros [-> | (i & -> & Hi)]; cbn; split; auto; [now left | now right].
Qed.

Lemma grid_lower g :
  grid_all Nan.index entry_ok g ->
  grid_map Nan.Index (grid_map lower_index g) = g /\
  grid_all Z idx_ok (grid_map lower_index g).
Proof.
  unfold grid_all, grid_map. intros H. split.
  - rewrite map_map. rewrite <- (map_id g) at 2. apply map_ext_in.
    intros row Hrow. rewrite map_map. rewrite <- (map_id row) at 2.
    apply map_ext_in. intros e He.
    rewrite Forall_forall in H. specialize (H row Hrow).
    rewrite Forall_forall in H. now apply entry_ok_lower, H.
  - apply Forall_map. eapply Forall_impl; [| exact H].
    intros row Hrow. apply Forall_map. eapply Forall_impl; [| exact Hrow].
    intros e He. now apply entry_ok_lower.
Qed.

Lemma lift_lower r : inv_nan r -> lift (lower r) = r /\ inv (lower r).
Proof.
  intros [Hi Hp].
  destruct (grid_lower _ Hi) as [Ei Oi], (grid_lower _ Hp) as [Ep Op].
  split; [| split; assumption].
  destruct r. unfold lift, lower. cbn in *. now rewrite Ei, Ep.
Qed.

Lemma idx_ok_entry i : idx_ok i -> entry_ok (Nan.Index i).
Proof. intros [-> | Hi]; [now left | right; eauto]. Qed.

Lemma inv_lift r : inv r -> inv_nan (lift r).
Proof.
  intros [Hi Hp]. unfold inv_nan, lift, grid_all, grid_map in *. cbn.
  split; apply Forall_map;
    (eapply Forall_impl; [| eassumption]); intros row Hrow;
    apply Forall_map; (eapply Forall_impl; [| exact Hrow]);
    intros e He; now apply idx_ok_entry.
Qed.

(** A normal none of whose components is NaN. *)
Definition numeric_vec (v : Nan.Vec.t) : Prop :=
  x v <> Nan.NaN /\ y v <> Nan.NaN /\ z v <> Nan.NaN.

Definition numeric_opt (o : option Nan.Vec.t) : Prop :=
  match o with
  | Some v => numeric_vec v
  | None => True
  end.

Definition numeric (t : Nan.Tri.t) : Prop :=
  numeric_vec (Nan.Tri.normal t) /\ numeric_opt (Nan.Tri.vn1 t) /\
  numeric_opt (Nan.Tri.vn2 t) /\ numeric_opt (Nan.Tri.vn3 t).

Definition numeric_normals (o : option (Nan.Vec.t * Nan.Vec.t * Nan.Vec.t))
  : Prop :=
  match o with
  | Some (n0, n1, n2) => numeric_vec n0 /\ numeric_vec n1 /\ numeric_vec n2
  | None => True
  end.

Lemma numeric_vec_lift v : numeric_vec v -> exists v0, v = lift_vec v0.
Proof.
  destruct v as [[| a] [| b] [| c]]; intros (Hx & Hy & Hz); cbn in *;
    try contradiction.
  now exists (mkVector3 a b c).
Qed.

Lemma numeric_opt_lift o :
  numeric_opt o -> exists o0, o = option_map lift_vec o0.
Proof.
  destruct o as [v |]; cbn; intros H.
  - destruct (numeric_vec_lift v H) as [v0 ->]. now exists (Some v0).
  - now exists None.
Qed.

Lemma numeric_lift t : numeric t -> exists t0, t = lift_triangle t0.
Proof.
  destruct t as [a b c n o1 o2 o3]. unfold numeric. cbn.
  intros (Hn & H1 & H2 & H3).
  destruct (numeric_vec_lift n Hn) as [n0 ->].
  destruct (numeric_opt_lift o1 H1) as [q1 ->].
  destruct (numeric_opt_lift o2 H2) as [q2 ->].
  destruct (numeric_opt_lift o3 H3) as [q3 ->].
  now exists (mkTriangle a b c n0 q1 q2 q3).
Qed.

Lemma numeric_normals_lift o :
  numeric_normals o -> exists o0, o = option_map lift_normals o0.
Proof.
  destruct o as [[[n0 n1] n2] |]; cbn.
  - intros (H0 & H1 & H2).
    destruct (numeric_vec_lift n0 H0) as [m0 ->].
    destruct (numeric_vec_lift n1 H1) as [m1 ->].
    destruct (numeric_vec_lift n2 H2) as [m2 ->].
    now exists (Some (m0, m1, m2)).
  - now exists None.
Qed.

Lemma new_inv_nan w h f : inv_nan (Nan.TerminalRenderer_new w h f).
Proof. rewrite new_lift. apply inv_lift, new_inv. Qed.

Lemma clear_inv_nan r : inv_nan r -> inv_nan (Nan.clear r).
Proof.
  intros H. destruct (lift_lower r H) as [E Hi]. rewrite <- E, clear_lift.
  now apply inv_lift, clear_inv.
Qed.

Lemma rasterize_inv_nan r p1 p2 p3 i normals light :
  inv_nan r -> drawn i -> numeric_normals normals ->
  inv_nan (Nan.rasterizeTriangle r p1 p2 p3 (Nan.Index i) normals light).
Proof.
  intros H Hd Hn. destruct (lift_lower r H) as [E Hi].
  destruct (numeric_normals_lift normals Hn) as [normals0 ->].
  rewrite <- E, rasterize_lift. now apply inv_lift, rasterize_inv.
Qed.

Lemma drawTriangle_inv_nan r t M L cam :
  inv_nan r -> numeric t -> inv_nan (Nan.drawTriangle r t M L cam).
Proof.
  intros H Hn. destruct (lift_lower r H) as [E Hi].
  destruct (numeric_lift t Hn) as [t0 ->].
  rewrite <- E, drawTriangle_lift. now apply inv_lift, drawTriangle_inv.
Qed.

Lemma render_inv_nan r : inv_nan r -> inv_nan (fst (Nan.render r)).
Proof.
  intros H. destruct (lift_lower r H) as [E Hi].
  rewrite <- E, render_lift. cbn [fst]. now apply inv_lift, render_inv.
Qed.

Lemma frame_inv_nan r triangles M L cam :
  inv_nan r -> Forall numeric triangles ->
  inv_nan (fst (Nan.frame r triangles M L cam)).
Proof.
  intros H Hn. unfold Nan.frame. apply render_inv_nan.
  apply clear_inv_nan in H. revert H. generalize (Nan.clear r).
  induction Hn as [| t ts Ht Hts IH]; intros s Hs; cbn [fold_left];
    [exact Hs |].
  apply IH. now apply drawTriangle_inv_nan.
Qed.

Lemma drawn_renders i :
  drawn i ->
  exists c,
    String.get (Z.to_nat i) asciiChars = Some c /\
    Nan.glyph (Nan.Index i) = String c EmptyString /\ ~ sparse c.
Proof.
  unfold drawn. intros Hi.
  assert (Hcases : i = 3 \/ i = 4 \/ i = 5 \/ i = 6 \/ i = 7 \/ i = 8 \/ i = 9)
    by lia.
  unfold sparse.
  repeat (destruct Hcases as [-> | Hcases]); try subst i;
    (eexists; split; [reflexivity |]; split; [reflexivity |];
     intros [H | [H | H]]; discriminate H).
Qed.

(** ** Cell by cell *)

Definition ncell : Type :=
  option Nan.index * option depth * option Nan.index * bool.

Definition nlook (r : Nan.TerminalRenderer) (row col : Z) : ncell :=
  (grid_get (Nan.indexBuffer r) row col,
   grid_get (Nan.depthBuffer r) row col,
   grid_get (Nan.prevIndexBuffer r) row col,
   Nan.usePerPixelLighting r).

Definition prev_or_sentinel (p : option Nan.index) : Nan.index :=
  match p with Some i => i | None => Nan.Index (-1) end.

(** The size and the lighting flag. *)
Definition nshape (r : Nan.TerminalRenderer) : Z * Z * bool :=
  (Nan.width r, Nan.height r, Nan.usePerPixelLighting r).

Lemma lower_shape r : shape (lower r) = nshape r.
Proof. reflexivity. Qed.

Section NanRaster.

Variables (p1 p2 p3 : ScreenPoint) (charIndex : Nan.index).
Variable vertexNormals : option (Nan.Vec.t * Nan.Vec.t * Nan.Vec.t).
Variable lightDirection : option Vec.t.

Definition nshaded (row col : Z) (c : ncell) : ncell :=
  let '(i, d, p, f) := c in
  if isPointInTriangle col row p1 p2 p3
     && depth_passes (flatDepth p1 p2 p3) d
  then (overwrite i
          (Nan.blendedIdx (prev_or_sentinel p)
             (Nan.effectiveIndex f col row p1 p2 p3 charIndex vertexNormals
                lightDirection)),
        overwrite d (Depth (flatDepth p1 p2 p3)), p, f)
  else c.

Let nbody := Nan.shadeCell p1 p2 p3 charIndex vertexNormals lightDirection.

Lemma nan_shadeCell_same r row col :
  nlook (nbody row col r) row col = nshaded row col (nlook r row col).
Proof.
  unfold nbody, Nan.shadeCell, nshaded, nlook.
  destruct (isPointInTriangle col row p1 p2 p3); cbn [andb];
    [| reflexivity].
  destruct (depth_passes _ _); [| reflexivity].
  cbn. rewrite !grid_get_set_same. reflexivity.
Qed.

Lemma nan_shadeCell_other r row col row' col' :
  (row', col') <> (row, col) ->
  nlook (nbody row col r) row' col' = nlook r row' col'.
Proof.
  intros Hne. unfold nbody, Nan.shadeCell, nlook.
  destruct (isPointInTriangle col row p1 p2 p3); [| reflexivity].
  destruct (depth_passes _ _); [| reflexivity].
  cbn. rewrite !grid_get_set_other by assumption. reflexivity.
Qed.

Lemma nan_shadeCell_shape r row col : nshape (nbody row col r) = nshape r.
Proof.
  unfold nbody, Nan.shadeCell, nshape.
  destruct (isPointInTriangle col row p1 p2 p3); [| reflexivity].
  destruct (depth_passes _ _); reflexivity.
Qed.

Lemma nan_rasterize_look r row col :
  nlook (Nan.rasterizeTriangle r p1 p2 p3 charIndex vertexNormals
           lightDirection) row col =
  if rasterized p1 p2 p3 (lower r) && in_box p1 p2 p3 (lower r) row col
  then nshaded row col (nlook r row col)
  else nlook r row col.
Proof.
  unfold Nan.rasterizeTriangle, rasterized, in_box. cbn zeta.
  change (width (lower r)) with (Nan.width r).
  change (height (lower r)) with (Nan.height r).
  destruct ((sx p1 <? 0) || (sy p1 <? 0) || (sx p2 <? 0) || (sy p2 <? 0)
            || (sx p3 <? 0) || (sy p3 <? 0)); [reflexivity |].
  cbn [negb andb].
  destruct ((_ >=? _) || (_ >=? _)); [reflexivity |].
  cbn [negb]. unfold for_range.
  rewrite (grid_loop_obs _ _ nlook nbody nshaded nan_shadeCell_other
             nan_shadeCell_same).
  rewrite !in_span_range. reflexivity.
Qed.

Lemma nan_rasterize_shape r :
  nshape (Nan.rasterizeTriangle r p1 p2 p3 charIndex vertexNormals
            lightDirection) = nshape r.
Proof.
  unfold Nan.rasterizeTriangle. cbn zeta.
  destruct (_ || _ || _ || _ || _ || _); [reflexivity |].
  destruct (_ || _); [reflexivity |].
  unfold for_range.
  apply (for_count_invariant _ (fun s => nshape s = nshape r));
    [| reflexivity].
  intros row s Hs.
  apply (for_count_invariant _ (fun s => nshape s = nshape r)); [| exact Hs].
  intros col s' Hs'. fold (nbody row col s').
  now rewrite nan_shadeCell_shape.
Qed.

End NanRaster.

Definition ncleared (c : ncell) : ncell :=
  let '(i, d, p, f) := c in
  (overwrite i (Nan.Index (-1)), overwrite d PosInfinity, p, f).

Definition nan_clear_cell (row col : Z) (r' : Nan.TerminalRenderer)
  : Nan.TerminalRenderer :=
  Nan.set_buffers r'
    (grid_set (Nan.buffer r') row col space)
    (grid_set (Nan.indexBuffer r') row col (Nan.Index (-1)))
    (grid_set (Nan.depthBuffer r') row col PosInfinity).

Lemma nan_clear_look r row col :
  nlook (Nan.clear r) row col =
  if on_grid (lower r) row col then ncleared (nlook r row col)
  else nlook r row col.
Proof.
  unfold Nan.clear, for_range, on_grid.
  change (width (lower r)) with (Nan.width r).
  change (height (lower r)) with (Nan.height r).
  change (fun row0 : Z =>
            for_count (fun (col0 : Z) (r' : Nan.TerminalRenderer) => _) 0 _)
    with (fun row0 => for_count (nan_clear_cell row0) 0
                        (Z.to_nat (Nan.width r - 1 - 0 + 1))).
  rewrite (grid_loop_obs _ _ nlook nan_clear_cell (fun _ _ => ncleared)).
  - rewrite !in_span_range. reflexivity.
  - intros s a b a' b' Hne. unfold nlook, nan_clear_cell. cbn.
    rewrite !grid_get_set_other by assumption. reflexivity.
  - intros s a b. unfold nlook, nan_clear_cell, ncleared. cbn.
    rewrite !grid_get_set_same. reflexivity.
Qed.

Lemma nan_clear_shape r : nshape (Nan.clear r) = nshape r.
Proof.
  unfold Nan.clear, for_range.
  apply (for_count_invariant _ (fun s => nshape s = nshape r));
    [| reflexivity].
  intros row s Hs.
  apply (for_count_invariant _ (fun s => nshape s = nshape r)); [| exact Hs].
  intros col s' Hs'. exact Hs'.
Qed.

Definition nan_carry (row col : Z) (r : Nan.TerminalRenderer)
  : Nan.TerminalRenderer :=
  fst (Nan.render_cell row col (r, EmptyString)).

Definition ncarried (c : ncell) : ncell :=
  let '(i, d, p, f) := c in
  (i, d, match i with Some idx => overwrite p idx | None => p end, f).

Lemma nan_render_cell_fst row col r line :
  fst (Nan.render_cell row col (r, line)) = nan_carry row col r.
Proof.
  unfold nan_carry, Nan.render_cell.
  destruct (grid_get (Nan.indexBuffer r) row col); reflexivity.
Qed.

Lemma nan_carry_shape row col r : nshape (nan_carry row col r) = nshape r.
Proof.
  unfold nan_carry, Nan.render_cell.
  destruct (grid_get (Nan.indexBuffer r) row col); reflexivity.
Qed.

Lemma nan_render_cells_fst row :
  forall count lo r line,
    fst (for_count (Nan.render_cell row) lo count (r, line)) =
    for_count (nan_carry row) lo count r.
Proof.
  induction count as [| count IH]; intros lo r line; cbn [for_count];
    [reflexivity |].
  destruct (Nan.render_cell row lo (r, line)) as [r1 line1] eqn:E.
  rewrite IH. f_equal.
  rewrite <- (nan_render_cell_fst row lo r line), E. reflexivity.
Qed.

Lemma nan_render_rows_fst w :
  forall count lo r out,
    Nan.width r = w ->
    fst (for_count Nan.render_row lo count (r, out)) =
    for_count
      (fun row => for_count (nan_carry row) 0 (Z.to_nat (w - 1 - 0 + 1)))
      lo count r.
Proof.
  induction count as [| count IH]; intros lo r out Hw; cbn [for_count];
    [reflexivity |].
  unfold Nan.render_row at 2. unfold for_range. rewrite Hw.
  pose proof (nan_render_cells_fst lo (Z.to_nat (w - 1 - 0 + 1)) 0 r
                EmptyString) as Hfst.
  destruct (for_count (Nan.render_cell lo) 0 (Z.to_nat (w - 1 - 0 + 1))
              (r, EmptyString)) as [r1 line1].
  cbn [fst] in Hfst. rewrite IH.
  - now rewrite Hfst.
  - rewrite Hfst.
    assert (Hs : nshape (for_count (nan_carry lo) 0
                           (Z.to_nat (w - 1 - 0 + 1)) r) = nshape r).
    { apply (for_count_invariant _ (fun s => nshape s = nshape r));
        [| reflexivity].
      intros col s Hs. now rewrite nan_carry_shape. }
    unfold nshape in Hs. congruence.
Qed.

Lemma nan_render_look r row col :
  nlook (fst (Nan.render r)) row col =
  if on_grid (lower r) row col then ncarried (nlook r row col)
  else nlook r row col.
Proof.
  unfold Nan.render, for_range, on_grid.
  change (width (lower r)) with (Nan.width r).
  change (height (lower r)) with (Nan.height r).
  rewrite (nan_render_rows_fst (Nan.width r)) by reflexivity.
  rewrite (grid_loop_obs _ _ nlook nan_carry (fun _ _ => ncarried)).
  - rewrite !in_span_range. reflexivity.
  - intros s a b a' b' Hne. unfold nlook, nan_carry, Nan.render_cell.
    destruct (grid_get (Nan.indexBuffer s) a b); cbn; [| reflexivity].
    rewrite grid_get_set_other by assumption. reflexivity.
  - intros s a b. unfold nlook, nan_carry, Nan.render_cell, ncarried.
    destruct (grid_get (Nan.indexBuffer s) a b) eqn:E; cbn; rewrite E;
      [| reflexivity].
    rewrite grid_get_set_same. reflexivity.
Qed.

Lemma nan_render_shape r : nshape (fst (Nan.render r)) = nshape r.
Proof.
  unfold Nan.render, for_range.
  rewrite (nan_render_rows_fst (Nan.width r)) by reflexivity.
  apply (for_count_invariant _ (fun s => nshape s = nshape r));
    [| reflexivity].
  intros row s Hs.
  apply (for_count_invariant _ (fun s => nshape s = nshape r)); [| exact Hs].
  intros col s' Hs'. now rewrite nan_carry_shape.
Qed.

(** ** A triangle whose normal holds NaN *)

Import NormalFacts EndToEnd.
Open Scope R_scope.

(** A text file whose facet header has a malformed third component. *)
Definition nan_text : string :=
  ("solid t" ++ LoaderFacts.nl ++
   "facet normal 0 0 zz" ++ LoaderFacts.nl ++
   " outer loop" ++ LoaderFacts.nl ++
   "  vertex -2.5 1 1" ++ LoaderFacts.nl ++
   "  vertex 0 1 1" ++ LoaderFacts.nl ++
   "  vertex -2.5 0 1" ++ LoaderFacts.nl ++
   " endloop" ++ LoaderFacts.nl ++
   "endfacet" ++ LoaderFacts.nl ++
   "endsolid t" ++ LoaderFacts.nl)%string.

(** The triangle the loader returns for it. *)
Definition nan_loaded : Triangle Loader.number :=
  newTriangle
    (mkVector3 (Loader.Finite (-5 # 2)) (Loader.Finite 1) (Loader.Finite 1))
    (mkVector3 (Loader.Finite 0) (Loader.Finite 1) (Loader.Finite 1))
    (mkVector3 (Loader.Finite (-5 # 2)) (Loader.Finite 0) (Loader.Finite 1))
    (mkVector3 (Loader.Finite 0) (Loader.Finite 0) Loader.NaN).

Definition nan_normal : Nan.Vec.t :=
  mkVector3 (Nan.Num 0) (Nan.Num 0) Nan.NaN.

(** The same triangle as the renderer receives it: the vertices of
    [far_plate], which cover the cell (0, 0) of a 2 x 2 terminal. *)
Definition nan_plate : Nan.Tri.t :=
  Nan.Tri.mk (vertex00 1) (vertex10 1) (vertex01 1) nan_normal
             None None None.

Definition nan_vec : Nan.Vec.t := mkVector3 Nan.NaN Nan.NaN Nan.NaN.

Definition screen2 : Nan.TerminalRenderer := Nan.TerminalRenderer_new 2 2 true.

(** The renderer after the frame that draws [nan_plate], and after a next
    frame that draws [far_plate], whose normal is a number. *)
Definition nan_frame1 : Nan.TerminalRenderer :=
  fst (Nan.frame screen2 [nan_plate] identity light_front 3).
Definition nan_frame2 : Nan.TerminalRenderer :=
  fst (Nan.frame nan_frame1 [lift_triangle far_plate] identity light_front 3).

Lemma nan_loaded_plate : Nan.of_loaded nan_loaded = Some nan_plate.
Proof.
  unfold Nan.of_loaded, nan_loaded, newTriangle, Nan.vertex_of, Nan.normal_of,
    Nan.real_of, Nan.of_number, nan_plate, nan_normal, vertex00, vertex10,
    vertex01.
  cbn [v1 v2 v3 normal vn1 vn2 vn3 x y z].
  assert (E0 : Q2R 0 = 0) by (unfold Q2R; cbn; lra).
  assert (E1 : Q2R 1 = 1) by (unfold Q2R; cbn; lra).
  assert (E2 : Q2R (-5 # 2) = -2.5) by (unfold Q2R; cbn; lra).
  now rewrite E0, E1, E2.
Qed.

Lemma nan_applyMatrix M : Nan.applyMatrix nan_normal M = nan_vec.
Proof. reflexivity. Qed.

Lemma nan_effectiveIndex px py p1 p2 p3 charIndex L :
  Nan.effectiveIndex true px py p1 p2 p3 charIndex
    (Some (nan_vec, nan_vec, nan_vec)) (Some L) = Nan.NaNIndex.
Proof. reflexivity. Qed.

Lemma nan_blend e : Nan.blendedIdx Nan.NaNIndex e = Nan.NaNIndex.
Proof. reflexivity. Qed.

(** On a renderer of 2 x 2 cells a plate that is not culled is
    rasterized over the cells (0,0), (1,0) and (0,1). *)
Lemma nan_project r p cam :
  Nan.projectToScreen r p cam = projectToScreen (lower r) p cam.
Proof. reflexivity. Qed.

Lemma nan_draw_plate r f zv n o1 o2 o3 L :
  nshape r = (2%Z, 2%Z, f) ->
  0.9 <= zv <= 1.1 ->
  Nan.le (Nan.Vec.dot (Nan.applyMatrix n identity)
            (viewVector (vertex00 zv) (vertex10 zv) (vertex01 zv) 3))
         (Nan.Num 0) = false ->
  Nan.drawTriangle r
    (Nan.Tri.mk (vertex00 zv) (vertex10 zv) (vertex01 zv) n o1 o2 o3)
    identity L 3 =
  Nan.rasterizeTriangle r (mkScreenPoint 0 0 zv) (mkScreenPoint 1 0 zv)
    (mkScreenPoint 0 1 zv)
    (Nan.Math_floor (Nan.mul (Nan.flatIntensity (Nan.applyMatrix n identity) L)
                             (Nan.Num (IZR maxIndex))))
    (Some (Nan.applyMatrix (Nan.or_else o1 n) identity,
           Nan.applyMatrix (Nan.or_else o2 n) identity,
           Nan.applyMatrix (Nan.or_else o3 n) identity))
    (Some L).
Proof.
  intros Hs Hz Hf.
  assert (Hw : width (lower r) = 2%Z) by (unfold nshape in Hs; now inversion Hs).
  assert (Hh : height (lower r) = 2%Z)
    by (unfold nshape in Hs; now inversion Hs).
  unfold Nan.drawTriangle.
  cbn [Nan.Tri.v1 Nan.Tri.v2 Nan.Tri.v3 Nan.Tri.normal Nan.Tri.vn1
       Nan.Tri.vn2 Nan.Tri.vn3]. cbn zeta.
  rewrite !applyMatrix_identity, Hf, !nan_project.
  rewrite (project_vertex00 (lower r) Hw Hh zv Hz),
    (project_vertex10 (lower r) Hw Hh zv Hz),
    (project_vertex01 (lower r) Hw Hh zv Hz).
  reflexivity.
Qed.

(** The cell (0, 0) after such a plate is rasterized over a cleared
    cell. *)
Lemma nan_plate_cell r f zv charIndex normals L p :
  nshape r = (2%Z, 2%Z, f) ->
  nlook r 0%Z 0%Z = (Some (Nan.Index (-1)), Some PosInfinity, Some p, f) ->
  nlook (Nan.rasterizeTriangle r (mkScreenPoint 0 0 zv) (mkScreenPoint 1 0 zv)
           (mkScreenPoint 0 1 zv) charIndex normals (Some L)) 0%Z 0%Z =
  (Some (Nan.blendedIdx p
           (Nan.effectiveIndex f 0 0 (mkScreenPoint 0 0 zv)
              (mkScreenPoint 1 0 zv) (mkScreenPoint 0 1 zv) charIndex
              normals (Some L))),
   Some (Depth zv), Some p, f).
Proof.
  intros Hs Hl. rewrite nan_rasterize_look.
  assert (Hw : width (lower r) = 2%Z) by (unfold nshape in Hs; now inversion Hs).
  assert (Hh : height (lower r) = 2%Z)
    by (unfold nshape in Hs; now inversion Hs).
  unfold rasterized, in_box. rewrite Hw, Hh. cbn [sx sy].
  change (_ && _) with true. cbn iota.
  rewrite Hl. unfold nshaded.
  rewrite plate_covers_origin, plate_depth. reflexivity.
Qed.

Lemma screen2_cell :
  nshape (Nan.clear screen2) = (2%Z, 2%Z, true) /\
  nlook (Nan.clear screen2) 0%Z 0%Z =
  (Some (Nan.Index (-1)), Some PosInfinity, Some (Nan.Index (-1)), true).
Proof.
  split; [now rewrite nan_clear_shape |].
  rewrite nan_clear_look. reflexivity.
Qed.

Lemma nan_plate_culls_nothing zv :
  Nan.le (Nan.Vec.dot (Nan.applyMatrix nan_normal identity)
            (viewVector (vertex00 zv) (vertex10 zv) (vertex01 zv) 3))
         (Nan.Num 0) = false.
Proof. reflexivity. Qed.

Lemma nan_plate_drawn :
  nshape (Nan.drawTriangle (Nan.clear screen2) nan_plate identity
            light_front 3) = (2%Z, 2%Z, true) /\
  nlook (Nan.drawTriangle (Nan.clear screen2) nan_plate identity
           light_front 3) 0%Z 0%Z =
  (Some Nan.NaNIndex, Some (Depth 1), Some (Nan.Index (-1)), true).
Proof.
  destruct screen2_cell as [Hs Hl]. unfold nan_plate.
  rewrite (nan_draw_plate _ true 1 nan_normal None None None light_front Hs
             ltac:(lra) (nan_plate_culls_nothing 1)).
  split; [now rewrite nan_rasterize_shape |].
  rewrite (nan_plate_cell _ true 1 _ _ light_front (Nan.Index (-1)) Hs Hl).
  reflexivity.
Qed.

Lemma nan_frame1_cell :
  nshape nan_frame1 = (2%Z, 2%Z, true) /\
  nlook nan_frame1 0%Z 0%Z =
  (Some Nan.NaNIndex, Some (Depth 1), Some Nan.NaNIndex, true).
Proof.
  destruct nan_plate_drawn as [Hs Hl].
  unfold nan_frame1, Nan.frame. cbn [fold_left].
  split; [now rewrite nan_render_shape |].
  rewrite nan_render_look.
  assert (Hg : on_grid (lower (Nan.drawTriangle (Nan.clear screen2) nan_plate
                                 identity light_front 3)) 0 0 = true).
  { unfold on_grid. unfold nshape in Hs.
    change (width (lower ?r)) with (Nan.width r).
    change (height (lower ?r)) with (Nan.height r).
    injection Hs as Hw Hh _. now rewrite Hw, Hh. }
  rewrite Hg, Hl. reflexivity.
Qed.

Lemma far_plate_not_culled :
  Nan.le (Nan.Vec.dot (Nan.applyMatrix (lift_vec toward_camera) identity)
            (viewVector (vertex00 1) (vertex10 1) (vertex01 1) 3))
         (Nan.Num 0) = false.
Proof.
  rewrite applyMatrix_lift, dot_lift. cbn [Nan.le]. unfold R_le.
  destruct (Rle_dec _ 0) as [H | _]; [| reflexivity].
  exfalso. apply far_plate_faces. unfold facing.
  rewrite !applyMatrix_identity in *. exact H.
Qed.

Lemma nan_frame2_cell :
  nlook nan_frame2 0%Z 0%Z =
  (Some Nan.NaNIndex, Some (Depth 1), Some Nan.NaNIndex, true).
Proof.
  destruct nan_frame1_cell as [Hs Hl].
  assert (Hg : forall r, nshape r = (2%Z, 2%Z, true) ->
                 on_grid (lower r) 0 0 = true).
  { intros r Hr. unfold on_grid. unfold nshape in Hr.
    change (width (lower r)) with (Nan.width r).
    change (height (lower r)) with (Nan.height r).
    injection Hr as Hw Hh _. now rewrite Hw, Hh. }
  assert (Hcs : nshape (Nan.clear nan_frame1) = (2%Z, 2%Z, true))
    by now rewrite nan_clear_shape.
  assert (Hcl : nlook (Nan.clear nan_frame1) 0%Z 0%Z =
                (Some (Nan.Index (-1)), Some PosInfinity, Some Nan.NaNIndex,
                 true)).
  { rewrite nan_clear_look, (Hg _ Hs), Hl. reflexivity. }
  unfold nan_frame2, Nan.frame. cbn [fold_left].
  unfold far_plate, plate, newTriangle, lift_triangle.
  cbn [v1 v2 v3 normal vn1 vn2 vn3 option_map].
  rewrite (nan_draw_plate _ true 1 (lift_vec toward_camera) None None None
             light_front Hcs ltac:(lra) far_plate_not_culled).
  rewrite nan_render_look.
  rewrite (Hg _ (eq_trans (nan_rasterize_shape _ _ _ _ _ _ _) Hcs)).
  rewrite (nan_plate_cell _ true 1 _ _ light_front Nan.NaNIndex Hcs Hcl).
  reflexivity.
Qed.

Lemma nan_entry_not_ok : ~ entry_ok Nan.NaNIndex.
Proof. intros [H | (i & H & _)]; discriminate H. Qed.

(** C9, as the specification states it, fails for a triangle the loader
    returns.  The facet header [facet normal 0 0 zz] loads with the normal
    (0, 0, NaN).  The rotated normal is then NaN in every component, the
    back-face test [NaN <= 0] is false, so the triangle is not culled;
    its brightness and its index are NaN, and [drawTriangle] stores NaN
    in the index grid at the cell (0, 0) it covers: the grid of a cleared
    renderer satisfies the invariant, the grid after [drawTriangle] does
    not.  [render] prints a blank for the cell and copies the NaN to the
    previous-frame grid, and in the next frame a triangle without any NaN
    drawn over the cell leaves NaN there again, because the blend with a
    previous NaN is NaN. *)
Lemma nan_normal_counterexample :
  Loader.parseSTL (list_byte_of_string nan_text) = Ok [nan_loaded] /\
  Nan.of_loaded nan_loaded = Some nan_plate /\
  inv_nan (Nan.clear screen2) /\
  grid_get (Nan.indexBuffer
              (Nan.drawTriangle (Nan.clear screen2) nan_plate identity
                 light_front 3)) 0 0 = Some Nan.NaNIndex /\
  ~ inv_nan (Nan.drawTriangle (Nan.clear screen2) nan_plate identity
               light_front 3) /\
  grid_get (Nan.indexBuffer nan_frame1) 0 0 = Some Nan.NaNIndex /\
  grid_get (Nan.prevIndexBuffer nan_frame1) 0 0 = Some Nan.NaNIndex /\
  Nan.glyph Nan.NaNIndex = String space EmptyString /\
  numeric (lift_triangle far_plate) /\
  grid_get (Nan.indexBuffer nan_frame2) 0 0 = Some Nan.NaNIndex.
Proof.
  destruct nan_plate_drawn as [_ Hd].
  destruct nan_frame1_cell as [_ H1].
  pose proof nan_frame2_cell as H2.
  unfold nlook in Hd, H1, H2.
  assert (Ed : grid_get (Nan.indexBuffer
                  (Nan.drawTriangle (Nan.clear screen2) nan_plate identity
                     light_front 3)) 0 0 = Some Nan.NaNIndex)
    by congruence.
  split; [vm_compute; reflexivity |].
  split; [apply nan_loaded_plate |].
  split; [apply clear_inv_nan, new_inv_nan |].
  split; [exact Ed |].
  split.
  { intros [Hi _]. apply nan_entry_not_ok.
    exact (grid_get_all Nan.index entry_ok _ _ _ _ Hi Ed). }
  split; [congruence |]. split; [congruence |].
  split; [reflexivity |].
  split; [| congruence].
  unfold numeric, lift_triangle, far_plate, plate, newTriangle, numeric_vec.
  cbn. repeat split; discriminate.
Qed.

Open Scope Z_scope.

(** C9, amended: as long as every component of every normal is a finite
    number (here: a real number, not NaN), every entry of the
    current-frame and of the previous-frame index grid is the empty
    sentinel -1 or an integer from 3 to 9.  This holds for a new renderer
    and is preserved by [clear], by [rasterizeTriangle] when it is given
    an index from 3 to 9 and vertex normals without NaN, by [drawTriangle]
    on a triangle whose face normal and vertex normals hold no NaN, by
    [render], and by a whole frame of such triangles.  So a non-sentinel
    entry indexes the 10-glyph ramp in bounds, and [render] prints for its
    cell a glyph that is not one of the three sparsest.  The brightness
    stays in [0.35, 1], and blending an in-range previous index with an
    in-range current one stays in range, in binary64 as over the reals.
    On such triangles [drawTriangle] and a whole frame are those of the
    renderer over the real numbers. *)
Theorem numeric_index_grids_invariant :
  (forall w h f, inv_nan (Nan.TerminalRenderer_new w h f)) /\
  (forall r, inv_nan r -> inv_nan (Nan.clear r)) /\
  (forall r p1 p2 p3 i normals light,
     inv_nan r -> drawn i -> numeric_normals normals ->
     inv_nan (Nan.rasterizeTriangle r p1 p2 p3 (Nan.Index i) normals light)) /\
  (forall r t M L cam,
     inv_nan r -> numeric t -> inv_nan (Nan.drawTriangle r t M L cam)) /\
  (forall r, inv_nan r -> inv_nan (fst (Nan.render r))) /\
  (forall r triangles M L cam,
     inv_nan r -> Forall numeric triangles ->
     inv_nan (fst (Nan.frame r triangles M L cam))) /\
  (forall r row col e,
     inv_nan r ->
     grid_get (Nan.indexBuffer r) row col = Some e \/
     grid_get (Nan.prevIndexBuffer r) row col = Some e ->
     e <> Nan.Index (-1) ->
     exists i c,
       e = Nan.Index i /\ 3 <= i <= 9 /\
       String.get (Z.to_nat i) asciiChars = Some c /\ ~ sparse c /\
       Nan.glyph e = String c EmptyString) /\
  (forall r row col e line,
     inv_nan r ->
     grid_get (Nan.indexBuffer r) row col = Some e ->
     e <> Nan.Index (-1) ->
     exists c,
       snd (Nan.render_cell row col (r, line))
       = (line ++ String c EmptyString)%string /\ ~ sparse c) /\
  (forall n L,
     Nan.flatIntensity (lift_vec n) L = Nan.Num (flatIntensity n L) /\
     Nan.pixelIntensity (lift_vec n) L = Nan.Num (pixelIntensity n L) /\
     (0.35 <= flatIntensity n L <= 1)%R /\
     (0.35 <= pixelIntensity n L <= 1)%R) /\
  (forall prevIdx effective,
     idx_ok prevIdx -> drawn effective ->
     Nan.blendedIdx (Nan.Index prevIdx) (Nan.Index effective)
     = Nan.Index (blendedIdx prevIdx effective) /\
     drawn (blendedIdx prevIdx effective) /\
     Binary64.blendedIdx prevIdx effective
     = Some (blendedIdx prevIdx effective)) /\
  (forall r t M L cam,
     Nan.drawTriangle (lift r) (lift_triangle t) M L cam
     = lift (drawTriangle r t M L cam)) /\
  (forall r triangles M L cam,
     Nan.frame (lift r) (map lift_triangle triangles) M L cam
     = (lift (fst (frame r triangles M L cam)),
        snd (frame r triangles M L cam))).
Proof.
  assert (Hentry : forall r row col e,
            inv_nan r ->
            grid_get (Nan.indexBuffer r) row col = Some e \/
            grid_get (Nan.prevIndexBuffer r) row col = Some e ->
            e <> Nan.Index (-1) ->
            exists i c,
              e = Nan.Index i /\ 3 <= i <= 9 /\
              String.get (Z.to_nat i) asciiChars = Some c /\ ~ sparse c /\
              Nan.glyph e = String c EmptyString).
  { intros r row col e [Hi Hp] Hget Hne.
    assert (Hok : entry_ok e).
    { destruct Hget as [E | E];
        [exact (grid_get_all Nan.index entry_ok _ _ _ _ Hi E)
        | exact (grid_get_all Nan.index entry_ok _ _ _ _ Hp E)]. }
    destruct Hok as [-> | (i & -> & Hd)]; [contradiction |].
    destruct (drawn_renders i Hd) as (c & Hc & Hg & Hs).
    exists i, c. auto. }
  split; [apply new_inv_nan |].
  split; [apply clear_inv_nan |].
  split; [intros; now apply rasterize_inv_nan |].
  split; [apply drawTriangle_inv_nan |].
  split; [apply render_inv_nan |].
  split; [apply frame_inv_nan |].
  split; [exact Hentry |].
  split.
  { intros r row col e line Hinv Hget Hne.
    destruct (Hentry r row col e Hinv (or_introl Hget) Hne)
      as (i & c & _ & _ & _ & Hs & Hg).
    exists c. split; [| exact Hs].
    unfold Nan.render_cell. rewrite Hget. cbn [snd]. now rewrite Hg. }
  split.
  { intros n L. split; [reflexivity |]. split; [reflexivity |].
    rewrite flatIntensity_spec, pixelIntensity_spec.
    split; apply spec_brightness_bounds. }
  split.
  { intros prevIdx effective Hp He.
    split; [apply blendedIdx_lift |].
    split; [now apply blendedIdx_drawn | now apply blendedIdx_binary64]. }
  split; [apply drawTriangle_lift | apply frame_lift].
Qed.

Lemma lit_plate_entry :
  grid_get (Nan.indexBuffer
              (fst (Nan.frame (lift grid2) [lift_triangle far_plate] identity
                      light_front 3))) 0 0 = Some (Nan.Index 9).
Proof.
  rewrite (frame_lift grid2 [far_plate]). cbn [fst].
  change (Nan.indexBuffer (lift ?r)) with (grid_map Nan.Index (indexBuffer r)).
  rewrite grid_get_map.
  destruct four_lit_frames as (H1 & _). unfold emitted, lit1 in H1.
  now rewrite H1.
Qed.

Lemma numeric_index_grids_invariant_witness :
  inv_nan (fst (Nan.frame (lift grid2) [lift_triangle far_plate] identity
                  light_front 3)) /\
  exists i c,
    Nan.Index 9 = Nan.Index i /\ 3 <= i <= 9 /\
    String.get (Z.to_nat i) asciiChars = Some c /\ ~ sparse c /\
    Nan.glyph (Nan.Index 9) = String c EmptyString.
Proof.
  destruct numeric_index_grids_invariant
    as (Hnew & _ & _ & _ & _ & Hframe & Hentry & _).
  assert (Hn : Forall numeric [lift_triangle far_plate]).
  { constructor; [| constructor].
    unfold numeric, lift_triangle, far_plate, plate, newTriangle, numeric_vec.
    cbn. repeat split; discriminate. }
  assert (Hinv : inv_nan (fst (Nan.frame (lift grid2)
                                 [lift_triangle far_plate] identity
                                 light_front 3))).
  { apply Hframe; [| exact Hn]. unfold grid2. rewrite <- new_lift.
    apply Hnew. }
  split; [exact Hinv |].
  apply (Hentry _ 0 0 (Nan.Index 9) Hinv (or_introl lit_plate_entry)).
  discriminate.
Defined.

End NanFacts.

(** * More of the loader: what the two readers return *)

Module ReaderFacts.

Import Loader LoaderFacts.
Open Scope Z_scope.

(** ** The binary reader *)

(** The number held by the four bytes at [offset]. *)
Definition float_at (data : Buffer) (offset : nat) : number :=
  decode_f32 (le_u32_at data offset).

Definition vec_at (data : Buffer) (offset : nat) : Vector3 number :=
  mkVector3 (float_at data offset) (float_at data (offset + 4))
            (float_at data (offset + 8)).

(** The triangle held by the 50-byte record at [offset]: the normal first,
    then the three vertices. *)
Definition record_at (data : Buffer) (offset : nat) : Triangle number :=
  newTriangle (vec_at data (offset + 12)) (vec_at data (offset + 24))
              (vec_at data (offset + 36)) (vec_at data offset).

Lemma readFloatLE_in_range (data : Buffer) (offset : nat) :
  (offset + 3 < List.length data)%nat ->
  readFloatLE data (Z.of_nat offset) = Ok (float_at data offset).
Proof.
  intros H. unfold readFloatLE.
  rewrite (readUInt32LE_in_range data offset H). reflexivity.
Qed.

Lemma read_vec_in_range (data : Buffer) (offset : nat) :
  (offset + 11 < List.length data)%nat ->
  read_vec data (Z.of_nat offset) = Ok (vec_at data offset).
Proof.
  intros H. unfold read_vec.
  replace (Z.of_nat offset + 4) with (Z.of_nat (offset + 4)) by lia.
  replace (Z.of_nat offset + 8) with (Z.of_nat (offset + 8)) by lia.
  rewrite !readFloatLE_in_range by lia. reflexivity.
Qed.

Lemma binary_loop_in_range (data : Buffer) :
  forall count offset,
    (offset + 50 * count <= List.length data)%nat ->
    binary_loop data count (Z.of_nat offset) =
    Ok (map (fun k => record_at data (offset + 50 * k)) (seq 0 count)).
Proof.
  induction count as [| count IH]; intros offset Hlen; [reflexivity |].
  cbn [binary_loop].
  replace (Z.of_nat offset + 12) with (Z.of_nat (offset + 12)) by lia.
  replace (Z.of_nat offset + 24) with (Z.of_nat (offset + 24)) by lia.
  replace (Z.of_nat offset + 36) with (Z.of_nat (offset + 36)) by lia.
  replace (Z.of_nat offset + 50) with (Z.of_nat (offset + 50)) by lia.
  rewrite !read_vec_in_range by lia. cbn [bind].
  rewrite IH by lia. cbn [bind].
  cbn [seq map]. rewrite <- seq_shift, map_map.
  replace (offset + 50 * 0)%nat with offset by lia.
  fold (record_at data offset). f_equal. f_equal.
  apply map_ext. intros k. f_equal. lia.
Qed.

Lemma le_u32_at_nonneg (data : Buffer) (offset : nat) :
  0 <= le_u32_at data offset.
Proof.
  assert (Hb : forall i, 0 <= byte_or_zero data i).
  { intros i. unfold byte_or_zero. destruct (nth_error data i); lia. }
  unfold le_u32_at.
  pose proof (Hb offset). pose proof (Hb (offset + 1)%nat).
  pose proof (Hb (offset + 2)%nat). pose proof (Hb (offset + 3)%nat). lia.
Qed.

(** A file that has the binary layout loads without an exception as
    exactly N triangles, N the count at offset 80; triangle k is the one
    held by the record at byte 84 + 50 k, with the normal stored in the
    file and no vertex normals. *)
Theorem binary_file_loads (data : Buffer) :
  binary_layout data ->
  let count := Z.to_nat (le_u32_at data 80) in
  parseSTL data =
    Ok (map (fun k => record_at data (84 + 50 * k)) (seq 0 count)) /\
  (forall triangles, parseSTL data = Ok triangles ->
     List.length triangles = count /\
     forall k t, nth_error triangles k = Some t ->
       t = record_at data (84 + 50 * k) /\
       vn1 t = None /\ vn2 t = None /\ vn3 t = None).
Proof.
  intros Hlayout. cbn zeta.
  assert (Hparse : parseSTL data =
            Ok (map (fun k => record_at data (84 + 50 * k))
                    (seq 0 (Z.to_nat (le_u32_at data 80))))).
  { destruct (parseSTL_with_dispatch _ parseBinarySTL parseAsciiSTL data)
      as [Hb _].
    fold (parseSTL data) in Hb. rewrite (Hb Hlayout).
    destruct Hlayout as [Hlong Hsize]. unfold buf_length in *.
    unfold parseBinarySTL.
    assert (Hread : readUInt32LE data 80 = Ok (le_u32_at data 80))
      by (apply (readUInt32LE_in_range data 80); lia).
    rewrite Hread. cbn [bind].
    pose proof (le_u32_at_nonneg data 80).
    apply (binary_loop_in_range data _ 84). lia. }
  split; [exact Hparse |].
  intros triangles Ht. rewrite Hparse in Ht. injection Ht as <-.
  split; [now rewrite length_map, length_seq |].
  intros k t Hk.
  rewrite nth_error_map in Hk.
  destruct (nth_error (seq 0 (Z.to_nat (le_u32_at data 80))) k) as [j |] eqn:Ej;
    [| discriminate].
  injection Hk as <-.
  assert (j = k).
  { assert (Hlt : (k < List.length (seq 0 (Z.to_nat (le_u32_at data 80))))%nat)
      by (apply nth_error_Some; congruence).
    rewrite length_seq in Hlt.
    apply (nth_error_nth _ _ 0%nat) in Ej.
    rewrite seq_nth in Ej by assumption. lia. }
  subst j. repeat split; reflexivity.
Qed.

Lemma binary_file_loads_witness :
  parseSTL one_record_binary =
  Ok (map (fun k => record_at one_record_binary (84 + 50 * k))
          (seq 0 (Z.to_nat (le_u32_at one_record_binary 80)))).
Proof.
  assert (Hl : binary_layout one_record_binary)
    by (split; vm_compute; reflexivity).
  exact (proj1 (binary_file_loads one_record_binary Hl)).
Defined.

(** ** The text reader *)

Open Scope string_scope.

(** The vector a vertex line holds: its second to fourth tokens. *)
Definition vertex_of (line : string) : Vector3 number :=
  let parts := split_ws line in
  mkVector3 (parseFloat_at parts 1) (parseFloat_at parts 2)
            (parseFloat_at parts 3).

(** The vector a facet line holds: its third to fifth tokens. *)
Definition normal_of (line : string) : Vector3 number :=
  let parts := split_ws line in
  mkVector3 (parseFloat_at parts 2) (parseFloat_at parts 3)
            (parseFloat_at parts 4).















End ReaderFacts.

(** * More of the renderer: clearing, skipping, depth and containment *)

Module RendererFacts.

Import Render GridFacts ShadeFacts FrameFacts FrameBufferFacts.
Open Scope Z_scope.

(** A cell that a grid of a given size holds lies within that size. *)
Lemma sized_get_range (A : Type) h w (g : grid A) row col v :
  sized h w g -> grid_get g row col = Some v ->
  0 <= row < h /\ 0 <= col < w.
Proof.
  intros [Hlen Hall]. unfold grid_get.
  destruct (Z.ltb_spec row 0); [discriminate |].
  destruct (Z.ltb_spec col 0); [discriminate |]. cbn [orb].
  destruct (nth_error g (Z.to_nat row)) as [r |] eqn:Er; [| discriminate].
  intros Ec.
  assert (Hr : (Z.to_nat row < List.length g)%nat)
    by (apply nth_error_Some; congruence).
  assert (Hc : (Z.to_nat col < List.length r)%nat)
    by (apply nth_error_Some; congruence).
  rewrite Forall_forall in Hall.
  rewrite (Hall r (nth_error_In _ _ Er)) in Hc. lia.
Qed.

Lemma on_grid_iff r row col :
  on_grid r row col = true <-> 0 <= row < height r /\ 0 <= col < width r.
Proof.
  unfold on_grid. rewrite !andb_true_iff, !Z.leb_le. lia.
Qed.

Lemma clear_prev r : prevIndexBuffer (clear r) = prevIndexBuffer r.
Proof.
  unfold clear, for_range.
  apply (for_count_invariant _
           (fun s => prevIndexBuffer s = prevIndexBuffer r)); [| reflexivity].
  intros row s Hs.
  apply (for_count_invariant _
           (fun s => prevIndexBuffer s = prevIndexBuffer r)); [| exact Hs].
  intros col s' Hs'. exact Hs'.
Qed.

(** [clear] on a renderer whose grids have its size: afterwards every
    index entry is the empty sentinel and every depth entry is infinite,
    while the previous-frame grid, the size and the lighting flag are
    what they were. *)
Theorem clear_resets_frame r :
  well_sized r ->
  (forall row col i,
     grid_get (indexBuffer (clear r)) row col = Some i -> i = -1) /\
  (forall row col d,
     grid_get (depthBuffer (clear r)) row col = Some d -> d = PosInfinity) /\
  (forall row col,
     0 <= row < height r -> 0 <= col < width r ->
     grid_get (indexBuffer (clear r)) row col = Some (-1) /\
     grid_get (depthBuffer (clear r)) row col = Some PosInfinity) /\
  prevIndexBuffer (clear r) = prevIndexBuffer r /\
  shape (clear r) = shape r.
Proof.
  intros Hw.
  pose proof (clear_well_sized r Hw) as (_ & Hi & _ & Hd).
  pose proof (clear_shape r) as Hs.
  assert (Hwh : width (clear r) = width r /\ height (clear r) = height r)
    by (unfold shape in Hs; inversion Hs; auto).
  destruct Hwh as [Ew Eh]. rewrite Ew, Eh in Hi, Hd.
  assert (Hcell : forall row col,
            0 <= row < height r -> 0 <= col < width r ->
            grid_get (indexBuffer (clear r)) row col = Some (-1) /\
            grid_get (depthBuffer (clear r)) row col = Some PosInfinity).
  { intros row col Hr Hc.
    pose proof (clear_look r row col) as Hl.
    rewrite (proj2 (on_grid_iff r row col) (conj Hr Hc)) in Hl.
    destruct Hw as (_ & Hi0 & _ & Hd0).
    destruct (sized_get _ _ _ _ row col Hi0 Hr Hc) as [i Ei].
    destruct (sized_get _ _ _ _ row col Hd0 Hr Hc) as [d Ed].
    unfold look, cleared in Hl. rewrite Ei, Ed in Hl. cbn in Hl.
    inversion Hl. auto. }
  split.
  { intros row col i Hget.
    destruct (sized_get_range _ _ _ _ _ _ _ Hi Hget) as [Hr Hc].
    destruct (Hcell row col Hr Hc) as [E _]. congruence. }
  split.
  { intros row col d Hget.
    destruct (sized_get_range _ _ _ _ _ _ _ Hd Hget) as [Hr Hc].
    destruct (Hcell row col Hr Hc) as [_ E]. congruence. }
  split; [exact Hcell |].
  split; [apply clear_prev | exact Hs].
Qed.

Lemma clear_resets_frame_witness :
  grid_get (indexBuffer (clear frame1)) 0 0 = Some (-1) /\
  grid_get (depthBuffer (clear frame1)) 0 0 = Some PosInfinity.
Proof.
  assert (Hw : well_sized frame1).
  { unfold frame1, paint. apply render_well_sized, rasterize_well_sized,
      clear_well_sized, new_well_sized. }
  destruct (clear_resets_frame frame1 Hw) as (_ & _ & Hcell & _).
  assert (Hs : shape frame1 = shape grid2) by apply paint_shape.
  assert (Hwh : width frame1 = 2 /\ height frame1 = 2)
    by (unfold shape in Hs; inversion Hs; auto).
  destruct Hwh as [Ew Eh].
  apply Hcell; lia.
Defined.

(** ** What the rasterizer skips *)

(** [rasterizeTriangle] returns at once, leaving the renderer as it was,
    when a projected point has a negative coordinate (left of or above the
    grid, or the (-1, -1) of a point behind the camera), and when the
    bounding box clipped to the grid is a single column or a single row:
    the three points in one column or one row, or a terminal one cell
    wide or high. *)
Theorem rasterize_skips r p1 p2 p3 charIndex normals light :
  (sx p1 < 0 \/ sy p1 < 0 \/ sx p2 < 0 \/ sy p2 < 0 \/ sx p3 < 0 \/ sy p3 < 0)
  \/ (sx p1 = sx p2 /\ sx p2 = sx p3)
  \/ (sy p1 = sy p2 /\ sy p2 = sy p3)
  \/ width r <= 1 \/ height r <= 1 ->
  rasterizeTriangle r p1 p2 p3 charIndex normals light = r.
Proof.
  intros H. unfold rasterizeTriangle.
  destruct ((sx p1 <? 0) || (sy p1 <? 0) || (sx p2 <? 0) || (sy p2 <? 0)
            || (sx p3 <? 0) || (sy p3 <? 0)) eqn:Eneg; [reflexivity |].
  cbn zeta.
  repeat (apply orb_false_iff in Eneg; destruct Eneg as [Eneg ?]).
  repeat match goal with
         | E : (_ <? _) = false |- _ => apply Z.ltb_ge in E
         end.
  destruct ((_ >=? _) || (_ >=? _)) eqn:Ebox; [reflexivity |].
  exfalso. apply orb_false_iff in Ebox as [Ex Ey].
  rewrite Z.geb_leb in Ex, Ey. apply Z.leb_gt in Ex, Ey.
  unfold min3, max3 in *. lia.
Qed.

Lemma rasterize_skips_witness :
  rasterizeTriangle grid2 (mkScreenPoint 0 0 1) (mkScreenPoint 0 1 1)
    (mkScreenPoint 0 1 1) 9 None None = grid2.
Proof.
  apply rasterize_skips. right. left. cbn. split; reflexivity.
Defined.

(** A triangle with a vertex at or behind the near limit of the camera
    (view depth plus camera distance at most 0.1) is not drawn. *)
Theorem behind_camera_draws_nothing r t M L cam :
  (z (applyMatrix (v1 t) M) + cam <= 0.1
   \/ z (applyMatrix (v2 t) M) + cam <= 0.1
   \/ z (applyMatrix (v3 t) M) + cam <= 0.1)%R ->
  drawTriangle r t M L cam = r.
Proof.
  intros H. unfold drawTriangle. cbn zeta.
  destruct (Rle_dec _ 0); [reflexivity |].
  apply rasterize_skips. left.
  unfold projectToScreen.
  destruct H as [H | [H | H]].
  - destruct (Rle_dec (z (applyMatrix (v1 t) M) + cam) 0.1);
      [cbn; lia | contradiction].
  - destruct (Rle_dec (z (applyMatrix (v2 t) M) + cam) 0.1);
      [cbn; lia | contradiction].
  - destruct (Rle_dec (z (applyMatrix (v3 t) M) + cam) 0.1);
      [cbn; lia | contradiction].
Qed.

Lemma behind_camera_draws_nothing_witness :
  drawTriangle grid2
    (newTriangle (mkVector3 0 0 (-3)) (mkVector3 1 0 0) (mkVector3 0 1 0)
                 (mkVector3 0 0 (-1)))%R
    NormalFacts.identity (mkVector3 0 0 (-1))%R 3%R
  = grid2.
Proof.
  apply behind_camera_draws_nothing. left.
  rewrite NormalFacts.applyMatrix_identity. cbn. lra.
Defined.

(** ** Depth within a frame *)

(** [a] is no farther than [b]. *)
Definition no_farther (a b : depth) : Prop :=
  match a, b with
  | _, PosInfinity => True
  | PosInfinity, Depth _ => False
  | Depth x, Depth y => (x <= y)%R
  end.

Lemma no_farther_refl a : no_farther a a.
Proof. destruct a; cbn; [exact I | lra]. Qed.

Lemma no_farther_trans a b c :
  no_farther a b -> no_farther b c -> no_farther a c.
Proof. destruct a, b, c; cbn; try tauto; lra. Qed.

Lemma rasterize_depth_no_farther r p1 p2 p3 charIndex normals light row col d :
  grid_get (depthBuffer r) row col = Some d ->
  exists d',
    grid_get (depthBuffer
                (rasterizeTriangle r p1 p2 p3 charIndex normals light))
             row col = Some d' /\
    no_farther d' d.
Proof.
  intros Hd.
  pose proof (rasterize_look p1 p2 p3 charIndex normals light r row col) as Hl.
  destruct (rasterized p1 p2 p3 r && in_box p1 p2 p3 r row col).
  - unfold shaded, look in Hl. rewrite Hd in Hl.
    destruct (isPointInTriangle col row p1 p2 p3); cbn [andb] in Hl.
    + destruct (depth_passes (flatDepth p1 p2 p3) (Some d)) eqn:Hp.
      * exists (Depth (flatDepth p1 p2 p3)).
        split; [now inversion Hl |].
        apply depth_passes_iff in Hp as [Hp | (s & Hs & Hlt)].
        -- injection Hp as ->. exact I.
        -- injection Hs as ->. cbn. unfold depthBias in Hlt. lra.
      * exists d. split; [now inversion Hl | apply no_farther_refl].
    + exists d. split; [now inversion Hl | apply no_farther_refl].
  - exists d. unfold look in Hl. rewrite Hd in Hl.
    split; [now inversion Hl | apply no_farther_refl].
Qed.

Lemma drawTriangle_depth_no_farther r t M L cam row col d :
  grid_get (depthBuffer r) row col = Some d ->
  exists d',
    grid_get (depthBuffer (drawTriangle r t M L cam)) row col = Some d' /\
    no_farther d' d.
Proof.
  intros Hd. unfold drawTriangle. cbn zeta.
  destruct (Rle_dec _ 0).
  - exists d. split; [exact Hd | apply no_farther_refl].
  - now apply rasterize_depth_no_farther.
Qed.

(** The triangles of a mesh drawn in order, as [tick] does between [clear]
    and [render]. *)
Definition draw_all (r : TerminalRenderer) (triangles : list (Triangle R))
    (M : Matrix) (L : Vec.t) (cam : R) : TerminalRenderer :=
  fold_left (fun r' t => drawTriangle r' t M L cam) triangles r.

(** Drawing never moves a cell's stored depth farther away: after any
    number of triangles a cell that had a depth entry still has one, and
    it is no farther than it was (an empty entry, +Infinity, counts as
    the farthest). *)
Theorem depth_never_recedes triangles :
  forall r M L cam row col d,
    grid_get (depthBuffer r) row col = Some d ->
    exists d',
      grid_get (depthBuffer (draw_all r triangles M L cam)) row col = Some d'
      /\ no_farther d' d.
Proof.
  induction triangles as [| t ts IH]; intros r M L cam row col d Hd.
  - exists d. split; [exact Hd | apply no_farther_refl].
  - cbn [draw_all fold_left].
    destruct (drawTriangle_depth_no_farther r t M L cam row col d Hd)
      as (d1 & H1 & Hle1).
    destruct (IH _ M L cam row col d1 H1) as (d2 & H2 & Hle2).
    exists d2. split; [exact H2 |].
    eapply no_farther_trans; eauto.
Qed.

Lemma depth_never_recedes_witness :
  exists d',
    grid_get (depthBuffer
                (draw_all (draw_far grid2)
                   [EndToEnd.near_plate; EndToEnd.far_plate]
                   NormalFacts.identity EndToEnd.light_front 3%R)) 0 0
    = Some d' /\ no_farther d' (Depth (flatDepth far1 far2 far3)).
Proof.
  apply depth_never_recedes.
  exact (look_depth _ _ _ _ _ _ _
           (passed_cell_written far1 far2 far3 9 None None grid2 0 0
              (-1) PosInfinity (-1) eq_refl eq_refl
              (eq_trans (isPointInTriangle_Z 0 0 far1 far2 far3) eq_refl)
              eq_refl eq_refl)
         : grid_get (depthBuffer (draw_far grid2)) 0 0
           = Some (Depth (flatDepth far1 far2 far3))).
Defined.

(** A cell is blank exactly when nothing was drawn over it: its index is
    the empty sentinel exactly when its depth is still infinite. *)
Definition blank_iff_infinite (r : TerminalRenderer) : Prop :=
  forall row col i d,
    grid_get (indexBuffer r) row col = Some i ->
    grid_get (depthBuffer r) row col = Some d ->
    (i = -1 <-> d = PosInfinity).

Lemma rasterize_blank_iff_infinite r p1 p2 p3 charIndex normals light :
  inv r -> drawn charIndex -> blank_iff_infinite r ->
  blank_iff_infinite (rasterizeTriangle r p1 p2 p3 charIndex normals light).
Proof.
  intros [_ Hprev] Hc Hb row col i d Hi Hd.
  pose proof (rasterize_look p1 p2 p3 charIndex normals light r row col) as Hl.
  unfold look in Hl. rewrite Hi, Hd in Hl.
  destruct (rasterized p1 p2 p3 r && in_box p1 p2 p3 r row col).
  - unfold shaded in Hl.
    destruct (isPointInTriangle col row p1 p2 p3
              && depth_passes (flatDepth p1 p2 p3)
                   (grid_get (depthBuffer r) row col)).
    + destruct (grid_get (indexBuffer r) row col) as [i0 |];
        [| discriminate].
      destruct (grid_get (depthBuffer r) row col) as [d0 |]; [| discriminate].
      cbn [overwrite] in Hl. injection Hl as Ei Ed _ _.
      assert (Hdr : drawn (blendedIdx
                             (prev_or_empty
                                (grid_get (prevIndexBuffer r) row col))
                             (effectiveIndex (usePerPixelLighting r) col row
                                p1 p2 p3 charIndex normals light))).
      { apply blendedIdx_drawn; [| now apply effectiveIndex_drawn].
        destruct (grid_get (prevIndexBuffer r) row col) as [p |] eqn:Ep;
          [| now left].
        exact (grid_get_all Z idx_ok _ _ _ _ Hprev Ep). }
      unfold drawn in Hdr. subst i d.
      split; [intros E; exfalso; lia | discriminate].
    + injection Hl as Ei Ed _ _. symmetry in Ei, Ed. exact (Hb _ _ _ _ Ei Ed).
  - injection Hl as Ei Ed _ _. symmetry in Ei, Ed. exact (Hb _ _ _ _ Ei Ed).
Qed.

(** After [clear] and any number of [drawTriangle] calls, a cell of the
    index grid is empty exactly when its depth entry is still infinite;
    this needs the previous-frame grid to hold only the sentinel and the
    indices 3..9, which every frame maintains. *)
Theorem blank_cells_have_infinite_depth r triangles M L cam :
  well_sized r -> inv r ->
  blank_iff_infinite (draw_all (clear r) triangles M L cam).
Proof.
  intros Hw Hinv.
  assert (H0 : blank_iff_infinite (clear r)).
  { intros row col i d Hi Hd.
    destruct (clear_resets_frame r Hw) as (Hidx & Hdep & _).
    rewrite (Hidx _ _ _ Hi), (Hdep _ _ _ Hd). tauto. }
  apply clear_inv in Hinv. revert H0 Hinv. generalize (clear r).
  induction triangles as [| t ts IH]; intros s Hb Hs; [exact Hb |].
  cbn [draw_all fold_left]. apply IH.
  - unfold drawTriangle. cbn zeta.
    destruct (Rle_dec _ 0); [exact Hb |].
    apply rasterize_blank_iff_infinite; try assumption.
    rewrite flatIntensity_spec. apply index_of_brightness.
  - now apply drawTriangle_inv.
Qed.

Lemma blank_cells_have_infinite_depth_witness :
  blank_iff_infinite
    (draw_all (clear grid2) [EndToEnd.far_plate; EndToEnd.near_plate]
              NormalFacts.identity EndToEnd.light_front 3%R).
Proof.
  apply blank_cells_have_infinite_depth;
    [apply new_well_sized | apply new_inv].
Defined.

(** ** Containment *)

Lemma weighted_between (w1 w2 w3 x1 x2 x3 lo hi total v : Z) :
  0 <= w1 -> 0 <= w2 -> 0 <= w3 ->
  w1 + w2 + w3 = total -> 0 < total ->
  total * v = w1 * x1 + w2 * x2 + w3 * x3 ->
  lo <= x1 <= hi -> lo <= x2 <= hi -> lo <= x3 <= hi ->
  lo <= v <= hi.
Proof.
  intros H1 H2 H3 Hsum Hpos Hv Hx1 Hx2 Hx3.
  assert (Hlo : total * lo <= total * v) by nia.
  assert (Hhi : total * v <= total * hi) by nia.
  split; nia.
Qed.

(** A cell the containment test accepts lies in the bounding box of the
    three points, so the rasterizer's restriction of its loops to that box
    leaves out no covered cell; and when the three points are not in one
    line, each of them is itself accepted. *)
Theorem contained_in_bounding_box px py p1 p2 p3 :
  (isPointInTriangle px py p1 p2 p3 = true ->
   min3 (sx p1) (sx p2) (sx p3) <= px <= max3 (sx p1) (sx p2) (sx p3) /\
   min3 (sy p1) (sy p2) (sy p3) <= py <= max3 (sy p1) (sy p2) (sy p3)) /\
  (denomZ p1 p2 p3 <> 0 ->
   isPointInTriangle (sx p1) (sy p1) p1 p2 p3 = true /\
   isPointInTriangle (sx p2) (sy p2) p1 p2 p3 = true /\
   isPointInTriangle (sx p3) (sy p3) p1 p2 p3 = true) /\
  (denomZ p1 p2 p3 = 0 -> isPointInTriangle px py p1 p2 p3 = false).
Proof.
  rewrite !isPointInTriangle_Z. unfold isPointInTriangleZ, denomZ.
  destruct p1 as [x1 y1 z1], p2 as [x2 y2 z2], p3 as [x3 y3 z3].
  cbn [sx sy]. cbn zeta.
  set (d := (y2 - y3) * (x1 - x3) + (x3 - x2) * (y1 - y3)).
  split; [| split].
  - set (na := (y2 - y3) * (px - x3) + (x3 - x2) * (py - y3)).
    set (nb := (y3 - y1) * (px - x3) + (x1 - x3) * (py - y3)).
    rewrite !andb_true_iff, negb_true_iff, Z.eqb_neq, !Z.leb_le.
    intros [[[Hd Ha] Hb] Hc].
    assert (Hdd : 0 < d * d) by nia.
    unfold min3, max3. split.
    + apply (weighted_between (na * d) (nb * d) ((d - na - nb) * d)
               x1 x2 x3 _ _ (d * d)); try assumption; try lia;
        unfold na, nb, d; ring.
    + apply (weighted_between (na * d) (nb * d) ((d - na - nb) * d)
               y1 y2 y3 _ _ (d * d)); try assumption; try lia;
        unfold na, nb, d; ring.
  - intros Hd.
    assert (Hdd : 0 <= d * d) by nia.
    repeat split; rewrite !andb_true_iff, negb_true_iff, Z.eqb_neq, !Z.leb_le;
      repeat split; try assumption;
      match goal with
      | |- 0 <= ?e =>
          first [ replace e with (d * d) by (unfold d; ring); exact Hdd
                | replace e with 0 by (unfold d; ring); lia ]
      end.
  - intros Hd. rewrite Hd. reflexivity.
Qed.

Lemma contained_in_bounding_box_witness :
  isPointInTriangle 0 0 far1 far2 far3 = true /\
  min3 (sx far1) (sx far2) (sx far3) <= 0 <= max3 (sx far1) (sx far2) (sx far3).
Proof.
  destruct (contained_in_bounding_box 0 0 far1 far2 far3) as (Hbox & Hv & _).
  assert (Hd : denomZ far1 far2 far3 <> 0) by (vm_compute; discriminate).
  destruct (Hv Hd) as (H1 & _).
  exact (conj H1 (proj1 (Hbox H1))).
Defined.

(** ** What [render] prints and hands on *)

Open Scope string_scope.

Definition line_feed : string := String (ascii_of_nat 10) EmptyString.

(** The text of a row of indices, and of a grid of them. *)
Definition row_text (row : list Z) : string :=
  fold_right (fun i s => glyph i ++ s) "" row.

Definition frame_text (g : grid Z) : string :=
  fold_right (fun row s => row_text row ++ line_feed ++ s) "" g.

Lemma append_assoc (a b c : string) : (a ++ b) ++ c = a ++ (b ++ c).
Proof. induction a as [| ch a IH]; cbn; [reflexivity | now rewrite IH]. Qed.

Lemma append_empty_r (a : string) : a ++ "" = a.
Proof. induction a as [| ch a IH]; cbn; [reflexivity | now rewrite IH]. Qed.

Lemma length_append (a b : string) :
  String.length (a ++ b) = (String.length a + String.length b)%nat.
Proof. induction a as [| ch a IH]; cbn; [reflexivity | now rewrite IH]. Qed.

Lemma carry_keeps row col r :
  indexBuffer (carry row col r) = indexBuffer r /\
  depthBuffer (carry row col r) = depthBuffer r /\
  buffer (carry row col r) = buffer r.
Proof.
  unfold carry, render_cell.
  destruct (grid_get (indexBuffer r) row col); cbn; auto.
Qed.

Lemma grid_get_nat (A : Type) (g : grid A) (row col : nat) :
  grid_get g (Z.of_nat row) (Z.of_nat col) =
  match nth_error g row with
  | Some r => nth_error r col
  | None => None
  end.
Proof.
  unfold grid_get.
  destruct (Z.ltb_spec (Z.of_nat row) 0); [lia |].
  destruct (Z.ltb_spec (Z.of_nat col) 0); [lia |].
  cbn [orb]. now rewrite !Nat2Z.id.
Qed.

(** The inner loop of [render] on the cells of a row still to print. *)
Lemma render_cells_text (row : nat) (cells : list Z) :
  forall todo done r line,
    nth_error (indexBuffer r) row = Some cells ->
    cells = (done ++ todo)%list ->
    let result :=
      for_count (render_cell (Z.of_nat row)) (Z.of_nat (List.length done))
                (List.length todo) (r, line) in
    snd result = line ++ row_text todo /\
    indexBuffer (fst result) = indexBuffer r /\
    shape (fst result) = shape r.
Proof.
  induction todo as [| i todo IH]; intros done r line Hrow Hcells; cbn zeta.
  - cbn. now rewrite append_empty_r.
  - cbn [List.length for_count].
    assert (Hget : grid_get (indexBuffer r) (Z.of_nat row)
                            (Z.of_nat (List.length done)) = Some i).
    { rewrite grid_get_nat, Hrow, Hcells.
      rewrite nth_error_app2 by lia. now rewrite Nat.sub_diag. }
    set (r1 := mkRenderer (width r) (height r) (usePerPixelLighting r)
                 (buffer r) (indexBuffer r)
                 (grid_set (prevIndexBuffer r) (Z.of_nat row)
                    (Z.of_nat (List.length done)) i)
                 (depthBuffer r)).
    assert (Hstep : render_cell (Z.of_nat row) (Z.of_nat (List.length done))
                      (r, line) = (r1, line ++ glyph i))
      by (unfold render_cell; now rewrite Hget).
    rewrite Hstep.
    specialize (IH (done ++ [i])%list r1 (line ++ glyph i)).
    rewrite length_app in IH. cbn [List.length] in IH.
    replace (Z.of_nat (List.length done) + 1)
      with (Z.of_nat (List.length done + 1)) by lia.
    destruct IH as (Htext & Hidx & Hshape).
    + exact Hrow.
    + rewrite <- app_assoc. exact Hcells.
    + cbn zeta in *. rewrite Htext, Hidx, Hshape.
      split; [| split; reflexivity].
      cbn [row_text fold_right]. apply append_assoc.
Qed.

(** The outer loop of [render] on the rows still to print. *)
Lemma render_rows_text (w : nat) :
  forall todo done r out,
    indexBuffer r = (done ++ todo)%list ->
    Forall (fun cells => List.length cells = w) todo ->
    Z.to_nat (width r) = w ->
    snd (for_count render_row (Z.of_nat (List.length done))
                   (List.length todo) (r, out))
    = out ++ frame_text todo.
Proof.
  induction todo as [| cells todo IH]; intros done r out Hgrid Hall Hw.
  - cbn. now rewrite append_empty_r.
  - cbn [List.length for_count].
    inversion Hall as [| ? ? Hlen Hrest]; subst.
    assert (Hrow : nth_error (indexBuffer r) (List.length done) = Some cells).
    { rewrite Hgrid, nth_error_app2 by lia. now rewrite Nat.sub_diag. }
    pose proof (render_cells_text (List.length done) cells cells [] r ""
                  Hrow eq_refl) as Hcells.
    cbn zeta in Hcells. cbn [List.length] in Hcells.
    unfold render_row at 2. unfold for_range.
    replace (Z.to_nat (width r - 1 - 0 + 1)) with (List.length cells) by lia.
    change (Z.of_nat 0) with 0 in Hcells.
    destruct (for_count (render_cell (Z.of_nat (List.length done))) 0
                (List.length cells) (r, "")) as [r1 line1].
    cbn [fst snd] in Hcells. destruct Hcells as (Hline & Hidx & Hshape).
    cbn [append] in Hline. subst line1.
    specialize (IH (done ++ [cells])%list r1
                   (out ++ row_text cells ++ line_feed)).
    rewrite length_app in IH. cbn [List.length] in IH.
    replace (Z.of_nat (List.length done) + 1)
      with (Z.of_nat (List.length done + 1)) by lia.
    fold line_feed. rewrite IH.
    + cbn [frame_text fold_right].
      now rewrite !append_assoc.
    + rewrite Hidx, Hgrid, <- app_assoc. reflexivity.
    + exact Hrest.
    + unfold shape in Hshape. injection Hshape as Ew _ _. now rewrite Ew.
Qed.

Lemma row_text_length (row : list Z) :
  Forall idx_ok row -> String.length (row_text row) = List.length row.
Proof.
  induction 1 as [| i row Hi _ IH]; [reflexivity |].
  cbn [row_text fold_right List.length]. fold (row_text row).
  rewrite length_append, IH. f_equal.
  destruct Hi as [-> | Hd]; [reflexivity |].
  destruct (drawn_glyph i Hd) as (c & Hc & _).
  unfold glyph. unfold drawn in Hd.
  destruct (Z.geb_spec i 0); [| lia]. now rewrite Hc.
Qed.

Lemma frame_text_length (w : nat) (g : grid Z) :
  Forall (fun cells => List.length cells = w) g ->
  grid_all Z idx_ok g ->
  String.length (frame_text g) = (List.length g * (w + 1))%nat.
Proof.
  unfold grid_all. induction g as [| cells g IH]; intros Hw Hok;
    [reflexivity |].
  inversion Hw; inversion Hok; subst.
  cbn [frame_text fold_right List.length]. fold (frame_text g).
  rewrite !length_append, IH, row_text_length by assumption.
  cbn [line_feed String.length]. lia.
Qed.

Lemma render_keeps r :
  indexBuffer (fst (render r)) = indexBuffer r /\
  depthBuffer (fst (render r)) = depthBuffer r /\
  buffer (fst (render r)) = buffer r.
Proof.
  unfold render, for_range.
  rewrite (render_rows_fst (width r)) by reflexivity.
  apply (for_count_invariant _
           (fun s => indexBuffer s = indexBuffer r /\
                     depthBuffer s = depthBuffer r /\
                     buffer s = buffer r)); [| auto].
  intros row s Hs.
  apply (for_count_invariant _
           (fun s => indexBuffer s = indexBuffer r /\
                     depthBuffer s = depthBuffer r /\
                     buffer s = buffer r)); [| exact Hs].
  intros col s' (Hi & Hd & Hb).
  destruct (carry_keeps row col s') as (Ei & Ed & Eb).
  rewrite Ei, Ed, Eb. auto.
Qed.

Lemma sized_ext (A : Type) h w (g1 g2 : grid A) :
  sized h w g1 -> sized h w g2 ->
  (forall row col, 0 <= row < h -> 0 <= col < w ->
     grid_get g1 row col = grid_get g2 row col) ->
  g1 = g2.
Proof.
  intros [Hl1 Ha1] [Hl2 Ha2] Hcells.
  apply nth_error_ext. intros n.
  destruct (nth_error g1 n) as [r1 |] eqn:E1.
  - assert (Hn : (n < List.length g1)%nat)
      by (apply nth_error_Some; congruence).
    destruct (nth_error g2 n) as [r2 |] eqn:E2.
    + f_equal. apply nth_error_ext. intros m.
      rewrite Forall_forall in Ha1, Ha2.
      pose proof (Ha1 r1 (nth_error_In _ _ E1)) as Hr1.
      pose proof (Ha2 r2 (nth_error_In _ _ E2)) as Hr2.
      destruct (Nat.lt_ge_cases m (Z.to_nat w)) as [Hm | Hm].
      * specialize (Hcells (Z.of_nat n) (Z.of_nat m) ltac:(lia) ltac:(lia)).
        now rewrite !grid_get_nat, E1, E2 in Hcells.
      * rewrite (proj2 (nth_error_None r1 m)) by lia.
        rewrite (proj2 (nth_error_None r2 m)) by lia. reflexivity.
    + apply nth_error_None in E2. lia.
  - apply nth_error_None in E1.
    symmetry. apply nth_error_None. lia.
Qed.

(** [render] on a renderer whose grids have its size prints the index
    grid row by row, each entry through the ramp (a blank for the empty
    sentinel) and each row followed by a line feed; it leaves the index,
    depth and character grids as they are and makes the previous-frame
    grid a copy of the index grid.  When the entries are the sentinel or
    ramp indices 3..9, the text is [height] lines of [width] characters. *)
Theorem render_prints_index_grid r :
  well_sized r ->
  snd (render r) = frame_text (indexBuffer r) /\
  prevIndexBuffer (fst (render r)) = indexBuffer r /\
  indexBuffer (fst (render r)) = indexBuffer r /\
  depthBuffer (fst (render r)) = depthBuffer r /\
  (inv r ->
   String.length (snd (render r))
   = (Z.to_nat (height r) * (Z.to_nat (width r) + 1))%nat).
Proof.
  intros Hw.
  pose proof Hw as (_ & [Hlen Hall] & Hp & _).
  assert (Htext : snd (render r) = frame_text (indexBuffer r)).
  { unfold render, for_range.
    replace (Z.to_nat (height r - 1 - 0 + 1))
      with (List.length (indexBuffer r)) by lia.
    exact (render_rows_text (Z.to_nat (width r)) (indexBuffer r) [] r ""
             eq_refl Hall eq_refl). }
  destruct (render_keeps r) as (Ei & Ed & _).
  split; [exact Htext |].
  split.
  { pose proof (render_well_sized r Hw) as (_ & _ & Hp' & _).
    pose proof (render_shape r) as Hs.
    assert (Hwh : width (fst (render r)) = width r
                  /\ height (fst (render r)) = height r)
      by (unfold shape in Hs; now inversion Hs).
    destruct Hwh as [Ew Eh]. rewrite Ew, Eh in Hp'.
    apply (sized_ext _ (height r) (width r)); [exact Hp' | split; assumption |].
    intros row col Hr Hc.
    pose proof (render_look r row col) as Hl.
    rewrite (proj2 (on_grid_iff r row col) (conj Hr Hc)) in Hl.
    destruct (sized_get _ _ _ _ row col (conj Hlen Hall) Hr Hc) as [i Hi].
    destruct (sized_get _ _ _ _ row col Hp Hr Hc) as [p Hpv].
    unfold look, carried in Hl. rewrite Hi, Hpv in Hl. cbn in Hl.
    injection Hl as _ _ Hprev _. now rewrite Hprev, Hi. }
  split; [exact Ei |]. split; [exact Ed |].
  intros [Hok _]. rewrite Htext.
  rewrite (frame_text_length (Z.to_nat (width r))) by assumption.
  now rewrite Hlen.
Qed.

Lemma render_prints_index_grid_witness :
  snd (render grid2) = frame_text (indexBuffer grid2) /\
  prevIndexBuffer (fst (render grid2)) = indexBuffer grid2.
Proof.
  destruct (render_prints_index_grid grid2 (new_well_sized 2 2 false))
    as (H1 & H2 & _).
  exact (conj H1 H2).
Defined.

(** The grids never change size: a new renderer's four grids have
    [height] rows of [width] cells, and [clear], [rasterizeTriangle],
    [drawTriangle], [render] and a whole frame keep it so; in such a
    renderer every cell of a triangle's clipped bounding box exists in the
    index, depth and previous-frame grids. *)
Theorem grids_keep_terminal_size :
  (forall w h f, well_sized (TerminalRenderer_new w h f)) /\
  (forall r, well_sized r -> well_sized (clear r)) /\
  (forall r p1 p2 p3 charIndex normals light,
     well_sized r ->
     well_sized (rasterizeTriangle r p1 p2 p3 charIndex normals light)) /\
  (forall r t M L cam, well_sized r -> well_sized (drawTriangle r t M L cam)) /\
  (forall r, well_sized r -> well_sized (fst (render r))) /\
  (forall r triangles M L cam,
     well_sized r ->
     well_sized (fst (frame r triangles M L cam)) /\
     shape (fst (frame r triangles M L cam)) = shape r) /\
  (forall r p1 p2 p3 row col,
     well_sized r -> in_box p1 p2 p3 r row col = true ->
     exists i d p,
       grid_get (indexBuffer r) row col = Some i /\
       grid_get (depthBuffer r) row col = Some d /\
       grid_get (prevIndexBuffer r) row col = Some p).
Proof.
  split; [apply new_well_sized |].
  split; [apply clear_well_sized |].
  split; [intros; now apply rasterize_well_sized |].
  split; [apply drawTriangle_well_sized |].
  split; [apply render_well_sized |].
  split.
  { intros r triangles M L cam Hw. unfold frame.
    assert (H : forall s, well_sized s -> shape s = shape r ->
                  well_sized (fold_left
                    (fun r' t => drawTriangle r' t M L cam) triangles s) /\
                  shape (fold_left
                    (fun r' t => drawTriangle r' t M L cam) triangles s)
                  = shape r).
    { induction triangles as [| t ts IH]; intros s Hs Es; [auto |].
      cbn [fold_left]. apply IH.
      - now apply drawTriangle_well_sized.
      - now rewrite EndToEnd.drawTriangle_shape. }
    destruct (H (clear r) (clear_well_sized r Hw) (clear_shape r)) as [H1 H2].
    split; [now apply render_well_sized | now rewrite render_shape]. }
  intros r p1 p2 p3 row col Hw Hbox.
  destruct (box_cells_exist p1 p2 p3 r row col Hw Hbox) as (i & d & p & Hl).
  exists i, d, p.
  split; [exact (look_index _ _ _ _ _ _ _ Hl) |].
  split; [exact (look_depth _ _ _ _ _ _ _ Hl)
         | exact (look_prev _ _ _ _ _ _ _ Hl)].
Qed.

Lemma grids_keep_terminal_size_witness :
  well_sized (fst (frame grid2 [EndToEnd.far_plate] NormalFacts.identity
                     EndToEnd.light_front 3%R)).
Proof.
  destruct grids_keep_terminal_size as (Hnew & _ & _ & _ & _ & Hframe & _).
  exact (proj1 (Hframe grid2 _ _ _ _ (Hnew 2 2 false))).
Defined.

End RendererFacts.

(** * More geometry: rotations, normals and the projection *)

Module GeometryFacts.

Import Render NormalFacts RotationFacts.
Open Scope R_scope.

(** ** Rotations are rigid *)

Lemma trig_one a : sin a * sin a + cos a * cos a = 1.
Proof. pose proof (sin2_cos2 a) as H. unfold Rsqr in H. exact H. Qed.

Lemma Rx_preserves_dot a u v :
  Vec.dot (applyMatrix u (Rx a)) (applyMatrix v (Rx a)) = Vec.dot u v.
Proof.
  pose proof (trig_one a) as H.
  destruct u as [ux uy uz], v as [vx vy vz].
  unfold Vec.dot, applyMatrix, Rx.
  cbn [x y z m00 m01 m02 m10 m11 m12 m20 m21 m22].
  replace (ux * vx + uy * vy + uz * vz)
    with (ux * vx + (uy * vy + uz * vz) * (sin a * sin a + cos a * cos a))
    by (rewrite H; ring).
  ring.
Qed.

Lemma Ry_preserves_dot a u v :
  Vec.dot (applyMatrix u (Ry a)) (applyMatrix v (Ry a)) = Vec.dot u v.
Proof.
  pose proof (trig_one a) as H.
  destruct u as [ux uy uz], v as [vx vy vz].
  unfold Vec.dot, applyMatrix, Ry.
  cbn [x y z m00 m01 m02 m10 m11 m12 m20 m21 m22].
  replace (ux * vx + uy * vy + uz * vz)
    with (uy * vy + (ux * vx + uz * vz) * (sin a * sin a + cos a * cos a))
    by (rewrite H; ring).
  ring.
Qed.

Lemma Rz_preserves_dot a u v :
  Vec.dot (applyMatrix u (Rz a)) (applyMatrix v (Rz a)) = Vec.dot u v.
Proof.
  pose proof (trig_one a) as H.
  destruct u as [ux uy uz], v as [vx vy vz].
  unfold Vec.dot, applyMatrix, Rz.
  cbn [x y z m00 m01 m02 m10 m11 m12 m20 m21 m22].
  replace (ux * vx + uy * vy + uz * vz)
    with (uz * vz + (ux * vx + uy * vy) * (sin a * sin a + cos a * cos a))
    by (rewrite H; ring).
  ring.
Qed.

Lemma length_dot v : Vec.length v = sqrt (Vec.dot v v).
Proof. reflexivity. Qed.

(** The matrix [createRotationMatrix] builds keeps dot products, and so
    lengths and right angles: rotating a mesh changes neither the size of
    a triangle nor the unit length of a normal. *)
Theorem rotation_preserves_dot ax ay az u v :
  let M := createRotationMatrix ax ay az in
  Vec.dot (applyMatrix u M) (applyMatrix v M) = Vec.dot u v /\
  Vec.length (applyMatrix v M) = Vec.length v /\
  Vec.length (Vec.subtract (applyMatrix u M) (applyMatrix v M))
  = Vec.length (Vec.subtract u v).
Proof.
  cbn zeta.
  assert (Hdot : forall p q,
            Vec.dot (applyMatrix p (createRotationMatrix ax ay az))
                    (applyMatrix q (createRotationMatrix ax ay az))
            = Vec.dot p q).
  { intros p q. rewrite createRotationMatrix_product, !applyMatrix_mmul.
    now rewrite Rx_preserves_dot, Ry_preserves_dot, Rz_preserves_dot. }
  split; [apply Hdot |].
  split; [now rewrite !length_dot, Hdot |].
  assert (Hlin : forall M p q,
            Vec.subtract (applyMatrix p M) (applyMatrix q M)
            = applyMatrix (Vec.subtract p q) M).
  { intros M p q. unfold Vec.subtract, applyMatrix. cbn [x y z].
    f_equal; ring. }
  now rewrite Hlin, !length_dot, Hdot.
Qed.

Lemma js_rem_zero b : js_rem 0 b = 0.
Proof.
  unfold js_rem, Ztrunc, Rdiv. rewrite Rmult_0_l.
  destruct (Rlt_dec 0 0); [lra |].
  change 0 with (IZR 0) at 3. rewrite ZfloorZ. cbn. ring.
Qed.

(** The rotation [tick] asks for, with the X and Z angles 0, is the
    rotation about the vertical axis alone: it leaves the y coordinate of
    every point as it is; and with all three angles 0 the matrix is the
    identity. *)
Theorem yaw_keeps_height angle v :
  createRotationMatrix 0 angle 0 = Ry (reduced angle) /\
  y (applyMatrix v (createRotationMatrix 0 angle 0)) = y v /\
  createRotationMatrix 0 0 0 = identity /\
  applyMatrix v (createRotationMatrix 0 0 0) = v.
Proof.
  assert (Hyaw : forall a, createRotationMatrix 0 a 0 = Ry (reduced a)).
  { intros a. unfold createRotationMatrix, Ry, reduced. cbn zeta.
    rewrite !js_rem_zero, cos_0, sin_0. f_equal; ring. }
  assert (Hid : createRotationMatrix 0 0 0 = identity).
  { rewrite Hyaw. unfold Ry, reduced, identity.
    rewrite js_rem_zero, cos_0, sin_0. f_equal; ring. }
  split; [apply Hyaw |].
  split.
  { rewrite Hyaw. unfold applyMatrix, Ry.
    cbn [x y z m00 m01 m02 m10 m11 m12 m20 m21 m22]. ring. }
  split; [exact Hid |].
  rewrite Hid. apply applyMatrix_identity.
Qed.

(** ** Computed normals *)

Definition negate (v : Vec.t) : Vec.t := Vec.multiply v (-1).

Lemma normalize_scale k v :
  0 < k -> Vec.normalize (Vec.multiply v k) = Vec.normalize v.
Proof.
  intros Hk. destruct v as [a b c].
  unfold Vec.normalize, Vec.multiply. cbn [x y z].
  replace (a * k * (a * k) + b * k * (b * k) + c * k * (c * k))
    with ((a * a + b * b + c * c) * (k * k)) by ring.
  assert (Hs : 0 <= a * a + b * b + c * c) by nra.
  rewrite sqrt_mult by nra.
  rewrite sqrt_square by lra.
  set (l := sqrt (a * a + b * b + c * c)).
  assert (Hl : 0 <= l) by apply sqrt_pos.
  destruct (Req_dec_T l 0) as [E | E].
  - rewrite E, Rmult_0_l.
    destruct (Req_dec_T 0 0); [reflexivity | contradiction].
  - destruct (Req_dec_T (l * k) 0) as [E' | _]; [nra |].
    f_equal; field; lra.
Qed.

Lemma normalize_negate v :
  Vec.normalize (negate v) = negate (Vec.normalize v).
Proof.
  destruct v as [a b c].
  unfold Vec.normalize, negate, Vec.multiply, Vec.zero. cbn [x y z].
  replace (a * -1 * (a * -1) + b * -1 * (b * -1) + c * -1 * (c * -1))
    with (a * a + b * b + c * c) by ring.
  destruct (Req_dec_T (sqrt (a * a + b * b + c * c)) 0) as [E | E].
  - cbn [x y z]. f_equal; ring.
  - cbn [x y z]. f_equal; field; exact E.
Qed.

(** The computed face normal is perpendicular to the two edges it is
    computed from; exchanging the second and third vertex reverses it;
    and it does not change when the triangle is moved, or scaled by a
    positive factor, which is why the loader's centring and scaling leave
    normals alone. *)
Theorem computed_normal_geometry a b c :
  Vec.dot (calculateNormal a b c) (Vec.subtract b a) = 0 /\
  Vec.dot (calculateNormal a b c) (Vec.subtract c a) = 0 /\
  calculateNormal a c b = negate (calculateNormal a b c) /\
  (forall d,
     calculateNormal (Vec.subtract a d) (Vec.subtract b d) (Vec.subtract c d)
     = calculateNormal a b c) /\
  (forall k, 0 < k ->
     calculateNormal (Vec.multiply a k) (Vec.multiply b k) (Vec.multiply c k)
     = calculateNormal a b c).
Proof.
  assert (Hperp : forall n e,
            Vec.dot n e = 0 -> Vec.dot (Vec.normalize n) e = 0).
  { intros n e H. unfold Vec.normalize. cbn zeta.
    destruct (Req_dec_T _ 0) as [E | E].
    - unfold Vec.dot, Vec.zero. cbn [x y z]. ring.
    - unfold Vec.dot in *. cbn [x y z].
      set (l := sqrt _) in *.
      replace (x n / l * x e + y n / l * y e + z n / l * z e)
        with ((x n * x e + y n * y e + z n * z e) / l) by (field; exact E).
      rewrite H. unfold Rdiv. ring. }
  split; [| split; [| split; [| split]]].
  - unfold calculateNormal. cbn zeta. apply Hperp.
    unfold Vec.dot, Vec.cross, Vec.subtract. cbn [x y z]. ring.
  - unfold calculateNormal. cbn zeta. apply Hperp.
    unfold Vec.dot, Vec.cross, Vec.subtract. cbn [x y z]. ring.
  - unfold calculateNormal. cbn zeta. rewrite <- normalize_negate. f_equal.
    unfold negate, Vec.multiply, Vec.cross, Vec.subtract. cbn [x y z].
    f_equal; ring.
  - intros d. unfold calculateNormal. cbn zeta. f_equal.
    unfold Vec.cross, Vec.subtract. cbn [x y z]. f_equal; ring.
  - intros k Hk. unfold calculateNormal. cbn zeta.
    rewrite <- (normalize_scale (k * k)
                  (Vec.cross (Vec.subtract b a) (Vec.subtract c a)))
      by nra.
    f_equal. unfold Vec.multiply, Vec.cross, Vec.subtract. cbn [x y z].
    f_equal; ring.
Qed.

Lemma computed_normal_geometry_witness :
  calculateNormal (Vec.multiply corner_a 2) (Vec.multiply corner_b 2)
                  (Vec.multiply corner_c 2)
  = calculateNormal corner_a corner_b corner_c.
Proof.
  destruct (computed_normal_geometry corner_a corner_b corner_c)
    as (_ & _ & _ & _ & Hscale).
  apply Hscale. lra.
Defined.

(** [normalize] returns a vector of length 1 or the zero vector, returns a
    unit vector unchanged, and so is idempotent. *)
Theorem normalize_idempotent v :
  (Vec.length (Vec.normalize v) = 1 \/ Vec.normalize v = Vec.zero) /\
  (Vec.length v = 1 -> Vec.normalize v = v) /\
  Vec.normalize (Vec.normalize v) = Vec.normalize v.
Proof.
  assert (Hunit : forall u, Vec.length u = 1 -> Vec.normalize u = u).
  { intros u Hu. destruct u as [a b c].
    unfold Vec.length, Vec.normalize in *. cbn [x y z] in *. rewrite Hu.
    destruct (Req_dec_T 1 0); [lra |]. f_equal; field. }
  assert (Hcases : Vec.length (Vec.normalize v) = 1
                   \/ Vec.normalize v = Vec.zero).
  { destruct (Req_dec_T (norm2 v) 0) as [E | E].
    - right. now apply normalize_zero.
    - left. now apply normalize_unit. }
  split; [exact Hcases |]. split; [apply Hunit |].
  destruct Hcases as [H | H].
  - now apply Hunit.
  - rewrite H. apply normalize_zero. unfold norm2, Vec.zero. cbn. ring.
Qed.

Lemma normalize_idempotent_witness :
  Vec.normalize (mkVector3 0 0 1) = mkVector3 0 0 1.
Proof.
  apply (proj1 (proj2 (normalize_idempotent (mkVector3 0 0 1)))).
  unfold Vec.length. cbn [x y z].
  replace (0 * 0 + 0 * 0 + 1 * 1) with 1 by ring. apply sqrt_1.
Defined.

End GeometryFacts.

(** * [main]: mesh preparation, keyboard and the frame loop *)

Module Main.

Import Render.
Open Scope string_scope.
Open Scope R_scope.

(** ** Vertex keys *)

Definition digits_of (n : Z) : string :=
  DecimalString.NilZero.string_of_uint (N.to_uint (Z.to_N n)).

Fixpoint zeros (k : nat) : string :=
  match k with
  | O => EmptyString
  | S k' => String "0" (zeros k')
  end.

(** [a.toFixed(f)] for a number below 10^21 in absolute value: the sign,
    then the integer [n] nearest to [|a| * 10^f] (the larger of two
    equally near), written with at least [f + 1] digits and a point
    before the last [f]. *)
Definition toFixed (a : R) (f : nat) : string :=
  let s := if Rlt_dec a 0 then "-" else "" in
  let a := if Rlt_dec a 0 then - a else a in
  let n := Zfloor (a * 10 ^ f + 1 / 2) in
  let m := digits_of n in
  let m :=
    if (String.length m <=? f)%nat
    then zeros (f + 1 - String.length m) ++ m else m in
  let k := String.length m in
  if (f =? 0)%nat then s ++ m
  else s ++ substring 0 (k - f) m ++ "." ++ substring (k - f) f m.

Definition keyOf (v : Vec.t) : string :=
  toFixed (x v) 5 ++ "," ++ toFixed (y v) 5 ++ "," ++ toFixed (z v) 5.

(** ** Smoothed vertex normals *)

Record Entry : Type := mkEntry { normalSum : Vec.t; count : nat }.

(** The [Map] from vertex keys to entries. *)
Definition VertexMap : Type := list (string * Entry).

Fixpoint map_get (k : string) (m : VertexMap) : option Entry :=
  match m with
  | [] => None
  | (k', e) :: m' => if String.eqb k k' then Some e else map_get k m'
  end.

Fixpoint map_set (k : string) (e : Entry) (m : VertexMap) : VertexMap :=
  match m with
  | [] => [(k, e)]
  | (k', e') :: m' =>
      if String.eqb k k' then (k, e) :: m' else (k', e') :: map_set k e m'
  end.

Definition corners (t : Triangle R) : list Vec.t := [v1 t; v2 t; v3 t].

(** The body of the inner [forEach] of the first pass. *)
Definition accumulate (n : Vec.t) (m : VertexMap) (v : Vec.t) : VertexMap :=
  let k := keyOf v in
  let entry :=
    match map_get k m with
    | Some e => e
    | None => mkEntry (mkVector3 0 0 0) 0
    end in
  map_set k (mkEntry (Vec.add (normalSum entry) n) (count entry + 1)) m.

Definition firstPass (triangles : list (Triangle R)) : VertexMap :=
  fold_left (fun m t => fold_left (accumulate (normal t)) (corners t) m)
            triangles [].

(** [vertexMap.get(k).normalSum.multiply(1 / vertexMap.get(k).count)
    .normalize()]; reading a property of a missing entry throws. *)
Definition averaged (m : VertexMap) (v : Vec.t) : result Vec.t :=
  match map_get (keyOf v) m with
  | Some e =>
      Ok (Vec.normalize (Vec.multiply (normalSum e) (1 / INR (count e))))
  | None => Throw TypeError
  end.

Definition secondPass (m : VertexMap) (t : Triangle R)
  : result (Triangle R) :=
  n1 <- averaged m (v1 t) ;;
  n2 <- averaged m (v2 t) ;;
  n3 <- averaged m (v3 t) ;;
  Ok (mkTriangle (v1 t) (v2 t) (v3 t) (normal t)
                 (Some n1) (Some n2) (Some n3)).

Fixpoint forEach {A B : Type} (f : A -> result B) (l : list A)
  : result (list B) :=
  match l with
  | [] => Ok []
  | a :: l' => b <- f a ;; bs <- forEach f l' ;; Ok (b :: bs)
  end.

Definition smoothNormals (triangles : list (Triangle R))
  : result (list (Triangle R)) :=
  forEach (secondPass (firstPass triangles)) triangles.

(** ** Centring and scaling *)

Definition with_corners (t : Triangle R) (f : Vec.t -> Vec.t) : Triangle R :=
  mkTriangle (f (v1 t)) (f (v2 t)) (f (v3 t)) (normal t)
             (vn1 t) (vn2 t) (vn3 t).

Definition allVertices (triangles : list (Triangle R)) : list Vec.t :=
  flat_map corners triangles.

Definition centerOf (triangles : list (Triangle R)) : Vec.t :=
  let vertices := allVertices triangles in
  Vec.multiply (fold_left Vec.add vertices (mkVector3 0 0 0))
               (1 / INR (List.length vertices)).

Definition centerMesh (triangles : list (Triangle R)) : list (Triangle R) :=
  let center := centerOf triangles in
  map (fun t => with_corners t (fun v => Vec.subtract v center)) triangles.

(** [Math.min(...values)] and [Math.max(...values)] of at least one value
    (of none, JavaScript gives an infinity, which only a mesh without
    triangles meets, where no vertex is left to scale). *)
Definition Math_min (values : list R) : R :=
  match values with
  | [] => 0
  | a :: rest => fold_left Rmin rest a
  end.

Definition Math_max (values : list R) : R :=
  match values with
  | [] => 0
  | a :: rest => fold_left Rmax rest a
  end.

Definition extent (axis : Vec.t -> R) (vertices : list Vec.t) : R :=
  Math_max (map axis vertices) - Math_min (map axis vertices).

Definition maxDimension (triangles : list (Triangle R)) : R :=
  let centeredVertices := allVertices triangles in
  Math_max [extent (fun v => x v) centeredVertices;
            extent (fun v => y v) centeredVertices;
            extent (fun v => z v) centeredVertices].

Definition scaleMesh (triangles : list (Triangle R)) : list (Triangle R) :=
  let scale := 1.5 / maxDimension triangles in
  map (fun t => with_corners t (fun v => Vec.multiply v scale)) triangles.

(** The mesh as [tick] draws it: smoothed, centred, scaled. *)
Definition prepare (triangles : list (Triangle R))
  : result (list (Triangle R)) :=
  smoothed <- smoothNormals triangles ;;
  Ok (scaleMesh (centerMesh smoothed)).

(** ** Keyboard *)

Definition row1 : string := "qwertyuiop".
Definition row2 : string := "asdfghjkl;".
Definition row3 : string := "zxcvbnm,./".

Definition angleForRowKey (row ch : string) : option R :=
  match index 0 ch row with
  | None => None
  | Some idx => Some (INR idx / INR (String.length row) * PI * 2)
  end.

(** [toLowerCase] on code units below 256: the letters A-Z and the
    accented capitals of Latin-1 move up by 32. *)
Definition lower (c : ascii) : ascii :=
  let n := nat_of_ascii c in
  if ((65 <=? n) && (n <=? 90)
      || (192 <=? n) && (n <=? 222) && negb (n =? 215))%nat
  then ascii_of_nat (n + 32) else c.

Fixpoint toLowerCase (s : string) : string :=
  match s with
  | EmptyString => EmptyString
  | String c r => String (lower c) (toLowerCase r)
  end.

Record Controls : Type := mkControls {
  currentAngle : R;
  currentLightDir : Vec.t;
  autoOrbit : bool
}.

Definition tiltY : R := 0.

Definition updateLightFromKeys (keyChar : string) (c : Controls) : Controls :=
  let ch := toLowerCase keyChar in
  let ang := angleForRowKey row1 ch in
  let ang := match ang with None => angleForRowKey row2 ch | _ => ang end in
  let ang := match ang with None => angleForRowKey row3 ch | _ => ang end in
  match ang with
  | Some a =>
      mkControls a (Vec.normalize (mkVector3 (cos a) 0 (sin a))) (autoOrbit c)
  | None => c
  end.

(** The key object [readline] hands to the listener. *)
Record Key : Type := mkKey {
  ctrl : bool;
  name : option string;
  sequence : option string
}.

(** White space that [parseInt] skips, among code units below 256. *)
Definition is_space (c : ascii) : bool :=
  Loader.is_ws c || (nat_of_ascii c =? 160)%nat.

Fixpoint skip_space (s : string) : string :=
  match s with
  | String c r => if is_space c then skip_space r else s
  | EmptyString => s
  end.

(** [parseInt(s, 10)]; [None] is [NaN], which is also what [undefined]
    gives. *)
Definition parseInt (s : option string) : option Z :=
  match s with
  | None => None
  | Some s =>
      let '(neg, r) := Loader.take_sign (skip_space s) in
      let '(v, len, _) := Loader.take_digits 0 0 r in
      match len with
      | O => None
      | S _ => Some (if neg then (- v)%Z else v)
      end
  end.

Definition name_is (key : option Key) (n : string) : bool :=
  match key with
  | Some k =>
      match name k with
      | Some n' => String.eqb n' n
      | None => false
      end
  | None => false
  end.

Inductive outcome : Type :=
| Interrupt
| Continue (c : Controls).

(** The [keypress] listener; [Interrupt] stands for the process sending
    itself SIGINT, whose handler restores the screen and exits. *)
Definition keypress (str : option string) (key : option Key) (c : Controls)
  : outcome :=
  if match key with Some k => ctrl k | None => false end && name_is key "c"
  then Interrupt
  else if name_is key "escape" then Interrupt
  else
    let c := mkControls (currentAngle c) (currentLightDir c) false in
    let num :=
      parseInt match key with Some k => sequence k | None => None end in
    let preset :=
      match num with
      | Some n => if ((1 <=? n) && (n <=? 8))%Z then Some n else None
      | None => None
      end in
    match preset with
    | Some n =>
        let step := (IZR n - 1) / 8 * PI * 2 in
        Continue
          (mkControls step
             (Vec.normalize (mkVector3 (cos step) tiltY (sin step))) false)
    | None =>
        match str with
        | Some s =>
            if (String.length s =? 1)%nat
            then Continue (updateLightFromKeys s c)
            else Continue c
        | None => Continue c
        end
    end.

(** ** The frame loop *)

Definition rotationSpeed : R := 0.04.
Definition cameraDistance : R := 3.0.

Record State : Type := mkState {
  rotationZ : R;
  controls : Controls;
  renderer : TerminalRenderer
}.

(** The state [main] starts the loop in, for a terminal of [w] columns
    and [h] rows. *)
Definition start (w h : Z) : State :=
  mkState 0
    (mkControls 0 (Vec.normalize (mkVector3 (cos 0) tiltY (sin 0))) false)
    (TerminalRenderer_new w h true).

Definition tick (triangles : list (Triangle R)) (s : State) : State * string :=
  let rotationZ := js_rem (rotationZ s + rotationSpeed) (2 * PI) in
  let rotationMatrix := createRotationMatrix 0 rotationZ 0 in
  let c :=
    if autoOrbit (controls s) then
      let a := PI / 4 - rotationZ * 0.5 in
      mkControls a (Vec.normalize (mkVector3 (cos a) tiltY (sin a))) true
    else controls s in
  let '(r, output) :=
    frame (renderer s) triangles rotationMatrix (currentLightDir c)
          cameraDistance in
  (mkState rotationZ c r, output).

(** What happens between two frames: key presses and timer ticks, until
    an interrupt. *)
Inductive event : Type :=
| Keypress (str : option string) (key : option Key)
| Tick.

Definition step (triangles : list (Triangle R)) (s : State) (e : event)
  : option State :=
  match e with
  | Keypress str key =>
      match keypress str key (controls s) with
      | Interrupt => None
      | Continue c => Some (mkState (rotationZ s) c (renderer s))
      end
  | Tick => Some (fst (tick triangles s))
  end.

Fixpoint run (triangles : list (Triangle R)) (s : State) (events : list event)
  : option State :=
  match events with
  | [] => Some s
  | e :: rest =>
      match step triangles s e with
      | Some s' => run triangles s' rest
      | None => None
      end
  end.

End Main.

(** * The prepared mesh *)

Module MeshFacts.
Import Render NormalFacts RotationFacts Main.
Open Scope R_scope.

Definition total (vectors : list Vec.t) : Vec.t :=
  fold_left Vec.add vectors (mkVector3 0 0 0).

Lemma vec_eq (u v : Vec.t) :
  x u = x v -> y u = y v -> z u = z v -> u = v.
Proof. destruct u, v. cbn. now intros -> -> ->. Qed.

Lemma total_from vectors s :
  fold_left Vec.add vectors s = Vec.add s (total vectors).
Proof.
  revert s. unfold total. induction vectors as [| n ns IH]; intros s.
  - cbn. apply vec_eq; cbn; ring.
  - cbn [fold_left]. rewrite IH. rewrite (IH (Vec.add _ n)).
    apply vec_eq; cbn; ring.
Qed.

Lemma total_cons v vectors : total (v :: vectors) = Vec.add v (total vectors).
Proof.
  unfold total at 1. cbn [fold_left]. rewrite total_from.
  apply vec_eq; cbn; ring.
Qed.

(** A square in the plane z = 0, cut into two triangles that face up. *)
Definition flat_a : Triangle R :=
  newTriangle (mkVector3 0 0 0) (mkVector3 1 0 0) (mkVector3 0 1 0)
              (mkVector3 0 0 1).
Definition flat_b : Triangle R :=
  newTriangle (mkVector3 1 0 0) (mkVector3 1 1 0) (mkVector3 0 1 0)
              (mkVector3 0 0 1).
Definition flat_mesh : list (Triangle R) := [flat_a; flat_b].

Lemma flat_mesh_corners :
  In (mkVector3 0 0 0) (allVertices flat_mesh) /\
  In (mkVector3 1 0 0) (allVertices flat_mesh) /\
  mkVector3 0 0 0 <> mkVector3 1 0 0 :> Vec.t.
Proof.
  split; [left; reflexivity |]. split; [right; left; reflexivity |].
  intros H. apply (f_equal (fun v => x v)) in H. cbn in H. lra.
Qed.

(** ** Centring *)

Lemma corners_with t f : corners (with_corners t f) = map f (corners t).
Proof. reflexivity. Qed.

Lemma allVertices_with triangles f :
  allVertices (map (fun t => with_corners t f) triangles)
  = map f (allVertices triangles).
Proof.
  unfold allVertices. induction triangles as [| t ts IH].
  - reflexivity.
  - cbn [map flat_map]. rewrite IH, map_app. reflexivity.
Qed.

Lemma total_subtract c vectors :
  total (map (fun v => Vec.subtract v c) vectors)
  = Vec.subtract (total vectors)
                 (Vec.multiply c (INR (List.length vectors))).
Proof.
  induction vectors as [| v vs IH].
  - apply vec_eq; cbn; ring.
  - cbn [map]. rewrite !total_cons, IH. cbn [List.length]. rewrite S_INR.
    apply vec_eq; cbn; ring.
Qed.

Lemma total_multiply s vectors :
  total (map (fun v => Vec.multiply v s) vectors)
  = Vec.multiply (total vectors) s.
Proof.
  induction vectors as [| v vs IH].
  - apply vec_eq; cbn; ring.
  - cbn [map]. rewrite !total_cons, IH. apply vec_eq; cbn; ring.
Qed.

Lemma allVertices_length triangles :
  List.length (allVertices triangles) = (3 * List.length triangles)%nat.
Proof.
  unfold allVertices. induction triangles as [| t ts IH].
  - reflexivity.
  - cbn [flat_map]. rewrite length_app, IH. cbn. lia.
Qed.

Lemma centered_total triangles :
  triangles <> [] -> total (allVertices (centerMesh triangles)) = Vec.zero.
Proof.
  intros Hne. unfold centerMesh. cbn zeta.
  rewrite allVertices_with, total_subtract. unfold centerOf. cbn zeta.
  fold (total (allVertices triangles)).
  assert (Hn : INR (List.length (allVertices triangles)) <> 0).
  { apply not_0_INR. rewrite allVertices_length.
    destruct triangles; [contradiction | cbn; lia]. }
  apply vec_eq; cbn; field; exact Hn.
Qed.

Lemma with_corners_id (t : Triangle R) f :
  (forall v, f v = v) -> with_corners t f = t.
Proof. intros H. destruct t. unfold with_corners. cbn. now rewrite !H. Qed.

Lemma map_with_corners_id triangles f :
  (forall v, f v = v) -> map (fun t => with_corners t f) triangles = triangles.
Proof.
  intros H. induction triangles as [| t ts IH]; [reflexivity |].
  cbn [map]. now rewrite IH, with_corners_id.
Qed.

(** Centring moves the mean of the vertices (each counted once per
    triangle that uses it) to the origin; it changes no normal and not
    the number of triangles, and a centred mesh is left as it is. *)
Theorem centring_moves_mean_to_origin triangles :
  triangles <> [] ->
  total (allVertices (centerMesh triangles)) = Vec.zero /\
  centerOf (centerMesh triangles) = Vec.zero /\
  centerMesh (centerMesh triangles) = centerMesh triangles /\
  map (fun t => (normal t, vn1 t, vn2 t, vn3 t)) (centerMesh triangles)
  = map (fun t => (normal t, vn1 t, vn2 t, vn3 t)) triangles.
Proof.
  intros Hne.
  assert (Hc : centerOf (centerMesh triangles) = Vec.zero).
  { unfold centerOf at 1. cbn zeta.
    fold (total (allVertices (centerMesh triangles))).
    rewrite centered_total by exact Hne. apply vec_eq; cbn; ring. }
  split; [now apply centered_total |]. split; [exact Hc |]. split.
  - unfold centerMesh at 1. cbn zeta. rewrite Hc.
    apply map_with_corners_id. intros v. apply vec_eq; cbn; ring.
  - unfold centerMesh. cbn zeta. rewrite map_map. reflexivity.
Qed.

Lemma centring_moves_mean_to_origin_witness :
  total (allVertices (centerMesh flat_mesh)) = Vec.zero.
Proof.
  apply (proj1 (centring_moves_mean_to_origin flat_mesh
                  ltac:(discriminate))).
Defined.

(** ** Bounding box *)

Lemma fold_Rmin_le rest : forall a,
  fold_left Rmin rest a <= a /\
  forall b, In b rest -> fold_left Rmin rest a <= b.
Proof.
  induction rest as [| c rest IH]; intros a.
  - cbn. split; [lra | tauto].
  - cbn [fold_left]. destruct (IH (Rmin a c)) as [H1 H2].
    pose proof (Rmin_l a c). pose proof (Rmin_r a c).
    split; [lra |]. intros b [<- | Hb]; [lra | now apply H2].
Qed.

Lemma fold_Rmax_ge rest : forall a,
  a <= fold_left Rmax rest a /\
  forall b, In b rest -> b <= fold_left Rmax rest a.
Proof.
  induction rest as [| c rest IH]; intros a.
  - cbn. split; [lra | tauto].
  - cbn [fold_left]. destruct (IH (Rmax a c)) as [H1 H2].
    pose proof (Rmax_l a c). pose proof (Rmax_r a c).
    split; [lra |]. intros b [<- | Hb]; [lra | now apply H2].
Qed.

Lemma Math_min_le values b : In b values -> Math_min values <= b.
Proof.
  destruct values as [| a rest]; [contradiction |].
  cbn [Math_min]. intros [<- | Hb].
  - apply (proj1 (fold_Rmin_le rest a)).
  - now apply (proj2 (fold_Rmin_le rest a)).
Qed.

Lemma Math_max_ge values b : In b values -> b <= Math_max values.
Proof.
  destruct values as [| a rest]; [contradiction |].
  cbn [Math_max]. intros [<- | Hb].
  - apply (proj1 (fold_Rmax_ge rest a)).
  - now apply (proj2 (fold_Rmax_ge rest a)).
Qed.

Lemma fold_Rmin_scale s rest : 0 <= s -> forall a,
  fold_left Rmin (map (fun b => b * s) rest) (a * s)
  = fold_left Rmin rest a * s.
Proof.
  intros Hs. induction rest as [| c rest IH]; intros a.
  - reflexivity.
  - cbn [map fold_left]. rewrite <- IH. f_equal.
    unfold Rmin. destruct (Rle_dec (a * s) (c * s)), (Rle_dec a c);
      try reflexivity; nra.
Qed.

Lemma fold_Rmax_scale s rest : 0 <= s -> forall a,
  fold_left Rmax (map (fun b => b * s) rest) (a * s)
  = fold_left Rmax rest a * s.
Proof.
  intros Hs. induction rest as [| c rest IH]; intros a.
  - reflexivity.
  - cbn [map fold_left]. rewrite <- IH. f_equal.
    unfold Rmax. destruct (Rle_dec (a * s) (c * s)), (Rle_dec a c);
      try reflexivity; nra.
Qed.

Lemma Math_min_scale s values :
  0 <= s -> Math_min (map (fun b => b * s) values) = Math_min values * s.
Proof.
  intros Hs. destruct values as [| a rest]; cbn [map Math_min].
  - ring.
  - now apply fold_Rmin_scale.
Qed.

Lemma Math_max_scale s values :
  0 <= s -> Math_max (map (fun b => b * s) values) = Math_max values * s.
Proof.
  intros Hs. destruct values as [| a rest]; cbn [map Math_max].
  - ring.
  - now apply fold_Rmax_scale.
Qed.

Definition axes : list (Vec.t -> R) :=
  [fun v => x v; fun v => y v; fun v => z v].

Lemma axis_multiply axis v s :
  In axis axes -> axis (Vec.multiply v s) = axis v * s.
Proof. intros [<- | [<- | [<- | []]]]; reflexivity. Qed.

Lemma extent_scale axis s vertices :
  In axis axes -> 0 <= s ->
  extent axis (map (fun v => Vec.multiply v s) vertices)
  = extent axis vertices * s.
Proof.
  intros Ha Hs. unfold extent. rewrite map_map.
  rewrite (map_ext (fun v => axis (Vec.multiply v s))
                   (fun v => axis v * s))
    by (intros v; now apply axis_multiply).
  rewrite <- (map_map axis (fun b => b * s)).
  rewrite Math_min_scale, Math_max_scale by exact Hs. ring.
Qed.

Lemma maxDimension_extent triangles axis :
  In axis axes -> extent axis (allVertices triangles) <= maxDimension triangles.
Proof.
  intros Ha. unfold maxDimension. cbn zeta. apply Math_max_ge.
  destruct Ha as [<- | [<- | [<- | []]]]; cbn; tauto.
Qed.

Lemma maxDimension_scale s triangles :
  0 <= s ->
  maxDimension (map (fun t => with_corners t (fun v => Vec.multiply v s))
                    triangles)
  = maxDimension triangles * s.
Proof.
  intros Hs. unfold maxDimension. cbn zeta. rewrite allVertices_with.
  rewrite !extent_scale by (cbn; tauto || exact Hs).
  set (l := allVertices triangles).
  change [extent (fun v => x v) l * s; extent (fun v => y v) l * s;
          extent (fun v => z v) l * s]
    with (map (fun b => b * s)
              [extent (fun v => x v) l; extent (fun v => y v) l;
               extent (fun v => z v) l]).
  now apply Math_max_scale.
Qed.

(** A sum of numbers that are all at least [lo] (at most [hi]). *)
Lemma axis_total axis vectors :
  In axis axes -> axis (total vectors) = fold_right Rplus 0 (map axis vectors).
Proof.
  intros Ha. induction vectors as [| v vs IH].
  - destruct Ha as [<- | [<- | [<- | []]]]; reflexivity.
  - rewrite total_cons. cbn [map fold_right]. rewrite <- IH.
    destruct Ha as [<- | [<- | [<- | []]]]; reflexivity.
Qed.

Lemma sum_bounds values lo hi :
  (forall b, In b values -> lo <= b <= hi) ->
  lo * INR (List.length values) <= fold_right Rplus 0 values
  <= hi * INR (List.length values).
Proof.
  induction values as [| a rest IH]; intros H.
  - cbn. lra.
  - cbn [fold_right List.length]. rewrite S_INR.
    destruct (H a (or_introl eq_refl)) as [Ha1 Ha2].
    destruct IH as [H1 H2]; [intros b Hb; apply H; now right |]. lra.
Qed.

Lemma mean_zero_straddles values :
  values <> [] -> fold_right Rplus 0 values = 0 ->
  Math_min values <= 0 <= Math_max values.
Proof.
  intros Hne Hsum.
  pose proof (sum_bounds values (Math_min values) (Math_max values)) as H.
  destruct H as [H1 H2].
  { intros b Hb. split; [now apply Math_min_le | now apply Math_max_ge]. }
  rewrite Hsum in H1, H2.
  assert (Hn : 0 < INR (List.length values)).
  { apply lt_0_INR. destruct values; [contradiction | cbn; lia]. }
  split; nra.
Qed.

Lemma centred_within_extent axis vertices v :
  In axis axes -> total vertices = Vec.zero -> In v vertices ->
  Rabs (axis v) <= extent axis vertices.
Proof.
  intros Ha Ht Hv. unfold extent.
  assert (Hin : In (axis v) (map axis vertices)) by now apply in_map.
  pose proof (Math_min_le _ _ Hin) as Hlo.
  pose proof (Math_max_ge _ _ Hin) as Hhi.
  destruct (mean_zero_straddles (map axis vertices)) as [H1 H2].
  - destruct vertices; [contradiction | discriminate].
  - rewrite <- axis_total by exact Ha. rewrite Ht.
    destruct Ha as [<- | [<- | [<- | []]]]; reflexivity.
  - apply Rabs_le. lra.
Qed.

Lemma differ_on_axis (u v : Vec.t) :
  u <> v -> exists axis, In axis axes /\ axis u <> axis v.
Proof.
  intros Hne.
  destruct (Req_dec_T (x u) (x v)) as [Ex | Ex];
    [| exists (fun v => x v); cbn; tauto].
  destruct (Req_dec_T (y u) (y v)) as [Ey | Ey];
    [| exists (fun v => y v); cbn; tauto].
  destruct (Req_dec_T (z u) (z v)) as [Ez | Ez];
    [| exists (fun v => z v); cbn; tauto].
  exfalso. apply Hne. now apply vec_eq.
Qed.

Lemma axis_subtract axis v c :
  In axis axes -> axis (Vec.subtract v c) = axis v - axis c.
Proof. intros [<- | [<- | [<- | []]]]; reflexivity. Qed.

Lemma distinct_vertices_extent triangles u v :
  In u (allVertices triangles) -> In v (allVertices triangles) -> u <> v ->
  0 < maxDimension (centerMesh triangles).
Proof.
  intros Hu Hv Hne.
  destruct (differ_on_axis u v Hne) as (axis & Ha & Hd).
  apply Rlt_le_trans
    with (extent axis (allVertices (centerMesh triangles)));
    [| now apply maxDimension_extent].
  unfold centerMesh. cbn zeta. rewrite allVertices_with.
  set (c := centerOf triangles).
  set (l := map axis (map (fun w => Vec.subtract w c) (allVertices triangles))).
  assert (Hin : forall w, In w (allVertices triangles) ->
                  Math_min l <= axis w - axis c <= Math_max l).
  { intros w Hw.
    assert (In (axis w - axis c) l).
    { unfold l. rewrite <- (axis_subtract axis w c Ha).
      apply in_map. now apply (in_map (fun w => Vec.subtract w c)). }
    split; [now apply Math_min_le | now apply Math_max_ge]. }
  unfold extent. fold l.
  pose proof (Hin u Hu) as Bu. pose proof (Hin v Hv) as Bv.
  destruct (Rtotal_order (axis u) (axis v)) as [Hlt | [Heq | Hgt]]; lra.
Qed.

Lemma Rabs_le_both a b : Rabs a <= b -> - b <= a <= b.
Proof. unfold Rabs. destruct (Rcase_abs a); lra. Qed.

Lemma in_allVertices triangles t v :
  In t triangles -> In v (corners t) -> In v (allVertices triangles).
Proof. intros Ht Hv. apply in_flat_map. now exists t. Qed.

Lemma scaling_box triangles :
  0 < maxDimension triangles ->
  maxDimension (scaleMesh triangles) = 1.5 /\
  (total (allVertices triangles) = Vec.zero ->
   total (allVertices (scaleMesh triangles)) = Vec.zero /\
   forall v, In v (allVertices (scaleMesh triangles)) ->
     Rabs (x v) <= 1.5 /\ Rabs (y v) <= 1.5 /\ Rabs (z v) <= 1.5).
Proof.
  intros Hpos.
  assert (Hs : 0 <= 1.5 / maxDimension triangles).
  { apply Rlt_le, Rdiv_lt_0_compat; lra. }
  assert (Hmax : maxDimension (scaleMesh triangles) = 1.5).
  { unfold scaleMesh. cbn zeta. rewrite maxDimension_scale by exact Hs.
    field. lra. }
  split; [exact Hmax |].
  intros Hc.
  assert (Hc' : total (allVertices (scaleMesh triangles)) = Vec.zero).
  { unfold scaleMesh. cbn zeta. rewrite allVertices_with, total_multiply, Hc.
    apply vec_eq; cbn; ring. }
  split; [exact Hc' |]. intros v Hv.
  assert (Hb : forall axis, In axis axes -> Rabs (axis v) <= 1.5).
  { intros axis Ha. rewrite <- Hmax.
    apply Rle_trans
      with (extent axis (allVertices (scaleMesh triangles))).
    - apply centred_within_extent; assumption.
    - apply maxDimension_extent; assumption. }
  repeat split.
  - apply (Hb (fun v => x v)). cbn. tauto.
  - apply (Hb (fun v => y v)). cbn. tauto.
  - apply (Hb (fun v => z v)). cbn. tauto.
Qed.

(** Scaling a mesh that is not a single point makes its largest extent
    along the axes exactly 1.5 and keeps the mean of the vertices at the
    origin when it was there; every coordinate of a centred and scaled
    mesh is then at most 1.5 in absolute value.  No normal changes. *)
Theorem scaling_fits_box triangles :
  0 < maxDimension triangles ->
  maxDimension (scaleMesh triangles) = 1.5 /\
  (total (allVertices triangles) = Vec.zero ->
   total (allVertices (scaleMesh triangles)) = Vec.zero /\
   forall v, In v (allVertices (scaleMesh triangles)) ->
     Rabs (x v) <= 1.5 /\ Rabs (y v) <= 1.5 /\ Rabs (z v) <= 1.5) /\
  map (fun t => (normal t, vn1 t, vn2 t, vn3 t)) (scaleMesh triangles)
  = map (fun t => (normal t, vn1 t, vn2 t, vn3 t)) triangles.
Proof.
  intros Hpos. destruct (scaling_box triangles Hpos) as [Hmax Hbox].
  split; [exact Hmax |]. split; [exact Hbox |].
  unfold scaleMesh. cbn zeta. rewrite map_map. reflexivity.
Qed.

Lemma scaling_fits_box_witness :
  maxDimension (scaleMesh (centerMesh flat_mesh)) = 1.5.
Proof.
  destruct flat_mesh_corners as (Hu & Hv & Hne).
  apply (proj1 (scaling_fits_box (centerMesh flat_mesh)
                  (distinct_vertices_extent flat_mesh _ _ Hu Hv Hne))).
Defined.

End MeshFacts.

(** * Smoothed vertex normals *)

Module SmoothingFacts.
Import Render NormalFacts Main MeshFacts.
Open Scope R_scope.

Lemma map_get_set k k' e m :
  map_get k (map_set k' e m) = if String.eqb k k' then Some e else map_get k m.
Proof.
  induction m as [| [k0 e0] m IH]; cbn.
  - reflexivity.
  - destruct (String.eqb k' k0) eqn:E0; cbn.
    + apply String.eqb_eq in E0. subst k0.
      destruct (String.eqb k k'); reflexivity.
    + destruct (String.eqb k k0) eqn:E1.
      * destruct (String.eqb k k') eqn:E2; [| reflexivity].
        apply String.eqb_eq in E1, E2. subst.
        rewrite String.eqb_refl in E0. discriminate.
      * exact IH.
Qed.

(** Every use of a vertex in the mesh, in the order of the first pass:
    the key of the vertex and the face normal of its triangle. *)
Definition occurrences (triangles : list (Triangle R))
  : list (string * Vec.t) :=
  flat_map (fun t => map (fun v => (keyOf v, normal t)) (corners t))
           triangles.

(** The face normals of the triangles that use a vertex with key [k],
    once per use. *)
Definition sharing (k : string) (triangles : list (Triangle R))
  : list Vec.t :=
  map snd (filter (fun p => String.eqb k (fst p)) (occurrences triangles)).

(** The normalized mean of the face normals around a vertex key. *)
Definition smoothed (k : string) (triangles : list (Triangle R)) : Vec.t :=
  let normals := sharing k triangles in
  Vec.normalize
    (Vec.multiply (total normals) (1 / INR (List.length normals))).

Definition record_use (m : VertexMap) (p : string * Vec.t) : VertexMap :=
  let entry :=
    match map_get (fst p) m with
    | Some e => e
    | None => mkEntry (mkVector3 0 0 0) 0
    end in
  map_set (fst p)
          (mkEntry (Vec.add (normalSum entry) (snd p)) (count entry + 1)) m.

Lemma firstPass_uses triangles m :
  fold_left (fun m t => fold_left (accumulate (normal t)) (corners t) m)
            triangles m
  = fold_left record_use (occurrences triangles) m.
Proof.
  revert m. induction triangles as [| t ts IH]; intros m.
  - reflexivity.
  - cbn [fold_left occurrences flat_map]. rewrite fold_left_app.
    fold (occurrences ts). rewrite <- IH. reflexivity.
Qed.

Definition bump (k : string) (oe : option Entry) (p : string * Vec.t)
  : option Entry :=
  if String.eqb k (fst p) then
    let entry :=
      match oe with
      | Some e => e
      | None => mkEntry (mkVector3 0 0 0) 0
      end in
    Some (mkEntry (Vec.add (normalSum entry) (snd p)) (count entry + 1))
  else oe.

Lemma map_get_uses k uses m :
  map_get k (fold_left record_use uses m)
  = fold_left (bump k) uses (map_get k m).
Proof.
  revert m. induction uses as [| p uses IH]; intros m.
  - reflexivity.
  - cbn [fold_left]. rewrite IH. f_equal.
    unfold record_use, bump. rewrite map_get_set.
    destruct (String.eqb k (fst p)) eqn:E; [| reflexivity].
    apply String.eqb_eq in E. subst k. reflexivity.
Qed.

Definition matching (k : string) (uses : list (string * Vec.t)) : list Vec.t :=
  map snd (filter (fun p => String.eqb k (fst p)) uses).

Lemma bump_matching k uses s c :
  fold_left (bump k) uses (Some (mkEntry s c))
  = Some (mkEntry (fold_left Vec.add (matching k uses) s)
                  (c + List.length (matching k uses))).
Proof.
  revert s c. induction uses as [| p uses IH]; intros s c.
  - cbn. do 2 f_equal. lia.
  - cbn [fold_left]. unfold bump at 2, matching. cbn [filter].
    destruct (String.eqb k (fst p)).
    + cbn [normalSum count map fold_left List.length]. rewrite IH.
      unfold matching. do 2 f_equal. lia.
    + apply IH.
Qed.

Lemma bump_none k uses :
  fold_left (bump k) uses None
  = match matching k uses with
    | [] => None
    | _ => Some (mkEntry (total (matching k uses))
                         (List.length (matching k uses)))
    end.
Proof.
  induction uses as [| p uses IH].
  - reflexivity.
  - cbn [fold_left]. unfold bump at 2, matching. cbn [filter].
    destruct (String.eqb k (fst p)).
    + cbn [normalSum count map]. rewrite bump_matching.
      unfold total, matching. cbn [fold_left List.length].
      do 2 f_equal.
    + exact IH.
Qed.

Lemma firstPass_get k triangles :
  map_get k (firstPass triangles)
  = match sharing k triangles with
    | [] => None
    | _ => Some (mkEntry (total (sharing k triangles))
                         (List.length (sharing k triangles)))
    end.
Proof.
  unfold firstPass. rewrite firstPass_uses, map_get_uses. cbn [map_get].
  apply bump_none.
Qed.

Lemma corner_shared t v triangles :
  In t triangles -> In v (corners t) ->
  In (normal t) (sharing (keyOf v) triangles).
Proof.
  intros Ht Hv. unfold sharing.
  apply (in_map snd _ (keyOf v, normal t)).
  apply filter_In. split; [| apply String.eqb_refl].
  unfold occurrences. apply in_flat_map. exists t. split; [exact Ht |].
  now apply (in_map (fun v => (keyOf v, normal t))).
Qed.

Lemma averaged_smoothed t v triangles :
  In t triangles -> In v (corners t) ->
  averaged (firstPass triangles) v = Ok (smoothed (keyOf v) triangles).
Proof.
  intros Ht Hv. unfold averaged. rewrite firstPass_get.
  pose proof (corner_shared t v triangles Ht Hv) as Hin.
  destruct (sharing (keyOf v) triangles) as [| n ns] eqn:E;
    [contradiction |].
  cbn [normalSum count]. unfold smoothed. now rewrite E.
Qed.

Definition smoothedTriangle (triangles : list (Triangle R)) (t : Triangle R)
  : Triangle R :=
  mkTriangle (v1 t) (v2 t) (v3 t) (normal t)
    (Some (smoothed (keyOf (v1 t)) triangles))
    (Some (smoothed (keyOf (v2 t)) triangles))
    (Some (smoothed (keyOf (v3 t)) triangles)).

Lemma forEach_map {A B : Type} (f : A -> result B) (g : A -> B) l :
  (forall a, In a l -> f a = Ok (g a)) -> forEach f l = Ok (map g l).
Proof.
  induction l as [| a l IH]; intros H.
  - reflexivity.
  - cbn [forEach map]. rewrite (H a (or_introl eq_refl)). cbn [bind].
    rewrite IH by (intros b Hb; apply H; now right). reflexivity.
Qed.

Lemma smoothNormals_map triangles :
  smoothNormals triangles = Ok (map (smoothedTriangle triangles) triangles).
Proof.
  unfold smoothNormals. apply forEach_map. intros t Ht.
  unfold secondPass, smoothedTriangle.
  rewrite (averaged_smoothed t (v1 t) triangles Ht) by (cbn; tauto).
  rewrite (averaged_smoothed t (v2 t) triangles Ht) by (cbn; tauto).
  rewrite (averaged_smoothed t (v3 t) triangles Ht) by (cbn; tauto).
  reflexivity.
Qed.

Lemma total_same n normals :
  (forall n', In n' normals -> n' = n) ->
  total normals = Vec.multiply n (INR (List.length normals)).
Proof.
  induction normals as [| a ns IH]; intros H.
  - unfold total, Vec.multiply. cbn. f_equal; ring.
  - unfold total. cbn [fold_left]. rewrite total_from.
    rewrite IH by (intros n' Hn; apply H; now right).
    rewrite (H a (or_introl eq_refl)).
    cbn [List.length]. rewrite S_INR.
    destruct n. unfold Vec.add, Vec.multiply. cbn. f_equal; ring.
Qed.

Lemma normalize_of_unit u : Vec.length u = 1 -> Vec.normalize u = u.
Proof.
  intros Hu. destruct u as [a b c].
  unfold Vec.length, Vec.normalize in *. cbn [x y z] in *. rewrite Hu.
  destruct (Req_dec_T 1 0); [lra |]. f_equal; field.
Qed.

(** Vertex-normal smoothing never fails; it leaves the vertices and the
    face normal of every triangle alone and sets each of its three vertex
    normals to the normalized mean of the face normals of all triangles
    that use a vertex with the same key, counted once per use.  Such a
    normal has length 1 or is the zero vector; vertices with the same key
    get the same normal; and where all the triangles around a vertex have
    the same unit face normal the vertex normal is that normal. *)
Theorem smoothing_averages_shared_normals triangles :
  smoothNormals triangles = Ok (map (smoothedTriangle triangles) triangles) /\
  (forall k, Vec.length (smoothed k triangles) = 1
             \/ smoothed k triangles = Vec.zero) /\
  (forall t v n, In t triangles -> In v (corners t) ->
     Vec.length n = 1 ->
     (forall n', In n' (sharing (keyOf v) triangles) -> n' = n) ->
     smoothed (keyOf v) triangles = n /\ normal t = n).
Proof.
  split; [apply smoothNormals_map |]. split.
  - intros k. unfold smoothed. cbn zeta. set (s := Vec.multiply _ _).
    destruct (Req_dec_T (norm2 s) 0) as [E | E].
    + right. now apply normalize_zero.
    + left. now apply normalize_unit.
  - intros t v n Ht Hv Hn Hall.
    pose proof (corner_shared t v triangles Ht Hv) as Hin.
    split; [| now apply Hall].
    unfold smoothed. cbn zeta. rewrite (total_same n) by exact Hall.
    set (c := List.length _).
    assert (Hc : (0 < c)%nat).
    { unfold c. destruct (sharing (keyOf v) triangles);
        [contradiction | cbn; lia]. }
    assert (Hc' : INR c <> 0) by (apply not_0_INR; lia).
    replace (Vec.multiply (Vec.multiply n (INR c)) (1 / INR c)) with n.
    + now apply normalize_of_unit.
    + destruct n. unfold Vec.multiply. cbn. f_equal; field; exact Hc'.
Qed.

Lemma sharing_normals k triangles n :
  In n (sharing k triangles) -> exists t, In t triangles /\ n = normal t.
Proof.
  unfold sharing, occurrences. intros H.
  apply in_map_iff in H as ([k' n'] & <- & H).
  apply filter_In in H as [H _].
  apply in_flat_map in H as (t & Ht & H).
  apply in_map_iff in H as (v & E & _).
  exists t. split; [exact Ht |]. now injection E as _ <-.
Qed.

Lemma smoothing_averages_shared_normals_witness :
  smoothed (keyOf (v1 flat_a)) flat_mesh = mkVector3 0 0 1 /\
  normal flat_a = mkVector3 0 0 1.
Proof.
  apply (proj2 (proj2 (smoothing_averages_shared_normals flat_mesh))
           flat_a (v1 flat_a) (mkVector3 0 0 1)).
  - left. reflexivity.
  - left. reflexivity.
  - unfold Vec.length. cbn [x y z].
    replace (0 * 0 + 0 * 0 + 1 * 1) with 1 by ring. apply sqrt_1.
  - intros n Hn. apply sharing_normals in Hn as (t & Ht & ->).
    destruct Ht as [<- | [<- | []]]; reflexivity.
Defined.

End SmoothingFacts.

(** * The mesh in front of the camera *)

Module PrepareFacts.
Import Render NormalFacts RotationFacts GeometryFacts Main MeshFacts
  SmoothingFacts.
Open Scope R_scope.

Lemma rotation_dot ax ay az p q :
  Vec.dot (applyMatrix p (createRotationMatrix ax ay az))
          (applyMatrix q (createRotationMatrix ax ay az))
  = Vec.dot p q.
Proof.
  rewrite createRotationMatrix_product, !applyMatrix_mmul.
  now rewrite Rx_preserves_dot, Ry_preserves_dot, Rz_preserves_dot.
Qed.

Lemma allVertices_smoothed triangles ts :
  allVertices (map (smoothedTriangle triangles) ts) = allVertices ts.
Proof.
  unfold allVertices. induction ts as [| t ts IH]; [reflexivity |].
  cbn [map flat_map]. now rewrite IH.
Qed.

(** A mesh with two distinct vertex positions is prepared without error:
    the result has the triangles in the same order, the mean of its
    vertices at the origin and 1.5 as its largest extent along the axes.
    Whatever the rotation, every vertex of it then lies between 0.4 and
    5.6 in front of the camera at distance 3, so the near-plane test of
    [projectToScreen] never rejects a vertex of the prepared mesh. *)
Theorem prepared_mesh_stays_in_front_of_camera triangles u v :
  In u (allVertices triangles) -> In v (allVertices triangles) -> u <> v ->
  exists mesh,
    prepare triangles = Ok mesh /\
    List.length mesh = List.length triangles /\
    total (allVertices mesh) = Vec.zero /\
    maxDimension mesh = 1.5 /\
    forall t p ax ay az,
      In t mesh -> In p (corners t) ->
      let q := applyMatrix p (createRotationMatrix ax ay az) in
      Vec.length q = Vec.length p /\
      0.4 < z q + cameraDistance < 5.6.
Proof.
  intros Hu Hv Hne.
  set (sm := map (smoothedTriangle triangles) triangles).
  assert (Hpos : 0 < maxDimension (centerMesh sm)).
  { apply (distinct_vertices_extent sm u v); unfold sm;
      rewrite ?allVertices_smoothed; assumption. }
  assert (Hsm : sm <> []).
  { unfold sm. destruct triangles; [contradiction | discriminate]. }
  destruct (scaling_box (centerMesh sm) Hpos) as (Hmax & Hbox).
  destruct (Hbox (centered_total sm Hsm)) as (Hzero & Hin).
  exists (scaleMesh (centerMesh sm)).
  split; [unfold prepare; now rewrite smoothNormals_map |].
  split; [unfold scaleMesh, centerMesh, sm; now rewrite !length_map |].
  split; [exact Hzero |]. split; [exact Hmax |].
  intros t p ax ay az Ht Hp. cbn zeta.
  pose proof (rotation_dot ax ay az p p) as Hdot.
  set (q := applyMatrix p (createRotationMatrix ax ay az)) in *.
  split; [unfold Vec.length; fold (Vec.dot q q) (Vec.dot p p);
          now rewrite Hdot |].
  destruct (Hin p (in_allVertices _ t p Ht Hp)) as (Hx & Hy & Hz).
  apply Rabs_le_both in Hx, Hy, Hz.
  unfold Vec.dot in Hdot. unfold cameraDistance.
  assert (Hq : z q * z q <= 6.75) by nra.
  split; nra.
Qed.

Lemma prepared_mesh_stays_in_front_of_camera_witness :
  exists mesh, prepare flat_mesh = Ok mesh /\ maxDimension mesh = 1.5.
Proof.
  destruct flat_mesh_corners as (Hu & Hv & Hne).
  destruct (prepared_mesh_stays_in_front_of_camera flat_mesh _ _ Hu Hv Hne)
    as (mesh & Hp & _ & _ & Hmax & _).
  exists mesh. split; [exact Hp | exact Hmax].
Defined.

End PrepareFacts.

(** * Keyboard and frame loop *)

Module ControlFacts.
Import Render NormalFacts RotationFacts FrameFacts Main.
Open Scope R_scope.

(** The horizontal ring the light moves on. *)
Definition ring (a : R) : Vec.t := mkVector3 (cos a) 0 (sin a).

Lemma normalize_ring a :
  Vec.normalize (mkVector3 (cos a) 0 (sin a)) = ring a.
Proof.
  unfold Vec.normalize, ring. cbn [x y z].
  replace (cos a * cos a + 0 * 0 + sin a * sin a) with 1
    by (pose proof (sin2_cos2 a) as H; unfold Rsqr in H; lra).
  rewrite sqrt_1. destruct (Req_dec_T 1 0); [lra |]. f_equal; field.
Qed.

Lemma ring_length a : Vec.length (ring a) = 1.
Proof.
  unfold Vec.length, ring. cbn [x y z].
  replace (cos a * cos a + 0 * 0 + sin a * sin a) with 1
    by (pose proof (sin2_cos2 a) as H; unfold Rsqr in H; lra).
  apply sqrt_1.
Qed.

Lemma lower_idempotent c : lower (lower c) = lower c.
Proof. destruct c as [[] [] [] [] [] [] [] []]; reflexivity. Qed.

Lemma toLowerCase_idempotent s : toLowerCase (toLowerCase s) = toLowerCase s.
Proof.
  induction s as [| c s IH]; [reflexivity |].
  cbn [toLowerCase]. now rewrite lower_idempotent, IH.
Qed.

Lemma index_found s1 s2 m :
  index 0 s1 s2 = Some m -> m = 0%nat \/ (m < String.length s2)%nat.
Proof.
  destruct s1 as [| a s1].
  - destruct s2; cbn [index prefix]; intros [= <-]; now left.
  - revert m. induction s2 as [| b s2 IH]; intros m H.
    + discriminate.
    + cbn [index] in H. destruct (prefix (String a s1) (String b s2)).
      * injection H as <-. now left.
      * destruct (index 0 (String a s1) s2) as [k |] eqn:Ek; [| discriminate].
        injection H as <-. right. cbn [String.length].
        destruct (IH k eq_refl) as [E0 | Hk].
        -- subst k. destruct s2; [discriminate Ek | cbn; lia].
        -- lia.
Qed.

Lemma angleForRowKey_range row ch a :
  String.length row = 10%nat -> angleForRowKey row ch = Some a ->
  0 <= a < 2 * PI.
Proof.
  intros Hlen. unfold angleForRowKey.
  destruct (index 0 ch row) as [idx |] eqn:E; [| discriminate].
  intros H. injection H as <-. rewrite Hlen.
  assert (Hi : (idx < 10)%nat).
  { destruct (index_found _ _ _ E) as [-> | Hi]; lia. }
  pose proof PI_RGT_0 as Hpi.
  assert (H0 : 0 <= INR idx) by apply pos_INR.
  assert (H9 : INR idx <= 9).
  { replace 9 with (INR 9) by (cbn; lra). apply le_INR. lia. }
  replace (INR 10) with 10 by (cbn; lra).
  split.
  - apply Rmult_le_pos; [apply Rmult_le_pos |]; lra.
  - nra.
Qed.

(** A state of the controls as the loop keeps it: auto-orbit off and the
    light on the ring at [currentAngle], an angle within one turn. *)
Definition steady (c : Controls) : Prop :=
  autoOrbit c = false /\
  currentLightDir c = ring (currentAngle c) /\
  0 <= currentAngle c < 2 * PI.

Definition steered (c c' : Controls) : Prop :=
  (currentAngle c' = currentAngle c /\
   currentLightDir c' = currentLightDir c) \/
  (currentLightDir c' = ring (currentAngle c') /\
   0 <= currentAngle c' < 2 * PI).

Lemma updateLightFromKeys_steered keyChar c :
  autoOrbit (updateLightFromKeys keyChar c) = autoOrbit c /\
  steered c (updateLightFromKeys keyChar c).
Proof.
  unfold updateLightFromKeys. cbn zeta.
  set (ch := toLowerCase keyChar).
  assert (Hrow : forall row a, String.length row = 10%nat ->
            angleForRowKey row ch = Some a ->
            let c' := mkControls a
                        (Vec.normalize (mkVector3 (cos a) 0 (sin a)))
                        (autoOrbit c) in
            autoOrbit c' = autoOrbit c /\ steered c c').
  { intros row a Hlen Ha. cbn zeta. split; [reflexivity |].
    right. cbn [currentAngle currentLightDir].
    split; [apply normalize_ring | now apply (angleForRowKey_range row ch)]. }
  destruct (angleForRowKey row1 ch) as [a1 |] eqn:E1;
    [now apply (Hrow row1) |].
  destruct (angleForRowKey row2 ch) as [a2 |] eqn:E2;
    [now apply (Hrow row2) |].
  destruct (angleForRowKey row3 ch) as [a3 |] eqn:E3;
    [now apply (Hrow row3) |].
  split; [reflexivity | left; split; reflexivity].
Qed.

(** The keys that end the program: Ctrl-C and Escape. *)
Definition interrupts (key : option Key) : bool :=
  match key with Some k => ctrl k | None => false end && name_is key "c"
  || name_is key "escape".

Definition sequence_of (key : option Key) : option string :=
  match key with Some k => sequence k | None => None end.

Lemma keypress_continue str key c c' :
  keypress str key c = Continue c' ->
  autoOrbit c' = false /\ steered c c' /\
  (steady c -> steady c' /\ Vec.length (currentLightDir c') = 1).
Proof.
  assert (Hsteady : forall c1, autoOrbit c1 = false -> steered c c1 ->
            steady c -> steady c1 /\ Vec.length (currentLightDir c1) = 1).
  { intros c1 Ha Hs (_ & Hl & Hr).
    assert (Hc1 : steady c1).
    { split; [exact Ha |].
      destruct Hs as [[Ea El] | [El Er]].
      - rewrite Ea, El. now split.
      - now split. }
    split; [exact Hc1 |]. destruct Hc1 as (_ & -> & _). apply ring_length. }
  unfold keypress.
  destruct (match key with Some k => ctrl k | None => false end
            && name_is key "c"); [discriminate |].
  destruct (name_is key "escape"); [discriminate |].
  cbn zeta.
  set (c0 := mkControls (currentAngle c) (currentLightDir c) false).
  assert (H0 : steered c c0) by (left; split; reflexivity).
  destruct (match parseInt _ with Some n => _ | None => None end)
    as [n |] eqn:En.
  - intros H. injection H as <-.
    assert (Hn : (1 <= n <= 8)%Z).
    { destruct (parseInt _) as [n' |]; [| discriminate].
      destruct ((1 <=? n') && (n' <=? 8))%Z eqn:Eb; [| discriminate].
      injection En as <-. lia. }
    assert (Hs : steered c
              (mkControls ((IZR n - 1) / 8 * PI * 2)
                 (Vec.normalize
                    (mkVector3 (cos ((IZR n - 1) / 8 * PI * 2)) tiltY
                               (sin ((IZR n - 1) / 8 * PI * 2)))) false)).
    { right. cbn [currentAngle currentLightDir]. unfold tiltY.
      split; [apply normalize_ring |].
      pose proof PI_RGT_0 as Hpi.
      assert (1 <= IZR n <= 8) by (split; apply IZR_le; lia).
      split; [apply Rmult_le_pos; [apply Rmult_le_pos |]; lra | nra]. }
    split; [reflexivity |]. split; [exact Hs |]. now apply Hsteady.
  - assert (Hc0 : Continue c0 = Continue c' ->
              autoOrbit c' = false /\ steered c c' /\
              (steady c ->
               steady c' /\ Vec.length (currentLightDir c') = 1)).
    { intros H. injection H as <-.
      split; [reflexivity |]. split; [exact H0 |]. now apply Hsteady. }
    destruct str as [s |]; [| exact Hc0].
    destruct (String.length s =? 1)%nat; [| exact Hc0].
    intros H. injection H as <-.
    destruct (updateLightFromKeys_steered s c0) as [Ha Hs].
    assert (Hs' : steered c (updateLightFromKeys s c0)).
    { destruct Hs as [[Ea El] | Hr]; [left | right; exact Hr].
      now rewrite Ea, El. }
    split; [now rewrite Ha |]. split; [exact Hs' |].
    apply Hsteady; [now rewrite Ha | exact Hs'].
Qed.

(** A key press ends the program exactly for Ctrl-C and Escape, whatever
    else the event carries.  Any other key switches auto-orbit off and
    either leaves the light where it is or puts it at a unit vector on
    the horizontal ring, at an angle of at least 0 and less than a full
    turn. *)
Theorem keypress_interrupts_or_steers str key c :
  (keypress str key c = Interrupt <-> interrupts key = true) /\
  (forall c', keypress str key c = Continue c' ->
     autoOrbit c' = false /\ steered c c' /\
     (steady c -> steady c' /\ Vec.length (currentLightDir c') = 1)).
Proof.
  split; [| intros c'; apply keypress_continue].
  unfold keypress, interrupts.
  destruct (match key with Some k => ctrl k | None => false end
            && name_is key "c"); cbn [orb]; [tauto |].
  destruct (name_is key "escape"); [tauto |].
  cbn zeta.
  destruct (match parseInt _ with Some n => _ | None => None end);
    [split; discriminate |].
  destruct str as [s |]; [| split; discriminate].
  destruct (String.length s =? 1)%nat; split; discriminate.
Qed.

Lemma updateLightFromKeys_lower s c :
  updateLightFromKeys (toLowerCase s) c = updateLightFromKeys s c.
Proof. unfold updateLightFromKeys. now rewrite toLowerCase_idempotent. Qed.

(** The position of a character in the three key rows, the first row
    that has it deciding. *)
Definition slot (ch : string) : option nat :=
  match index 0 ch row1 with
  | Some i => Some i
  | None =>
      match index 0 ch row2 with
      | Some i => Some i
      | None => index 0 ch row3
      end
  end.

Lemma updateLightFromKeys_slot keyChar c :
  updateLightFromKeys keyChar c
  = match slot (toLowerCase keyChar) with
    | Some i =>
        let a := INR i / INR 10 * PI * 2 in
        mkControls a (Vec.normalize (mkVector3 (cos a) 0 (sin a)))
                   (autoOrbit c)
    | None => c
    end.
Proof.
  unfold updateLightFromKeys, angleForRowKey, slot. cbn zeta.
  change (String.length row1) with 10%nat.
  change (String.length row2) with 10%nat.
  change (String.length row3) with 10%nat.
  destruct (index 0 (toLowerCase keyChar) row1); [reflexivity |].
  destruct (index 0 (toLowerCase keyChar) row2); [reflexivity |].
  destruct (index 0 (toLowerCase keyChar) row3); reflexivity.
Qed.

Definition rows : list string := [row1; row2; row3].

Lemma slot_row row i ch :
  In row rows -> get i row = Some ch ->
  slot (String ch "") = Some i /\ Loader.is_digit ch = false.
Proof.
  intros [<- | [<- | [<- | []]]] H;
    do 10 (destruct i as [| i]; [injection H as <-; split; reflexivity |]);
    discriminate H.
Qed.

Lemma digit_lower t : Loader.is_digit t = true -> lower t = t.
Proof.
  destruct t as [[] [] [] [] [] [] [] []]; intros H;
    try discriminate H; reflexivity.
Qed.

Lemma parseInt_char t :
  parseInt (Some (String t ""))
  = if Loader.is_digit t then Some (Loader.digit_val t) else None.
Proof. destruct t as [[] [] [] [] [] [] [] []]; reflexivity. Qed.

(** The sequence of a digit key. *)
Definition digit_key (n : Z) : string :=
  String (ascii_of_nat (48 + Z.to_nat n)) "".

Lemma parseInt_digit n :
  (1 <= n <= 8)%Z -> parseInt (Some (digit_key n)) = Some n.
Proof.
  intros Hn.
  assert (H : (n = 1 \/ n = 2 \/ n = 3 \/ n = 4 \/ n = 5 \/ n = 6 \/ n = 7
               \/ n = 8)%Z) by lia.
  destruct H as [-> | [-> | [-> | [-> | [-> | [-> | [-> | ->]]]]]]];
    reflexivity.
Qed.

Definition at_angle (a : R) : Controls := mkControls a (ring a) false.

Definition escape_key : Key := mkKey false (Some "escape") None.
Definition shift_a_key : Key := mkKey false (Some "a") (Some "A").

Lemma keypress_interrupts_or_steers_witness :
  keypress None (Some escape_key) (controls (start 80 24)) = Interrupt /\
  autoOrbit (updateLightFromKeys "A"
               (mkControls 0 (ring 0) false)) = false.
Proof.
  split.
  - apply (proj1 (keypress_interrupts_or_steers None (Some escape_key)
                    (controls (start 80 24)))).
    reflexivity.
  - refine (proj1 (proj2 (keypress_interrupts_or_steers (Some "A")
                             (Some shift_a_key)
                             (mkControls 0 (ring 0) false)) _ _)).
    reflexivity.
Defined.

(** The presets: a digit key 1 to 8 puts the light at (n - 1) eighths of
    a turn on the ring, whatever the text of the event; a key of the
    three letter rows, typed in either case, puts it at as many tenths
    of a turn as the key has keys to its left in its row.  So the keys
    1, q, a and z all give the angle 0. *)
Theorem keys_pick_ring_positions key c :
  interrupts key = false ->
  (forall str n, (1 <= n <= 8)%Z -> sequence_of key = Some (digit_key n) ->
     keypress str key c = Continue (at_angle ((IZR n - 1) * (PI / 4)))) /\
  (forall row i ch typed,
     In row rows -> get i row = Some ch -> lower typed = ch ->
     sequence_of key = Some (String typed "") ->
     keypress (Some (String typed "")) key c
     = Continue (at_angle (INR i * (PI / 5)))).
Proof.
  intros Hint. unfold interrupts in Hint.
  apply orb_false_elim in Hint as [E1 E2].
  split.
  - intros str n Hn Hseq. unfold keypress. rewrite E1, E2. cbn zeta.
    change (match key with Some k => sequence k | None => None end)
      with (sequence_of key).
    rewrite Hseq, parseInt_digit by exact Hn.
    replace ((1 <=? n)%Z && (n <=? 8)%Z) with true
      by (symmetry; apply andb_true_intro; split; apply Z.leb_le; lia).
    unfold tiltY. rewrite normalize_ring. unfold at_angle.
    replace ((IZR n - 1) / 8 * PI * 2) with ((IZR n - 1) * (PI / 4)) by field.
    reflexivity.
  - intros row i ch typed Hrow Hget Hlow Hseq.
    destruct (slot_row row i ch Hrow Hget) as [Hslot Hnd].
    assert (Htyped : Loader.is_digit typed = false).
    { destruct (Loader.is_digit typed) eqn:E; [| reflexivity].
      rewrite (digit_lower typed E) in Hlow. subst typed. congruence. }
    unfold keypress. rewrite E1, E2. cbn zeta.
    change (match key with Some k => sequence k | None => None end)
      with (sequence_of key).
    rewrite Hseq, parseInt_char, Htyped.
    cbn [String.length Nat.eqb].
    rewrite updateLightFromKeys_slot. cbn [toLowerCase].
    rewrite Hlow, Hslot. cbn zeta. cbn [autoOrbit].
    rewrite normalize_ring. unfold at_angle.
    replace (INR i / INR 10 * PI * 2) with (INR i * (PI / 5))
      by (replace (INR 10) with 10 by (cbn; lra); field).
    reflexivity.
Qed.

Lemma keys_pick_ring_positions_witness :
  keypress (Some "A") (Some shift_a_key) (controls (start 80 24))
  = Continue (at_angle (INR 0 * (PI / 5))).
Proof.
  apply (proj2 (keys_pick_ring_positions (Some shift_a_key)
                  (controls (start 80 24)) eq_refl)
           row2 0%nat "a"%char "A"%char).
  - right. left. reflexivity.
  - reflexivity.
  - reflexivity.
  - reflexivity.
Defined.

(** ** The loop *)

Fixpoint ticks (events : list event) : nat :=
  match events with
  | [] => O
  | Tick :: rest => S (ticks rest)
  | Keypress _ _ :: rest => ticks rest
  end.

Lemma js_rem_floor a T :
  0 <= a -> 0 < T -> js_rem a T = a - T * IZR (Zfloor (a / T)).
Proof.
  intros Ha HT. unfold js_rem, Ztrunc.
  destruct (Rlt_dec (a / T) 0) as [Hneg | _]; [| reflexivity].
  exfalso. assert (0 <= a / T) by (apply Rle_mult_inv_pos; lra). lra.
Qed.

Lemma js_rem_range a T : 0 <= a -> 0 < T -> 0 <= js_rem a T < T.
Proof.
  intros Ha HT. rewrite js_rem_floor by assumption.
  pose proof (Zfloor_bound (a / T)) as Hf.
  set (f := IZR (Zfloor (a / T))) in *.
  assert (E : a = T * (a / T)) by (field; lra).
  set (q := a / T) in *. split; nra.
Qed.

Lemma js_rem_small a T : 0 <= a < T -> js_rem a T = a.
Proof.
  intros [Ha HT]. rewrite js_rem_floor by lra.
  rewrite (Zfloor_eq 0 (a / T)).
  - ring.
  - assert (E : a = T * (a / T)) by (field; lra).
    set (q := a / T) in *. cbn. split; nra.
Qed.

Lemma js_rem_add a d T :
  0 <= a -> 0 <= d -> 0 < T ->
  js_rem (js_rem a T + d) T = js_rem (a + d) T.
Proof.
  intros Ha Hd HT.
  pose proof (js_rem_range a T Ha HT) as Hr.
  rewrite (js_rem_floor (js_rem a T + d)) by lra.
  rewrite (js_rem_floor (a + d)) by lra.
  rewrite (js_rem_floor a) by lra.
  set (k := Zfloor (a / T)).
  replace ((a - T * IZR k + d) / T) with ((a + d) / T + IZR (- k))
    by (rewrite opp_IZR; field; lra).
  rewrite Zfloor_addz, plus_IZR, opp_IZR. ring.
Qed.

Lemma yaw_matrix a : createRotationMatrix 0 a 0 = Ry (reduced a).
Proof.
  unfold createRotationMatrix, Ry, reduced. cbn zeta.
  rewrite !GeometryFacts.js_rem_zero, cos_0, sin_0. f_equal; ring.
Qed.

Lemma tick_fst triangles s :
  fst (tick triangles s)
  = let rotationZ := js_rem (rotationZ s + rotationSpeed) (2 * PI) in
    let c :=
      if autoOrbit (controls s) then
        let a := PI / 4 - rotationZ * 0.5 in
        mkControls a (Vec.normalize (mkVector3 (cos a) tiltY (sin a))) true
      else controls s in
    mkState rotationZ c
      (fst (frame (renderer s) triangles
                  (createRotationMatrix 0 rotationZ 0)
                  (currentLightDir c) cameraDistance)).
Proof.
  unfold tick. cbn zeta. destruct (frame _ _ _ _ _). reflexivity.
Qed.

Lemma frame_sized r triangles M L cam :
  well_sized r ->
  well_sized (fst (frame r triangles M L cam)) /\
  shape (fst (frame r triangles M L cam)) = shape r.
Proof.
  intros Hw. unfold frame.
  assert (H : forall s, well_sized s -> shape s = shape r ->
                well_sized (fold_left
                  (fun r' t => drawTriangle r' t M L cam) triangles s) /\
                shape (fold_left
                  (fun r' t => drawTriangle r' t M L cam) triangles s)
                = shape r).
  { induction triangles as [| t ts IH]; intros s Hs Es; [auto |].
    cbn [fold_left]. apply IH.
    - now apply drawTriangle_well_sized.
    - now rewrite EndToEnd.drawTriangle_shape. }
  destruct (H (clear r) (clear_well_sized r Hw) (clear_shape r)) as [H1 H2].
  split; [now apply render_well_sized | now rewrite render_shape].
Qed.

(** What the loop keeps true of a state [n] ticks after the start. *)
Definition looping (w h : Z) (n : nat) (s : State) : Prop :=
  steady (controls s) /\
  rotationZ s = js_rem (INR n * rotationSpeed) (2 * PI) /\
  shape (renderer s) = (w, h, true) /\
  well_sized (renderer s) /\
  FrameBufferFacts.inv (renderer s).

Lemma start_looping w h : looping w h 0 (start w h).
Proof.
  pose proof PI_RGT_0 as Hpi.
  unfold looping, start, steady.
  cbn [controls rotationZ renderer autoOrbit currentLightDir currentAngle].
  split; [split; [reflexivity | split] |].
  - unfold tiltY. apply normalize_ring.
  - lra.
  - split; [| split; [reflexivity | split]].
    + cbn [INR]. rewrite Rmult_0_l. symmetry. apply js_rem_small. lra.
    + apply new_well_sized.
    + apply FrameBufferFacts.new_inv.
Qed.

Lemma speed_pos n : 0 <= INR n * rotationSpeed.
Proof.
  apply Rmult_le_pos; [apply pos_INR | unfold rotationSpeed; lra].
Qed.

Lemma step_looping triangles w h n s e s' :
  looping w h n s -> step triangles s e = Some s' ->
  looping w h (n + ticks [e]) s'.
Proof.
  intros (Hc & Hrot & Hshape & Hsized & Hinv) Hstep.
  destruct e as [str key |]; cbn [step ticks] in *.
  - destruct (keypress str key (controls s)) as [| c'] eqn:Ek;
      [discriminate |].
    injection Hstep as <-.
    destruct (keypress_continue str key (controls s) c' Ek)
      as (_ & _ & Hsteady).
    replace (n + 0)%nat with n by lia.
    unfold looping. cbn [controls rotationZ renderer].
    split; [exact (proj1 (Hsteady Hc)) | auto].
  - injection Hstep as <-. rewrite tick_fst. cbn zeta.
    destruct Hc as (Hauto & Hlight & Hrange). rewrite Hauto.
    replace (n + 1)%nat with (S n) by lia.
    destruct (frame_sized (renderer s) triangles
                (createRotationMatrix 0
                   (js_rem (rotationZ s + rotationSpeed) (2 * PI)) 0)
                (currentLightDir (controls s)) cameraDistance Hsized)
      as [Hw' Hs'].
    unfold looping. cbn [controls rotationZ renderer].
    split; [unfold steady; auto |].
    split.
    { rewrite Hrot, S_INR.
      rewrite js_rem_add;
        [f_equal; ring | apply speed_pos | unfold rotationSpeed; lra
         | pose proof PI_RGT_0; lra]. }
    split; [now rewrite Hs' |].
    split; [exact Hw' | now apply FrameBufferFacts.frame_inv].
Qed.

Lemma run_looping triangles w h events :
  forall n s s',
    looping w h n s -> run triangles s events = Some s' ->
    looping w h (n + ticks events) s'.
Proof.
  induction events as [| e rest IH]; intros n s s' Hl Hrun.
  - cbn in *. injection Hrun as <-. now replace (n + 0)%nat with n by lia.
  - cbn [run] in Hrun.
    destruct (step triangles s e) as [s1 |] eqn:Es; [| discriminate].
    pose proof (step_looping triangles w h n s e s1 Hl Es) as H1.
    pose proof (IH _ _ _ H1 Hrun) as H2.
    replace (n + ticks (e :: rest))%nat
      with (n + ticks [e] + ticks rest)%nat; [exact H2 |].
    destruct e; cbn; lia.
Qed.

(** Whatever keys are pressed between the frames, the loop started by
    [main] keeps auto-orbit off and the light a unit vector on the
    horizontal ring; after [n] ticks the rotation angle is [n] times 0.04
    reduced to less than a full turn, and its matrix is the rotation by
    [n * 0.04] about the vertical axis; the grids keep the size the
    terminal had at the start; and a tick never moves the light. *)
Theorem loop_keeps_light_and_turns_mesh triangles w h events s :
  run triangles (start w h) events = Some s ->
  let n := ticks events in
  autoOrbit (controls s) = false /\
  currentLightDir (controls s) = ring (currentAngle (controls s)) /\
  Vec.length (currentLightDir (controls s)) = 1 /\
  0 <= rotationZ s < 2 * PI /\
  rotationZ s = js_rem (INR n * rotationSpeed) (2 * PI) /\
  createRotationMatrix 0 (rotationZ s) 0 = Ry (INR n * rotationSpeed) /\
  shape (renderer s) = (w, h, true) /\
  well_sized (renderer s) /\
  controls (fst (tick triangles s)) = controls s.
Proof.
  intros Hrun. cbn zeta.
  destruct (run_looping triangles w h events 0 (start w h) s
              (start_looping w h) Hrun)
    as ((Hauto & Hlight & Hrange) & Hrot & Hshape & Hsized & _).
  cbn [Nat.add] in Hrot.
  pose proof PI_RGT_0 as Hpi.
  split; [exact Hauto |]. split; [exact Hlight |].
  split; [rewrite Hlight; apply ring_length |].
  split; [rewrite Hrot; apply js_rem_range; [apply speed_pos | lra] |].
  split; [exact Hrot |].
  split.
  { rewrite yaw_matrix. unfold Ry.
    rewrite cos_reduced, sin_reduced, Hrot.
    fold (reduced (INR (ticks events) * rotationSpeed)).
    now rewrite cos_reduced, sin_reduced. }
  split; [exact Hshape |]. split; [exact Hsized |].
  rewrite tick_fst. cbn zeta. now rewrite Hauto.
Qed.

Definition five_key : Key := mkKey false (Some "5") (Some "5").

Definition some_events : list event :=
  [Tick; Keypress (Some "5") (Some five_key); Tick].

Lemma loop_keeps_light_and_turns_mesh_witness :
  exists s,
    run [] (start 2 2) some_events = Some s /\
    autoOrbit (controls s) = false /\
    rotationZ s = js_rem (INR 2 * rotationSpeed) (2 * PI).
Proof.
  eexists. split; [reflexivity |].
  refine (let H := loop_keeps_light_and_turns_mesh [] 2 2 some_events _
                     eq_refl in _).
  cbn zeta in H. destruct H as (Ha & _ & _ & _ & Hr & _).
  split; [exact Ha | exact Hr].
Defined.

End ControlFacts.

(** * Projection and palette *)

Module ProjectionFacts.
Import Render EndToEnd ControlFacts.
Open Scope R_scope.

Lemma floor_half_up (w : Z) : Zfloor (IZR w / 2 + 0.5) = ((w + 1) / 2)%Z.
Proof.
  apply Zfloor_eq.
  pose proof (Z.div_mod (w + 1) 2 ltac:(lia)) as E.
  pose proof (Z.mod_pos_bound (w + 1) 2 ltac:(lia)) as B.
  set (q := ((w + 1) / 2)%Z) in *. set (m := ((w + 1) mod 2)%Z) in *.
  assert (Ew : IZR w = 2 * IZR q + IZR m - 1).
  { replace w with (2 * q + m - 1)%Z by lia.
    rewrite minus_IZR, plus_IZR, mult_IZR. reflexivity. }
  assert (0 <= IZR m <= 1) by (split; apply IZR_le; lia).
  rewrite Ew. lra.
Qed.

Lemma floor_quarter_up (h : Z) : Zfloor (IZR h / 2 + 0.25) = (h / 2)%Z.
Proof.
  apply Zfloor_eq.
  pose proof (Z.div_mod h 2 ltac:(lia)) as E.
  pose proof (Z.mod_pos_bound h 2 ltac:(lia)) as B.
  set (q := (h / 2)%Z) in *. set (m := (h mod 2)%Z) in *.
  assert (Eh : IZR h = 2 * IZR q + IZR m).
  { rewrite E at 1. rewrite plus_IZR, mult_IZR. reflexivity. }
  assert (0 <= IZR m <= 1) by (split; apply IZR_le; lia).
  rewrite Eh. lra.
Qed.

Lemma scale_pos zc : 0.1 < zc -> 0 < / (tan (45 * PI / 180 / 2) * zc).
Proof.
  intros Hz. pose proof tan_half_fov as Ht.
  apply Rinv_0_lt_compat. nra.
Qed.

(** The projection keeps the view-axis depth of the point in every case;
    a point no more than 0.1 in front of the camera gets the cell
    (-1, -1); a point straight ahead of the camera lands in the middle
    column, and one at the camera's height in the middle row; and at one
    depth a point farther right is drawn no farther left, a point farther
    up no farther down. *)
Theorem projection_centres_and_orders r p q cam :
  sz (projectToScreen r p cam) = z p /\
  (z p + cam <= 0.1 ->
   sx (projectToScreen r p cam) = (-1)%Z /\
   sy (projectToScreen r p cam) = (-1)%Z) /\
  (0.1 < z p + cam -> x p = 0 ->
   sx (projectToScreen r p cam) = ((width r + 1) / 2)%Z) /\
  (0.1 < z p + cam -> y p = 0 ->
   sy (projectToScreen r p cam) = (height r / 2)%Z) /\
  (0.1 < z p + cam -> z q = z p ->
   ((0 <= width r)%Z -> x p <= x q ->
    (sx (projectToScreen r p cam) <= sx (projectToScreen r q cam))%Z) /\
   ((0 <= height r)%Z -> y p <= y q ->
    (sy (projectToScreen r q cam) <= sy (projectToScreen r p cam))%Z)).
Proof.
  unfold projectToScreen. cbn zeta.
  split; [destruct (Rle_dec (z p + cam) 0.1); reflexivity |].
  split.
  { intros H. destruct (Rle_dec (z p + cam) 0.1); [| lra]. now split. }
  split.
  { intros H Ex. destruct (Rle_dec (z p + cam) 0.1); [lra |].
    cbn [sx]. rewrite Ex. unfold Math_floor.
    rewrite <- floor_half_up. f_equal. unfold Rdiv. ring. }
  split.
  { intros H Ey. destruct (Rle_dec (z p + cam) 0.1); [lra |].
    cbn [sy]. rewrite Ey. unfold Math_floor.
    rewrite <- floor_quarter_up. f_equal. unfold Rdiv. ring. }
  intros H Ez. rewrite Ez.
  destruct (Rle_dec (z p + cam) 0.1); [lra |].
  cbn [sx sy]. pose proof (scale_pos _ H) as Hs.
  unfold Math_floor, Rdiv in *.
  set (u := / (tan (45 * PI * / 180 * / 2) * (z p + cam))) in *.
  split.
  - intros Hw Hx. apply Zfloor_le.
    assert (H0 : 0 <= IZR (width r)) by (apply IZR_le; exact Hw).
    assert (Hk : 0 <= (x q - x p) * (u * (IZR (width r) * 0.3)))
      by (apply Rmult_le_pos; [lra | apply Rmult_le_pos; lra]).
    lra.
  - intros Hh Hy. apply Zfloor_le.
    assert (H0 : 0 <= IZR (height r)) by (apply IZR_le; exact Hh).
    assert (Hk : 0 <= (y q - y p) * (u * (IZR (height r) * 0.3 * 2.0)))
      by (apply Rmult_le_pos; [lra | apply Rmult_le_pos; lra]).
    lra.
Qed.

Lemma projection_centres_and_orders_witness :
  sx (projectToScreen (TerminalRenderer_new 80 24 true)
        (mkVector3 0 0 1) 3)
  = ((width (TerminalRenderer_new 80 24 true) + 1) / 2)%Z.
Proof.
  destruct (projection_centres_and_orders (TerminalRenderer_new 80 24 true)
              (mkVector3 0 0 1) (mkVector3 0 0 1) 3)
    as (_ & _ & Hx & _).
  apply Hx; cbn [x z]; [lra | reflexivity].
Defined.

(** ** The palette *)

(** [getCharBrightness(char)]. *)
Definition getCharBrightness (char : string) : Z :=
  match index 0 char asciiChars with
  | Some idx => Z.of_nat idx
  | None => 0
  end.

(** [getCharBrightness] undoes the lookup [render] does: it gives back
    the index of each of the ten characters of the palette, and 0 for the
    space that stands for an empty cell; whatever it is given, its result
    is an index of the palette. *)
Theorem brightness_inverts_glyph :
  (forall i, (0 <= i <= 9)%Z -> getCharBrightness (glyph i) = i) /\
  (forall i, (i < 0)%Z -> getCharBrightness (glyph i) = 0%Z) /\
  (forall char, (0 <= getCharBrightness char <= maxIndex)%Z).
Proof.
  split; [| split].
  - intros i Hi.
    assert (H : (i = 0 \/ i = 1 \/ i = 2 \/ i = 3 \/ i = 4 \/ i = 5
                 \/ i = 6 \/ i = 7 \/ i = 8 \/ i = 9)%Z) by lia.
    destruct H as [-> | [-> | [-> | [-> | [-> | [-> | [-> | [-> | [-> | ->
      ]]]]]]]]]; reflexivity.
  - intros i Hi. unfold glyph.
    destruct (i >=? 0)%Z eqn:E; [lia | reflexivity].
  - intros char. unfold getCharBrightness, maxIndex.
    change (Z.of_nat (String.length asciiChars) - 1)%Z with 9%Z.
    destruct (index 0 char asciiChars) as [idx |] eqn:E; [| lia].
    destruct (index_found _ _ _ E) as [-> | Hlt]; [lia |].
    change (String.length asciiChars) with 10%nat in Hlt. lia.
Qed.

Lemma brightness_inverts_glyph_witness :
  getCharBrightness (glyph 9) = 9%Z.
Proof. apply (proj1 brightness_inverts_glyph). lia. Defined.

End ProjectionFacts.
